(** * Dial worker, dial queue and UDP mux flow table of go-libp2p

    A shallow embedding of
    - [p2p/net/swarm/dial_worker.go]: the delay-ordered [dialQueue] and the
      per-peer [dialWorker] event loop, and
    - the WebRTC [udpmux] package: the [UDPMux] front and its dual-indexed
      [udpMuxStorage],
    followed by the properties the specification states about them. *)

From Stdlib Require Import ZArith Lia Sorted.
From Stdlib Require Import Strings.Byte.
From stdpp Require Import gmap strings list fin_maps.

(** ** Shared vocabulary *)

Module Net.

(** A [ma.Multiaddr] is observed by the worker only through
    [addr.Bytes()] (map keys are [string(addr.Bytes())]) and [Equal],
    which compares those bytes; it is represented by that byte string. *)
Abbreviation Multiaddr := string.

(** [network.AddrDelay]; [Delay] is a [time.Duration], an int64 count of
    nanoseconds. *)
Record AddrDelay := mkAddrDelay { Addr : Multiaddr; Delay : Z }.

#[export] Instance AddrDelay_eq_dec : EqDecision AddrDelay.
Proof. solve_decision. Defined.

End Net.

(** ** The dial queue *)

Module DialQueue.
Import Net.

(** [dialQueue.q]: dials ordered by delay. *)
Abbreviation dialQueue := (list AddrDelay).

Definition newDialQueue : dialQueue := [].

Definition Len (dq : dialQueue) : Z := Z.of_nat (length dq).

(** First loop of [Add]: scan for the first entry with an equal address.
    [None] is the early [return] (same delay already queued); otherwise the
    queue with that entry cut out (or untouched when no entry matches). *)
Fixpoint add_scan (adelay : AddrDelay) (q : dialQueue) : option dialQueue :=
  match q with
  | [] => Some []
  | x :: q' =>
      if bool_decide (Addr x = Addr adelay) then
        if bool_decide (Delay x = Delay adelay) then None else Some q'
      else cons x <$> add_scan adelay q'
  end.

(** Second loop of [Add]: insert in front of the first entry whose delay is
    strictly larger, or append. *)
Fixpoint add_place (adelay : AddrDelay) (q : dialQueue) : dialQueue :=
  match q with
  | [] => [adelay]
  | x :: q' =>
      if bool_decide (Delay x > Delay adelay)%Z then adelay :: x :: q'
      else x :: add_place adelay q'
  end.

Definition Add (adelay : AddrDelay) (dq : dialQueue) : dialQueue :=
  match add_scan adelay dq with
  | None => dq
  | Some q' => add_place adelay q'
  end.

(** The index [i] computed by the loop of [NextBatch]: the length of the
    front run of entries whose delay equals [d0]. *)
Fixpoint batch_end (d0 : Z) (q : dialQueue) : nat :=
  match q with
  | [] => 0
  | x :: q' => if bool_decide (Delay x ≠ d0) then 0 else S (batch_end d0 q')
  end.

(** [NextBatch] returns [dq.q[:i]] and leaves [dq.q[i:]]. *)
Definition NextBatch (dq : dialQueue) : list AddrDelay * dialQueue :=
  match dq with
  | [] => ([], [])
  | x0 :: _ =>
      let i := batch_end (Delay x0) dq in
      (take i dq, drop i dq)
  end.

(** [top] indexes [dq.q[0]] and panics on an empty queue. *)
Definition top (dq : dialQueue) : option AddrDelay := head dq.

(** Sequences of the two mutating operations. *)
Inductive op := OpAdd (adelay : AddrDelay) | OpNextBatch.

Definition apply_op (dq : dialQueue) (o : op) : dialQueue :=
  match o with
  | OpAdd adelay => Add adelay dq
  | OpNextBatch => (NextBatch dq).2
  end.

Definition run (ops : list op) : dialQueue :=
  foldl apply_op newDialQueue ops.

Definition addrs_of (q : dialQueue) : list Multiaddr := Addr <$> q.

Definition by_delay : AddrDelay → AddrDelay → Prop :=
  λ x y, (Delay x ≤ Delay y)%Z.

(** What [Add] and [NextBatch] maintain: one entry per address, in
    non-decreasing order of delay. *)
Definition dq_inv (q : dialQueue) : Prop :=
  NoDup (addrs_of q) ∧ StronglySorted by_delay q.

End DialQueue.

(** ** The dial worker *)

Module DialWorker.
Import Net DialQueue.

Abbreviation PeerID := string.

(** A non-nil [*Conn] of the swarm, by identity; a nil pointer is [None]. *)
Abbreviation Conn := nat.

(** Non-nil [error] values, told apart as the worker tells them apart
    (comparison with the sentinels); a nil error is [None]. *)
Inductive error :=
| ErrDialBackoff
| ErrAllDialsFailed
| ErrDialRefusedBlackHole
| ErrContextCanceled
| ErrTransportBug   (* the "BUG in transport" value built in handleSuccess *)
| ErrOther (msg : string).

#[export] Instance error_eq_dec : EqDecision error.
Proof. solve_decision. Defined.

(** Modelled from the spec: [context.Context] with the
    simultaneous-connect metadata of [core/network], which is declared
    outside the files at hand. A context is a cancellation scope that may
    carry simultaneous-connect metadata (client or server, and a reason);
    [WithSimultaneousConnect] attaches the metadata and
    [GetSimultaneousConnect] reads it back. *)
Record Context := mkContext {
  ctx_scope : nat;
  ctx_simconnect : option (bool * string)
}.

Definition GetSimultaneousConnect (ctx : Context) : bool * bool * string :=
  match ctx_simconnect ctx with
  | Some (isClient, reason) => (true, isClient, reason)
  | None => (false, false, "")
  end.

Definition WithSimultaneousConnect (ctx : Context) (isClient : bool)
    (reason : string) : Context :=
  {| ctx_scope := ctx_scope ctx; ctx_simconnect := Some (isClient, reason) |}.

(** [dialRequest]; the channel [resch] is modelled by its identity. *)
Record dialRequest := mkRequest { req_ctx : Context; resch : nat }.

Record TransportError := mkTransportError {
  te_Address : Multiaddr;
  te_Cause : option error
}.

Record DialError := mkDialError {
  de_Peer : PeerID;
  DialErrors : list TransportError;
  Cause : option error
}.

(** Modelled from the spec: [DialError.recordErr] is declared outside the
    files at hand; it appends the per-address error to the multi-error. *)
Definition recordErr (e : DialError) (addr : Multiaddr) (err : option error)
  : DialError :=
  {| de_Peer := de_Peer e;
     DialErrors := DialErrors e ++ [mkTransportError addr err];
     Cause := Cause e |}.

Definition with_Cause (e : DialError) (cause : error) : DialError :=
  {| de_Peer := de_Peer e; DialErrors := DialErrors e; Cause := Some cause |}.

(** The [err] of a [dialResponse] is either an error handed through from
    the swarm or a [*DialError] built by the worker. *)
Inductive response_error :=
| PlainError (e : error)
| DialFailure (e : DialError).

Record dialResponse := mkResponse {
  resp_conn : option Conn;
  resp_err : option response_error
}.

(** A send [req.resch <- response]: the channel and the value sent. *)
Abbreviation output := (nat * dialResponse)%type.

(** [pendRequest]; [addrs] only ever maps keys to [true], so it is a set. *)
Record pendRequest := mkPend {
  pr_req : dialRequest;
  pr_err : DialError;
  pr_addrs : gset string
}.

Record addrDial := mkAddrDial {
  ad_addr : Multiaddr;
  ad_ctx : Context;
  ad_conn : option Conn;
  ad_err : option error;
  ad_dialed : bool;
  ad_createdAt : Z;
  ad_dialRankingDelay : Z;
  ad_startTime : Z
}.

(** A connection handed over by a transport, with its [RemotePeer()]. *)
Record RawConn := mkRawConn { rc_id : nat; rc_RemotePeer : PeerID }.

(** Modelled from the spec: the kind of a [dialResult] is declared outside
    the files at hand; it is [Started] or [Finished]. *)
Inductive DialKind := DialStarted | DialFinished.

Record dialResult := mkResult {
  res_Kind : DialKind;
  res_Conn : option RawConn;
  res_Addr : Multiaddr;
  res_Err : option error
}.

(** The swarm collaborator as the worker sees it while it handles one
    event: what each call answers. Calls that only report to the swarm
    (backoff table, black hole detector, metrics, logs) change nothing the
    worker reads and are left out. *)
Record Swarm := mkSwarm {
  bestAcceptableConnToPeer : Context → option Conn * option error;
  addrsForDial : Context → list Multiaddr * list TransportError * option error;
  dialRanker : list Multiaddr → list AddrDelay;
  dialNextAddr : Context → Multiaddr → option error;
  addConn : RawConn → option Conn * option error
}.

(** Modelled from the spec: [NoDelayDialRanker] is declared outside the
    files at hand; it ranks every address with delay zero. *)
Definition NoDelayDialRanker (addrs : list Multiaddr) : list AddrDelay :=
  (λ a, mkAddrDelay a 0) <$> addrs.

(** [dialWorker], with the two timer locals of [loop] folded into [timer]:
    [None] when the timer is not running, [Some d] when it is set to fire
    at [startTime + d]. [pendingRequests] is a set of pointers; the list
    fixes one of the orders in which [range] may visit it. *)
Record dialWorker := mkWorker {
  peer : PeerID;
  pendingRequests : list pendRequest;
  trackedDials : gmap string addrDial;
  connected : bool;
  dq : dialQueue;
  dialsInFlight : Z;
  totalDials : Z;
  timer : option Z
}.

Definition set_pending (prs : list pendRequest) (w : dialWorker) :=
  mkWorker (peer w) prs (trackedDials w) (connected w) (dq w)
    (dialsInFlight w) (totalDials w) (timer w).
Definition set_tracked (t : gmap string addrDial) (w : dialWorker) :=
  mkWorker (peer w) (pendingRequests w) t (connected w) (dq w)
    (dialsInFlight w) (totalDials w) (timer w).
Definition set_connected (b : bool) (w : dialWorker) :=
  mkWorker (peer w) (pendingRequests w) (trackedDials w) b (dq w)
    (dialsInFlight w) (totalDials w) (timer w).
Definition set_dq (q : dialQueue) (w : dialWorker) :=
  mkWorker (peer w) (pendingRequests w) (trackedDials w) (connected w) q
    (dialsInFlight w) (totalDials w) (timer w).
Definition set_inflight (n : Z) (w : dialWorker) :=
  mkWorker (peer w) (pendingRequests w) (trackedDials w) (connected w) (dq w)
    n (totalDials w) (timer w).
Definition set_total (n : Z) (w : dialWorker) :=
  mkWorker (peer w) (pendingRequests w) (trackedDials w) (connected w) (dq w)
    (dialsInFlight w) n (timer w).
Definition set_timer (t : option Z) (w : dialWorker) :=
  mkWorker (peer w) (pendingRequests w) (trackedDials w) (connected w) (dq w)
    (dialsInFlight w) (totalDials w) t.

Definition set_ad_ctx (ctx : Context) (ad : addrDial) :=
  mkAddrDial (ad_addr ad) ctx (ad_conn ad) (ad_err ad) (ad_dialed ad)
    (ad_createdAt ad) (ad_dialRankingDelay ad) (ad_startTime ad).
Definition set_ad_conn (c : option Conn) (ad : addrDial) :=
  mkAddrDial (ad_addr ad) (ad_ctx ad) c (ad_err ad) (ad_dialed ad)
    (ad_createdAt ad) (ad_dialRankingDelay ad) (ad_startTime ad).
Definition set_ad_err (e : option error) (ad : addrDial) :=
  mkAddrDial (ad_addr ad) (ad_ctx ad) (ad_conn ad) e (ad_dialed ad)
    (ad_createdAt ad) (ad_dialRankingDelay ad) (ad_startTime ad).
Definition set_ad_startTime (t : Z) (ad : addrDial) :=
  mkAddrDial (ad_addr ad) (ad_ctx ad) (ad_conn ad) (ad_err ad) (ad_dialed ad)
    (ad_createdAt ad) (ad_dialRankingDelay ad) t.
(** [ad.dialed = true; ad.dialRankingDelay = now.Sub(ad.createdAt)] *)
Definition mark_dialed (now : Z) (ad : addrDial) :=
  mkAddrDial (ad_addr ad) (ad_ctx ad) (ad_conn ad) (ad_err ad) true
    (ad_createdAt ad) (now - ad_createdAt ad) (ad_startTime ad).

Definition MaxInt64 : Z := 9223372036854775807.

(** [newDialWorker], together with the prologue of [loop]. *)
Definition newDialWorker (p : PeerID) : dialWorker :=
  {| peer := p; pendingRequests := []; trackedDials := ∅;
     connected := false; dq := newDialQueue;
     dialsInFlight := 0; totalDials := 0; timer := Some MaxInt64 |}.

(** The closure [scheduleNextDial] of [loop]. *)
Definition scheduleNextDial (w : dialWorker) : dialWorker :=
  match top (dq w) with
  | None => set_timer None w
  | Some t =>
      if bool_decide (dialsInFlight w = 0)%Z && negb (connected w)
      then set_timer (Some 0%Z) w
      else set_timer (Some (Delay t)) w
  end.

Definition rankAddrs (s : Swarm) (addrs : list Multiaddr) (isSimConnect : bool)
  : list AddrDelay :=
  if isSimConnect then NoDelayDialRanker addrs else dialRanker s addrs.

(** ** dispatchError

    An [*addrDial] is always the entry of [trackedDials] found under
    [string(ad.addr.Bytes())] (lemma [loop_filed] below); it is passed as
    that key [k], and a write through the pointer is an [alter] of the
    entry. *)

(** The body of the loop over [pendingRequests], for one [pr]: what is
    left of it in the set, and what is sent. *)
Definition dispatch_one (s : Swarm) (k : Multiaddr) (err : option error)
    (pr : pendRequest) : option pendRequest * list output :=
  if bool_decide (k ∈ pr_addrs pr) then
    let pr1 := {| pr_req := pr_req pr;
                  pr_err := recordErr (pr_err pr) k err;
                  pr_addrs := pr_addrs pr ∖ {[k]} |} in
    if bool_decide (size (pr_addrs pr1) = 0) then
      match (bestAcceptableConnToPeer s (req_ctx (pr_req pr1))).1 with
      | Some c => (None, [(resch (pr_req pr1), mkResponse (Some c) None)])
      | None =>
          (None,
           [(resch (pr_req pr1),
             mkResponse None
               (Some (DialFailure (with_Cause (pr_err pr1) ErrAllDialsFailed))))])
      end
    else (Some pr1, [])
  else (Some pr, []).

Fixpoint dispatch_pending (s : Swarm) (k : Multiaddr) (err : option error)
    (prs : list pendRequest) : list pendRequest * list output :=
  match prs with
  | [] => ([], [])
  | pr :: rest =>
      let '(kept, out) := dispatch_one s k err pr in
      let '(rest', out') := dispatch_pending s k err rest in
      (from_option (λ pr', pr' :: rest') rest' kept, out ++ out')
  end.

Definition dispatchError (s : Swarm) (k : Multiaddr) (err : option error)
    (w : dialWorker) : dialWorker * list output :=
  let tracked := alter (set_ad_err err) k (trackedDials w) in
  let '(prs, out) := dispatch_pending s k err (pendingRequests w) in
  let tracked' :=
    if bool_decide (err = Some ErrDialBackoff) then delete k tracked
    else tracked in
  (set_tracked tracked' (set_pending prs w), out).

(** ** handleSuccess and handleError *)

(** The loop of [handleSuccess] over [pendingRequests]. *)
Fixpoint deliver_conn (k : Multiaddr) (conn : option Conn)
    (prs : list pendRequest) : list pendRequest * list output :=
  match prs with
  | [] => ([], [])
  | pr :: rest =>
      let '(rest', out') := deliver_conn k conn rest in
      if bool_decide (k ∈ pr_addrs pr)
      then (rest', (resch (pr_req pr), mkResponse conn None) :: out')
      else (pr :: rest', out')
  end.

Definition handleSuccess (s : Swarm) (k : Multiaddr) (rc : RawConn)
    (w : dialWorker) : dialWorker * list output :=
  if bool_decide (rc_RemotePeer rc ≠ peer w) then
    dispatchError s k (Some ErrTransportBug) w
  else
    match addConn s rc with
    | (_, Some err) => dispatchError s k (Some err) w
    | (conn, None) =>
        let tracked := alter (set_ad_conn conn) k (trackedDials w) in
        let '(prs, out) := deliver_conn k conn (pendingRequests w) in
        (set_connected true (set_pending prs (set_tracked tracked w)), out)
    end.

Definition handleError (s : Swarm) (k : Multiaddr) (res : dialResult)
    (w : dialWorker) : dialWorker * list output :=
  dispatchError s k (res_Err res) w.

(** ** addNewRequest *)

(** The body of the second loop of [addNewRequest], for one ranked
    address, on the tracked dials, the queue and the new [pr]. *)
Definition track_one (req : dialRequest) (now : Z)
    (st : gmap string addrDial * dialQueue * pendRequest)
    (adelay : AddrDelay) : gmap string addrDial * dialQueue * pendRequest :=
  let '(tracked, q, pr) := st in
  match tracked !! Addr adelay with
  | None =>
      (<[Addr adelay :=
           {| ad_addr := Addr adelay; ad_ctx := req_ctx req;
              ad_conn := None; ad_err := None; ad_dialed := false;
              ad_createdAt := now; ad_dialRankingDelay := 0;
              ad_startTime := 0 |}]> tracked,
       Add (mkAddrDelay (Addr adelay) (Delay adelay)) q,
       pr)
  | Some ad =>
      match ad_err ad with
      | Some e =>
          (tracked, q,
           {| pr_req := pr_req pr;
              pr_err := recordErr (pr_err pr) (ad_addr ad) (Some e);
              pr_addrs := pr_addrs pr ∖ {[ad_addr ad]} |})
      | None =>
          if negb (ad_dialed ad) then
            let '(isSimConnect, isClient, reason) :=
              GetSimultaneousConnect (req_ctx req) in
            if isSimConnect then
              let '(wasSimConnect, _, _) := GetSimultaneousConnect (ad_ctx ad) in
              if negb wasSimConnect then
                (<[Addr adelay :=
                     set_ad_ctx
                       (WithSimultaneousConnect (ad_ctx ad) isClient reason)
                       ad]> tracked,
                 Add (mkAddrDelay (ad_addr ad) (Delay adelay)) q,
                 pr)
              else st
            else st
          else st
      end
  end.

Definition addNewRequest (s : Swarm) (now : Z) (req : dialRequest)
    (addrs : list Multiaddr) (addrErrs : list TransportError)
    (w : dialWorker) : dialWorker * list output :=
  let simConnect := (GetSimultaneousConnect (req_ctx req)).1.1 in
  let addrRanking := rankAddrs s addrs simConnect in
  let pr0 := {| pr_req := req;
                pr_err := {| de_Peer := peer w; DialErrors := addrErrs;
                             Cause := None |};
                pr_addrs := list_to_set (Addr <$> addrRanking) |} in
  let '(tracked, q, pr) :=
    foldl (track_one req now) (trackedDials w, dq w, pr0) addrRanking in
  let w1 := set_dq q (set_tracked tracked w) in
  if bool_decide (size (pr_addrs pr) = 0) then
    (w1, [(resch req,
           mkResponse None
             (Some (DialFailure (with_Cause (pr_err pr) ErrAllDialsFailed))))])
  else (set_pending (pendingRequests w1 ++ [pr]) w1, []).

(** ** The three arms of the select in [loop] *)

(** The first tracked address of [addrs] whose dial already holds a
    connection. *)
Fixpoint tracked_conn (tracked : gmap string addrDial) (addrs : list Multiaddr)
  : option Conn :=
  match addrs with
  | [] => None
  | addr :: rest =>
      match tracked !! addr with
      | Some ad =>
          match ad_conn ad with
          | Some c => Some c
          | None => tracked_conn tracked rest
          end
      | None => tracked_conn tracked rest
      end
  end.

Definition on_request (s : Swarm) (now : Z) (req : dialRequest)
    (w : dialWorker) : dialWorker * list output :=
  let '(c, err) := bestAcceptableConnToPeer s (req_ctx req) in
  if bool_decide (is_Some c) || bool_decide (is_Some err) then
    (w, [(resch req, mkResponse c (PlainError <$> err))])
  else
    match addrsForDial s (req_ctx req) with
    | (addrs, addrErrs, Some err) =>
        (w, [(resch req,
              mkResponse None
                (Some (DialFailure (mkDialError (peer w) addrErrs (Some err)))))])
    | (addrs, addrErrs, None) =>
        match tracked_conn (trackedDials w) addrs with
        | Some c => (w, [(resch req, mkResponse (Some c) None)])
        | None =>
            let '(w1, out) := addNewRequest s now req addrs addrErrs w in
            (scheduleNextDial w1, out)
        end
    end.

(** The body of the loop over the batch in the timer arm. *)
Definition dial_one (s : Swarm) (now : Z)
    (st : dialWorker * list output) (adelay : AddrDelay)
  : dialWorker * list output :=
  let '(w, out) := st in
  match trackedDials w !! Addr adelay with
  | None => st
  | Some ad =>
      let ad1 := mark_dialed now ad in
      let w1 := set_tracked (<[Addr adelay := ad1]> (trackedDials w)) w in
      match dialNextAddr s (ad_ctx ad1) (ad_addr ad1) with
      | Some err =>
          let '(w2, out') := dispatchError s (Addr adelay) (Some err) w1 in
          (w2, out ++ out')
      | None =>
          (set_total (totalDials w1 + 1)
             (set_inflight (dialsInFlight w1 + 1) w1), out)
      end
  end.

Definition on_timer (s : Swarm) (now : Z) (w : dialWorker)
  : dialWorker * list output :=
  let '(batch, rest) := NextBatch (dq w) in
  let '(w1, out) := foldl (dial_one s now) (set_dq rest w, []) batch in
  (scheduleNextDial (set_timer None w1), out).

Definition on_result (s : Swarm) (now : Z) (res : dialResult)
    (w : dialWorker) : dialWorker * list output :=
  match trackedDials w !! res_Addr res with
  | None => (set_inflight (dialsInFlight w - 1) w, [])
  | Some ad =>
      match res_Kind res with
      | DialStarted =>
          (scheduleNextDial
             (set_tracked
                (<[res_Addr res := set_ad_startTime now ad]> (trackedDials w))
                w),
           [])
      | DialFinished =>
          let w1 := set_inflight (dialsInFlight w - 1) w in
          let '(w2, out) :=
            match res_Conn res with
            | Some rc => handleSuccess s (res_Addr res) rc w1
            | None => handleError s (res_Addr res) res w1
            end in
          (scheduleNextDial w2, out)
      end
  end.

(** ** The loop

    One event is one round of the select: a request read from [reqch], the
    dial timer firing, a result read from [w.resch], or [reqch] found
    closed. Each carries what the swarm and the clock answer during that
    round. *)
Inductive event :=
| EvRequest (s : Swarm) (now : Z) (req : dialRequest)
| EvTimer (s : Swarm) (now : Z)
| EvResult (s : Swarm) (now : Z) (res : dialResult)
| EvClose.

Definition step (w : dialWorker) (ev : event) : dialWorker * list output :=
  match ev with
  | EvRequest s now req => on_request s now req w
  | EvTimer s now => on_timer s now w
  | EvResult s now res => on_result s now res w
  | EvClose => (w, [])
  end.

(** [cleanup] reads dial results until no dial is in flight; nothing is
    sent to any request. *)
Fixpoint cleanup (w : dialWorker) (evs : list event) : dialWorker :=
  if bool_decide (dialsInFlight w > 0)%Z then
    match evs with
    | [] => w
    | EvResult _ _ _ :: rest =>
        cleanup (set_inflight (dialsInFlight w - 1) w) rest
    | _ :: rest => cleanup w rest
    end
  else w.

Fixpoint loop (w : dialWorker) (evs : list event) : dialWorker * list output :=
  match evs with
  | [] => (w, [])
  | EvClose :: rest => (cleanup w rest, [])
  | ev :: rest =>
      let '(w1, out) := step w ev in
      let '(w2, out') := loop w1 rest in
      (w2, out ++ out')
  end.

(** ** Counting requests and responses *)

(** Requests read from [reqch] on whose [resch] is [ch], up to the close. *)
Fixpoint received_on (ch : nat) (evs : list event) : nat :=
  match evs with
  | [] => 0
  | EvClose :: _ => 0
  | EvRequest _ _ req :: rest =>
      (if bool_decide (resch req = ch) then 1 else 0) + received_on ch rest
  | _ :: rest => received_on ch rest
  end.



End DialWorker.

(** ** What the specification says of the worker, as predicates *)

Module DialWorkerSpec.
Import Net DialQueue DialWorker.

Definition is_sim (ctx : Context) : bool := (GetSimultaneousConnect ctx).1.1.

(** The fate of one pending request when an error is dispatched for the
    address [k], in the specification's words: untouched if it does not
    wait on [k]; otherwise the error is appended and [k] removed, and the
    request is completed exactly when no address is left, with the
    connection of a last probe if there is one and else with the
    accumulated error tagged all-dials-failed. [kept] is what stays in the
    pending set, [sent] what is written to the request's channel. *)
Inductive spec_dispatch (s : Swarm) (k : Multiaddr) (err : option error)
    (pr : pendRequest) : option pendRequest → list output → Prop :=
| sd_untouched :
    k ∉ pr_addrs pr →
    spec_dispatch s k err pr (Some pr) []
| sd_narrowed :
    k ∈ pr_addrs pr → pr_addrs pr ∖ {[k]} ≠ ∅ →
    spec_dispatch s k err pr
      (Some (mkPend (pr_req pr)
               (mkDialError (de_Peer (pr_err pr))
                  (DialErrors (pr_err pr) ++ [mkTransportError k err])
                  (Cause (pr_err pr)))
               (pr_addrs pr ∖ {[k]})))
      []
| sd_connected c :
    k ∈ pr_addrs pr → pr_addrs pr ∖ {[k]} = ∅ →
    (bestAcceptableConnToPeer s (req_ctx (pr_req pr))).1 = Some c →
    spec_dispatch s k err pr None
      [(resch (pr_req pr), mkResponse (Some c) None)]
| sd_failed :
    k ∈ pr_addrs pr → pr_addrs pr ∖ {[k]} = ∅ →
    (bestAcceptableConnToPeer s (req_ctx (pr_req pr))).1 = None →
    spec_dispatch s k err pr None
      [(resch (pr_req pr),
        mkResponse None
          (Some (DialFailure
             (mkDialError (de_Peer (pr_err pr))
                (DialErrors (pr_err pr) ++ [mkTransportError k err])
                (Some ErrAllDialsFailed)))))].

(** The round [ev], taken in state [w], calls [dispatchError] with the
    backoff sentinel on the dial tracked under [k]: from the timer arm
    when [dialNextAddr] refuses the address, or from the result arm when
    the finished dial, or [addConn] after it, reports the sentinel. *)
Definition backoff_dispatched (k : Multiaddr) (w : dialWorker) (ev : event)
  : Prop :=
  match ev with
  | EvTimer s now =>
      ∃ adelay ad,
        adelay ∈ (NextBatch (dq w)).1 ∧ Addr adelay = k ∧
        trackedDials w !! k = Some ad ∧
        dialNextAddr s (ad_ctx ad) (ad_addr ad) = Some ErrDialBackoff
  | EvResult s now res =>
      res_Addr res = k ∧ res_Kind res = DialFinished ∧
      match res_Conn res with
      | Some rc =>
          rc_RemotePeer rc = peer w ∧ (addConn s rc).2 = Some ErrDialBackoff
      | None => res_Err res = Some ErrDialBackoff
      end
  | _ => False
  end.

(** No round of [evs], run from [w] up to the close, dispatches the backoff
    sentinel on [k]. *)
Fixpoint never_backoff (k : Multiaddr) (w : dialWorker) (evs : list event)
  : Prop :=
  match evs with
  | [] => True
  | EvClose :: _ => True
  | ev :: rest =>
      ¬ backoff_dispatched k w ev ∧ never_backoff k (step w ev).1 rest
  end.

(** The number of rounds of [evs], run from [w], in which the context of
    the dial tracked under [k] goes from not simultaneous-connect to
    simultaneous-connect, counted until that dial is deleted. *)
Fixpoint upgrades (k : Multiaddr) (w : dialWorker) (evs : list event) : nat :=
  match evs with
  | [] => 0
  | ev :: rest =>
      let w' := (step w ev).1 in
      match trackedDials w !! k, trackedDials w' !! k with
      | Some ad, Some ad' =>
          (if negb (is_sim (ad_ctx ad)) && is_sim (ad_ctx ad') then 1 else 0)
          + upgrades k w' rest
      | Some _, None => 0
      | None, _ => upgrades k w' rest
      end
  end.



(** [ad'] is [ad] with the same address and context. *)
Definition same_dial (ad ad' : addrDial) : Prop :=
  ad_addr ad' = ad_addr ad ∧ ad_ctx ad' = ad_ctx ad.

(** [ad'] is [ad] upgraded for the simultaneous-connect request [req]:
    [ad] was neither dialed nor errored and its context was not
    simultaneous-connect; only the context differs, and it now is. *)
Definition upgraded (req : dialRequest) (ad ad' : addrDial) : Prop :=
  is_sim (req_ctx req) = true ∧ is_sim (ad_ctx ad) = false ∧
  ad_dialed ad = false ∧ ad_err ad = None ∧
  is_sim (ad_ctx ad') = true ∧
  ∃ isClient reason,
    ad' = set_ad_ctx (WithSimultaneousConnect (ad_ctx ad) isClient reason) ad.

(** Every tracked dial is filed under its own address: the key of an
    entry is [string(ad.addr.Bytes())]. *)
Definition filed_under_addr (t : gmap string addrDial) : Prop :=
  ∀ k ad, t !! k = Some ad → ad_addr ad = k.

(** The states the worker goes through on [evs]. *)
Fixpoint states (w : dialWorker) (evs : list event) : list dialWorker :=
  match evs with
  | [] => [w]
  | ev :: rest => w :: states (step w ev).1 rest
  end.

End DialWorkerSpec.

(** ** Worked scenarios *)

Module Scenario.
Import Net DialQueue DialWorker DialWorkerSpec.

Definition addrA : Multiaddr := "/ip4/192.0.2.1/tcp/4001".
Definition addrB : Multiaddr := "/ip4/192.0.2.2/tcp/4001".

Definition plain_ctx : Context := mkContext 1 None.
Definition sim_ctx : Context := mkContext 2 (Some (true, "holepunch")).

(** A swarm with no connection to the peer, whose addresses are [addrs],
    ranked 10ms apart, and whose [dialNextAddr] answers [refusal]. *)
Definition swarm_with (addrs : list Multiaddr) (refusal : option error)
  : Swarm :=
  {| bestAcceptableConnToPeer := λ _, (None, None);
     addrsForDial := λ _, (addrs, [], None);
     dialRanker := λ l, (λ a, mkAddrDelay a 10000000) <$> l;
     dialNextAddr := λ _ _, refusal;
     addConn := λ rc, (Some (rc_id rc), None) |}.

Definition dialing : Swarm := swarm_with [addrA] None.
Definition backing_off : Swarm := swarm_with [addrA] (Some ErrDialBackoff).


(** A normal request tracks [addrA] and a simultaneous-connect request
    upgrades it; the timer fires and the dial is refused with the backoff
    sentinel; a normal request then tracks [addrA] afresh, and a
    simultaneous-connect request upgrades it again. *)
Definition retracked_after_backoff : list event :=
  [EvRequest dialing 0 (mkRequest plain_ctx 1);
   EvRequest dialing 1 (mkRequest sim_ctx 2);
   EvTimer backing_off 2;
   EvRequest dialing 3 (mkRequest plain_ctx 3);
   EvRequest dialing 4 (mkRequest sim_ctx 4)].

(** The worker after one normal request: [addrA] is tracked, not yet
    dialed, under the request's context. *)
Definition tracking_addrA : dialWorker :=
  (step (newDialWorker "peer")
     (EvRequest dialing 0 (mkRequest plain_ctx 1))).1.

Definition addrA_dial : addrDial :=
  {| ad_addr := addrA; ad_ctx := plain_ctx; ad_conn := None; ad_err := None;
     ad_dialed := false; ad_createdAt := 0; ad_dialRankingDelay := 0;
     ad_startTime := 0 |}.

(** Whether the dial tracked under [k] carries a simultaneous-connect
    context, in each state of a run. *)
Definition sim_history (k : Multiaddr) (evs : list event) : list (option bool) :=
  (λ w, is_sim ∘ ad_ctx <$> trackedDials w !! k)
    <$> states (newDialWorker "peer") evs.

(** A worker with two pending requests that wait on [addrA]: one on
    [addrA] alone, one on [addrB] as well. *)
Definition two_waiting : dialWorker :=
  set_pending
    [mkPend (mkRequest plain_ctx 1) (mkDialError "peer" [] None) {[addrA]};
     mkPend (mkRequest plain_ctx 2) (mkDialError "peer" [] None)
       {[addrA; addrB]}]
    (newDialWorker "peer").

(** A request tracks [addrA], the timer fires and the dial is started, and
    the dial finishes with an error: the request is answered, and [addrA]
    stays tracked with the error recorded. *)
Definition request_read : list event :=
  [EvRequest dialing 0 (mkRequest plain_ctx 1)].

Definition dial_refused : list event :=
  [EvTimer dialing 1;
   EvResult dialing 2
     (mkResult DialFinished None addrA (Some (ErrOther "refused")))].

Definition refused_run : list event := request_read ++ dial_refused.

Definition after_refused_dial : dialWorker :=
  (loop (newDialWorker "peer") refused_run).1.

End Scenario.

(** ** The UDP mux and its flow table *)

Module UDPMux.

(** A [*net.UDPAddr] as the mux observes it: whether [a.IP.To4()] is
    non-nil, and the text [a.String()] under which the address is filed. *)
Record UDPAddr := mkUDPAddr { udp_is_v4 : bool; udp_string : string }.

(** A [net.Addr] interface value: the nil interface, a non-nil
    [*net.UDPAddr], a value of any other dynamic type (observed through
    [String()]), or a nil [*net.UDPAddr] held in a non-nil interface
    ([AddrUDPNil]): the type assertion to a UDP address succeeds on it and
    yields a nil pointer. *)
Inductive NetAddr :=
| AddrNil
| AddrUDP (a : UDPAddr)
| AddrOther (s : string)
| AddrUDPNil.

(** The text [String()] of package [net] gives for a nil UDP address. *)
Definition nil_udp_string : string := "<nil>".

(** [addr.String()]; calling the method on the nil interface panics
    ([None]); on a nil UDP address pointer the method returns
    [nil_udp_string]. *)
Definition addr_String (addr : NetAddr) : option string :=
  match addr with
  | AddrNil => None
  | AddrUDP a => Some (udp_string a)
  | AddrOther s => Some s
  | AddrUDPNil => Some nil_udp_string
  end.

(** Modelled from the spec: [muxedConnection] and [newMuxedConnection] are
    declared outside the files at hand. A flow is a heap object (identity
    [conn_ptr]) whose close hook calls [RemoveConnByUfrag] with the ufrag
    it was created for, and whose [Address()] is the remote it was
    constructed with. *)
Record muxedConnection := mkConn {
  conn_ptr : nat;
  conn_hook_ufrag : string;
  conn_Address : NetAddr
}.

#[export] Instance UDPAddr_eq_dec : EqDecision UDPAddr.
Proof. solve_decision. Defined.
#[export] Instance NetAddr_eq_dec : EqDecision NetAddr.
Proof. solve_decision. Defined.
#[export] Instance muxedConnection_eq_dec : EqDecision muxedConnection.
Proof. solve_decision. Defined.

(** [ufragConnKey] is the pair [(ufrag, isIPv6)]. *)
Abbreviation ufragConnKey := (string * bool)%type.

(** [udpMuxStorage]: the two maps (the mutex serialises the methods, each
    of which is one atomic step here). [allocated] counts the flows
    constructed so far and supplies the identity of the next one. *)
Record udpMuxStorage := mkStorage {
  ufragMap : gmap ufragConnKey muxedConnection;
  addrMap : gmap string muxedConnection;
  allocated : nat
}.

(** A call either returns, or panics after the writes it already made. *)
Inductive outcome (S A : Type) :=
| Returned (s : S) (v : A)
| Panicked (s : S).
Arguments Returned {S A} s v.
Arguments Panicked {S A} s.

Definition state_of {S A} (o : outcome S A) : S :=
  match o with Returned s _ => s | Panicked s => s end.

Module Storage.

Definition newUDPMuxStorage : udpMuxStorage :=
  {| ufragMap := ∅; addrMap := ∅; allocated := 0 |}.

(** One round of the loop of [RemoveConnByUfrag]. *)
Definition remove_key (ufrag : string) (isIPv6 : bool) (s : udpMuxStorage)
  : outcome udpMuxStorage unit :=
  let key := (ufrag, isIPv6) in
  match ufragMap s !! key with
  | Some conn =>
      let s1 := {| ufragMap := delete key (ufragMap s);
                   addrMap := addrMap s;
                   allocated := allocated s |} in
      match addr_String (conn_Address conn) with
      | Some a =>
          Returned {| ufragMap := ufragMap s1;
                      addrMap := delete a (addrMap s1);
                      allocated := allocated s1 |} tt
      | None => Panicked s1
      end
  | None => Returned s tt
  end.

(** The loop runs over [[...]bool{true, false}]. *)
Definition RemoveConnByUfrag (ufrag : string) (s : udpMuxStorage)
  : outcome udpMuxStorage unit :=
  match remove_key ufrag true s with
  | Returned s1 _ => remove_key ufrag false s1
  | Panicked s1 => Panicked s1
  end.

Definition GetOrCreateConn (ufrag : string) (isIPv6 : bool) (addr : NetAddr)
    (s : udpMuxStorage) : outcome udpMuxStorage (bool * muxedConnection) :=
  let key := (ufrag, isIPv6) in
  match ufragMap s !! key with
  | Some conn => Returned s (false, conn)
  | None =>
      let conn := {| conn_ptr := allocated s;
                     conn_hook_ufrag := ufrag;
                     conn_Address := addr |} in
      let s1 := {| ufragMap := <[key := conn]> (ufragMap s);
                   addrMap := addrMap s;
                   allocated := S (allocated s) |} in
      match addr_String addr with
      | Some a =>
          Returned {| ufragMap := ufragMap s1;
                      addrMap := <[a := conn]> (addrMap s1);
                      allocated := allocated s1 |} (true, conn)
      | None => Panicked s1
      end
  end.

Definition GetConnByAddr (addr : UDPAddr) (s : udpMuxStorage)
  : option muxedConnection * bool :=
  match addrMap s !! udp_string addr with
  | Some conn => (Some conn, true)
  | None => (None, false)
  end.

(** Sequences of the three table operations; a caller that recovers from
    a panic goes on from the state the panic left. *)
Inductive op :=
| OpGetOrCreateConn (ufrag : string) (isIPv6 : bool) (addr : NetAddr)
| OpGetConnByAddr (addr : UDPAddr)
| OpRemoveConnByUfrag (ufrag : string).

Definition apply_op (s : udpMuxStorage) (o : op) : udpMuxStorage :=
  match o with
  | OpGetOrCreateConn ufrag isIPv6 addr =>
      state_of (GetOrCreateConn ufrag isIPv6 addr s)
  | OpGetConnByAddr _ => s
  | OpRemoveConnByUfrag ufrag => state_of (RemoveConnByUfrag ufrag s)
  end.

Definition run (ops : list op) : udpMuxStorage :=
  foldl apply_op newUDPMuxStorage ops.

End Storage.

(** What the table operations maintain: every address binding files a
    flow under its own remote address, and that flow is registered under
    some ufrag key. *)
Definition table_inv (s : udpMuxStorage) : Prop :=
  ∀ a c, addrMap s !! a = Some c →
    addr_String (conn_Address c) = Some a ∧ ∃ k, ufragMap s !! k = Some c.

(** [UDPMux]: the storage and whether [mux.ctx] is done (the mux was
    closed). The socket and the read loop play no part in the operations
    below. *)
Record UDPMux := mkMux { storage : udpMuxStorage; ctx_done : bool }.

Inductive mux_error :=
| ErrUnexpectedAddressType
| ErrClosedPipe.

Definition NewUDPMux : UDPMux :=
  {| storage := Storage.newUDPMuxStorage; ctx_done := false |}.

Definition with_storage (mux : UDPMux) (o : outcome udpMuxStorage unit)
  : outcome UDPMux unit :=
  match o with
  | Returned s v => Returned {| storage := s; ctx_done := ctx_done mux |} v
  | Panicked s => Panicked {| storage := s; ctx_done := ctx_done mux |}
  end.

Definition getOrCreateConn (ufrag : string) (isIPv6 : bool) (addr : NetAddr)
    (mux : UDPMux)
  : outcome UDPMux (option muxedConnection * option mux_error) :=
  if ctx_done mux then Returned mux (None, Some ErrClosedPipe)
  else
    match Storage.GetOrCreateConn ufrag isIPv6 addr (storage mux) with
    | Returned s (_, conn) =>
        Returned {| storage := s; ctx_done := ctx_done mux |} (Some conn, None)
    | Panicked s => Panicked {| storage := s; ctx_done := ctx_done mux |}
    end.

(** The type assertion of an address to a UDP address pointer: [None]
    when it fails, otherwise the pointer it yields, which is nil ([Some
    None]) when the interface holds a nil pointer. *)
Definition as_UDPAddr (addr : NetAddr) : option (option UDPAddr) :=
  match addr with
  | AddrUDP a => Some (Some a)
  | AddrUDPNil => Some None
  | AddrNil | AddrOther _ => None
  end.

(** [GetConn]. When the type assertion succeeds, [a.IP] is read: on a nil
    pointer that panics, before the mux is looked at. *)
Definition GetConn (ufrag : string) (addr : NetAddr) (mux : UDPMux)
  : outcome UDPMux (option muxedConnection * option mux_error) :=
  let a := as_UDPAddr addr in
  let ok := bool_decide (is_Some a) in
  if negb ok && bool_decide (addr ≠ AddrNil) then
    Returned mux (None, Some ErrUnexpectedAddressType)
  else
    (* isIPv6 := ok && a.IP.To4() == nil *)
    match a with
    | Some None => Panicked mux
    | Some (Some a) => getOrCreateConn ufrag (negb (udp_is_v4 a)) addr mux
    | None => getOrCreateConn ufrag false addr mux
    end.

Definition RemoveConnByUfrag (ufrag : string) (mux : UDPMux)
  : outcome UDPMux unit :=
  if bool_decide (ufrag ≠ "") then
    with_storage mux (Storage.RemoveConnByUfrag ufrag (storage mux))
  else Returned mux tt.

(** Addresses used in the worked examples. *)
Definition addr1 : UDPAddr := mkUDPAddr true "192.0.2.1:4001".
Definition addr2 : UDPAddr := mkUDPAddr true "192.0.2.2:4002".

End UDPMux.

(** ** The UDP mux: closing and the packet path *)

Module MuxLoop.
Import UDPMux.

(** [UDPMux.Close]: a second call finds [mux.ctx] done and returns at once;
    the first cancels the context (closing the socket and waiting for the
    read loop leave the table alone). It always returns a nil error. *)
Definition Close (mux : UDPMux) : UDPMux :=
  if ctx_done mux then mux
  else {| storage := storage mux; ctx_done := true |}.

(** A decoded [stun.Message] as [processPacket] observes it: whether its
    type is [stun.BindingRequest], and what [msg.Get(stun.AttrUsername)]
    returns ([None] when the attribute is missing). *)
Record stunMessage := mkStun {
  msg_is_binding_request : bool;
  msg_username : option (list byte)
}.

Inductive ufrag_error :=
| ErrAttributeNotFound
| ErrInvalidUsername.

Definition colon : byte := x3a.

(** [bytes.Index(attr, []byte{':'})]: the index of the first colon, or -1. *)
Fixpoint index_colon (attr : list byte) : Z :=
  match attr with
  | [] => -1
  | b :: rest =>
      if Byte.eqb b colon then 0
      else
        let i := index_colon rest in
        if bool_decide (i = -1)%Z then -1 else i + 1
  end.

Definition ufragFromSTUNMessage (msg : stunMessage) : string + ufrag_error :=
  match msg_username msg with
  | None => inr ErrAttributeNotFound
  | Some attr =>
      let index := index_colon attr in
      if bool_decide (index = -1)%Z then inr ErrInvalidUsername
      else inl (String.string_of_list_byte (drop (Z.to_nat (index + 1)) attr))
  end.

(** A received buffer as [processPacket] observes it: the answer of
    [stun.IsMessage], and the message [Decode] yields ([None] when it
    fails). *)
Record datagram := mkDatagram {
  dg_is_stun : bool;
  dg_decoded : option stunMessage
}.

(** Modelled from the spec: [muxedConnection.Push] is declared outside the
    files at hand; it is non-blocking and may fail. With the callback given
    to [NewUDPMux], these are the calls whose answers [processPacket] reads;
    [true] stands for a nil error. *)
Record collaborators := mkCollaborators {
  Push : muxedConnection → bool;
  unknownUfragCallback : string → UDPAddr → bool
}.

(** Modelled from the spec: [muxedConnection.Close] is declared outside the
    files at hand; it runs the close hook the flow was constructed with,
    which calls [RemoveConnByUfrag] of the storage. *)
Definition conn_Close (conn : muxedConnection) (s : udpMuxStorage)
  : outcome udpMuxStorage unit :=
  Storage.RemoveConnByUfrag (conn_hook_ufrag conn) s.

(** [processPacket]. Beside the result [processed], the flow whose [Push]
    was called is returned ([None] when the packet reached no flow). On a
    nil UDP address pointer the type assertion succeeds and reading
    [udpAddr.IP] panics. *)
Definition processPacket (e : collaborators) (buf : datagram) (addr : NetAddr)
    (s : udpMuxStorage)
  : outcome udpMuxStorage (bool * option muxedConnection) :=
  match as_UDPAddr addr with
  | Some (Some udpAddr) =>
      let isIPv6 := negb (udp_is_v4 udpAddr) in
      match Storage.GetConnByAddr udpAddr s with
      | (Some conn, true) => Returned s (Push e conn, Some conn)
      | _ =>
          if negb (dg_is_stun buf) then Returned s (false, None)
          else
            match dg_decoded buf with
            | None => Returned s (false, None)
            | Some msg =>
                if negb (msg_is_binding_request msg) then Returned s (false, None)
                else
                  match ufragFromSTUNMessage msg with
                  | inr _ => Returned s (false, None)
                  | inl ufrag =>
                      match Storage.GetOrCreateConn ufrag isIPv6
                              (AddrUDP udpAddr) s with
                      | Panicked s1 => Panicked s1
                      | Returned s1 (connCreated, conn) =>
                          if connCreated
                             && negb (unknownUfragCallback e ufrag udpAddr)
                          then
                            match conn_Close conn s1 with
                            | Returned s2 _ => Returned s2 (false, None)
                            | Panicked s2 => Panicked s2
                            end
                          else Returned s1 (Push e conn, Some conn)
                      end
                  end
            end
      end
  | Some None => Panicked s
  | None => Returned s (false, None)
  end.

(** The family [GetConn] derives from an address: [Some true] for IPv6,
    [Some false] for IPv4 and for the nil address, [None] for an address
    from which it derives none: one that is not a UDP address, and the nil
    UDP address pointer, on which it panics. *)
Definition family_of (addr : NetAddr) : option bool :=
  match addr with
  | AddrNil => Some false
  | AddrUDP a => Some (negb (udp_is_v4 a))
  | AddrOther _ => None
  | AddrUDPNil => None
  end.

(** Sequences of the operations of the mux: its three public methods and
    the packets its read loop processes; a caller that recovers from a panic
    goes on from the state the panic left. *)
Inductive mux_op :=
| OpGetConn (ufrag : string) (addr : NetAddr)
| OpRemoveConnByUfrag (ufrag : string)
| OpClose
| OpPacket (e : collaborators) (buf : datagram) (addr : NetAddr).

Definition apply_mux_op (mux : UDPMux) (o : mux_op) : UDPMux :=
  match o with
  | OpGetConn ufrag addr => state_of (GetConn ufrag addr mux)
  | OpRemoveConnByUfrag ufrag => state_of (RemoveConnByUfrag ufrag mux)
  | OpClose => Close mux
  | OpPacket e buf addr =>
      {| storage := state_of (processPacket e buf addr (storage mux));
         ctx_done := ctx_done mux |}
  end.

Definition run_mux (ops : list mux_op) : UDPMux :=
  foldl apply_mux_op NewUDPMux ops.

(** A binding request whose USERNAME attribute is [remote:local]. *)
Definition binding_request (remote local : string) : datagram :=
  {| dg_is_stun := true;
     dg_decoded :=
       Some {| msg_is_binding_request := true;
               msg_username :=
                 Some (String.list_byte_of_string remote ++ colon
                         :: String.list_byte_of_string local) |} |}.

(** Collaborators that accept every new flow and every packet. *)
Definition accepting : collaborators :=
  {| Push := λ _, true; unknownUfragCallback := λ _ _, true |}.

(** Collaborators whose unknown-ufrag callback returns an error for every
    new flow. *)
Definition rejecting : collaborators :=
  {| Push := λ _, true; unknownUfragCallback := λ _ _, false |}.

(** An IPv6 remote, and the table after [GetOrCreateConn] created the IPv6
    flow of ufrag [Afrag] for it. *)
Definition addr6 : UDPAddr := mkUDPAddr false "[2001:db8::1]:4001".

Definition table_with_ipv6_flow : udpMuxStorage :=
  Storage.run [Storage.OpGetOrCreateConn "Afrag" true (AddrUDP addr6)].

End MuxLoop.

(** ** The dial worker: what its states keep *)

Module WorkerInvariants.
Import Net DialQueue DialWorker DialWorkerSpec.

(** The dial under [k] is tracked and has recorded no error. *)
Definition live (t : gmap string addrDial) (k : Multiaddr) : Prop :=
  ∃ ad, t !! k = Some ad ∧ ad_err ad = None.

(** Every pending request waits on at least one address, and only on
    addresses whose dial is tracked without an error. *)
Definition pending_live (w : dialWorker) : Prop :=
  ∀ pr, pr ∈ pendingRequests w →
    pr_addrs pr ≠ ∅ ∧ ∀ k, k ∈ pr_addrs pr → live (trackedDials w) k.

(** No address in the queue has a tracked dial that was already triggered. *)
Definition queued_undialed (t : gmap string addrDial) (q : dialQueue) : Prop :=
  ∀ x ad, x ∈ q → t !! Addr x = Some ad → ad_dialed ad = false.

(** Every dial tracked in [t'] was tracked in [t], with the same [dialed]
    flag. *)
Definition keeps_dialed (t t' : gmap string addrDial) : Prop :=
  ∀ k ad', t' !! k = Some ad' →
    ∃ ad, t !! k = Some ad ∧ ad_dialed ad' = ad_dialed ad.

(** The dial record [addNewRequest] creates for an address it does not
    track yet. *)
Definition fresh_dial (req : dialRequest) (now : Z) (k : Multiaddr) : addrDial :=
  {| ad_addr := k; ad_ctx := req_ctx req; ad_conn := None; ad_err := None;
     ad_dialed := false; ad_createdAt := now; ad_dialRankingDelay := 0;
     ad_startTime := 0 |}.

(** In the state of the second loop of [addNewRequest], the address [k] has
    been entered: it is tracked by a fresh dial, queued, and waited on. *)
Definition entered (req : dialRequest) (now : Z) (k : Multiaddr)
    (st : gmap string addrDial * dialQueue * pendRequest) : Prop :=
  st.1.1 !! k = Some (fresh_dial req now k) ∧
  (∃ d, mkAddrDelay k d ∈ st.1.2) ∧
  k ∈ pr_addrs st.2.


(** The round finds [reqch] closed. *)
Definition is_close (ev : event) : bool :=
  match ev with EvClose => true | _ => false end.





(** The number of dial results among [evs]. *)
Fixpoint count_results (evs : list event) : Z :=
  match evs with
  | [] => 0
  | EvResult _ _ _ :: rest => 1 + count_results rest
  | _ :: rest => count_results rest
  end.

(** The error entry [addNewRequest] records for a ranked address whose dial
    has already failed. *)
Definition recorded_failure (t : gmap string addrDial) (x : AddrDelay)
  : option TransportError :=
  (λ ad, mkTransportError (ad_addr ad) (ad_err ad)) <$> t !! Addr x.

End WorkerInvariants.

Import Net.
Import DialQueue.

Section dial_queue_facts.

Implicit Types (q : dialQueue) (a x : AddrDelay).

Lemma add_place_perm a q : add_place a q ≡ₚ a :: q.
Proof.
  induction q as [|x q IH]; simpl; [done|].
  case_bool_decide; [done|].
  rewrite IH. apply Permutation_swap.
Qed.

Lemma add_place_sorted a q :
  StronglySorted by_delay q → StronglySorted by_delay (add_place a q).
Proof.
  induction 1 as [|x q Hs IH Hx]; simpl.
  - repeat constructor.
  - case_bool_decide as Hgt.
    + constructor; [by constructor|].
      constructor; [unfold by_delay; lia|].
      eapply Forall_impl; [exact Hx|]. unfold by_delay. simpl. lia.
    + constructor; [done|].
      rewrite add_place_perm. constructor; [unfold by_delay; lia | done].
Qed.

Lemma sublist_sorted q1 q2 :
  q1 `sublist_of` q2 → StronglySorted by_delay q2 → StronglySorted by_delay q1.
Proof.
  induction 1 as [|x q1 q2 Hsub IH|x q1 q2 Hsub IH]; intros Hs.
  - constructor.
  - apply StronglySorted_inv in Hs as [Hs Hx]. constructor; [by apply IH|].
    eapply Forall_forall. intros y Hy. eapply Forall_forall in Hx; [exact Hx|].
    by eapply elem_of_sublist.
  - apply StronglySorted_inv in Hs as [Hs _]. by apply IH.
Qed.

Lemma same_entry a x : Addr x = Addr a → Delay x = Delay a → x = a.
Proof. destruct a, x; simpl; congruence. Qed.

(** With one entry per address, the first loop of [Add] either stops on the
    identical entry or cuts out exactly the entries of that address. *)
Lemma add_scan_nodup a q :
  NoDup (addrs_of q) →
  add_scan a q =
    if bool_decide (a ∈ q) then None
    else Some (filter (λ x, Addr x ≠ Addr a) q).
Proof.
  induction q as [|x q IH]; cbn [add_scan]; intros Hnd.
  - rewrite bool_decide_eq_false_2; [done|apply not_elem_of_nil].
  - unfold addrs_of in *. rewrite fmap_cons in Hnd.
    apply NoDup_cons in Hnd as [Hx Hnd]. rewrite filter_cons.
    destruct (decide (Addr x = Addr a)) as [Ha|Ha].
    + rewrite (bool_decide_eq_true_2 _ Ha), decide_False by tauto.
      assert (Hq : ∀ y, y ∈ q → Addr y ≠ Addr a).
      { intros y Hy Hya. apply Hx. rewrite Ha, <- Hya.
        by apply list_elem_of_fmap_2. }
      destruct (decide (Delay x = Delay a)) as [Hd|Hd].
      * rewrite (bool_decide_eq_true_2 _ Hd), bool_decide_eq_true_2; [done|].
        rewrite (same_entry a x Ha Hd). apply elem_of_cons; by left.
      * rewrite (bool_decide_eq_false_2 _ Hd), bool_decide_eq_false_2.
        2:{ intros [->|Hin]%elem_of_cons; [done|]. by apply (Hq a). }
        f_equal. symmetry. clear IH Hx Hnd.
        induction q as [|y q IHq]; [done|].
        rewrite filter_cons, decide_True by (apply Hq; apply elem_of_cons; by left).
        f_equal. apply IHq. intros z Hz. apply Hq. apply elem_of_cons. by right.
    + rewrite (bool_decide_eq_false_2 _ Ha), decide_True by done.
      rewrite IH by done.
      destruct (decide (a ∈ q)) as [Hin|Hin].
      * rewrite !bool_decide_eq_true_2; [done| |done].
        apply elem_of_cons. by right.
      * rewrite !bool_decide_eq_false_2; [done| |done].
        intros [->|?]%elem_of_cons; done.
Qed.

Lemma filter_addr_absent a q :
  Addr a ∉ addrs_of (filter (λ x, Addr x ≠ Addr a) q).
Proof.
  intros (y & Hy & Hin)%list_elem_of_fmap.
  apply list_elem_of_filter in Hin as [Hne _]. by apply Hne.
Qed.

Lemma dq_inv_sublist q1 q2 : q1 `sublist_of` q2 → dq_inv q2 → dq_inv q1.
Proof.
  intros Hsub [Hnd Hs]. split.
  - eapply sublist_NoDup; [exact Hnd|]. by apply fmap_sublist.
  - by eapply sublist_sorted.
Qed.

Lemma Add_inv a q : dq_inv q → dq_inv (Add a q).
Proof.
  intros Hq. unfold Add. rewrite add_scan_nodup by apply Hq.
  case_bool_decide; [done|].
  pose proof (dq_inv_sublist _ _ (sublist_filter (λ x, Addr x ≠ Addr a) q) Hq)
    as [Hnd Hs].
  split; [|by apply add_place_sorted].
  unfold addrs_of. rewrite add_place_perm, fmap_cons.
  apply NoDup_cons. split; [apply filter_addr_absent|done].
Qed.

Lemma NextBatch_rest_sublist q : (NextBatch q).2 `sublist_of` q.
Proof. destruct q as [|x q]; [done|]. apply sublist_drop. Qed.

Lemma run_snoc ops o : run (ops ++ [o]) = apply_op (run ops) o.
Proof. unfold run. by rewrite foldl_snoc. Qed.

Lemma run_inv ops : dq_inv (run ops).
Proof.
  induction ops as [|o ops IH] using rev_ind.
  - split; constructor.
  - rewrite run_snoc. destruct o as [a|]; simpl.
    + by apply Add_inv.
    + eapply dq_inv_sublist; [apply NextBatch_rest_sublist|done].
Qed.

Lemma addr_unique q x y :
  NoDup (addrs_of q) → x ∈ q → y ∈ q → Addr x = Addr y → x = y.
Proof.
  unfold addrs_of. induction q as [|z q IH]; [by intros _ ?%not_elem_of_nil|].
  rewrite fmap_cons. intros [Hz Hnd]%NoDup_cons Hx Hy Hxy.
  apply elem_of_cons in Hx as [->|Hx]; apply elem_of_cons in Hy as [->|Hy].
  - done.
  - exfalso. apply Hz. rewrite Hxy. by apply list_elem_of_fmap_2.
  - exfalso. apply Hz. rewrite <- Hxy. by apply list_elem_of_fmap_2.
  - by apply IH.
Qed.

Lemma Add_elem_of a q x :
  NoDup (addrs_of q) →
  x ∈ Add a q ↔ x = a ∨ (x ∈ q ∧ Addr x ≠ Addr a).
Proof.
  intros Hnd. unfold Add. rewrite add_scan_nodup by done.
  case_bool_decide as Hin.
  - split; [|intros [->|[? _]]; done].
    intros Hx. destruct (decide (x = a)) as [|Hne]; [by left|right].
    split; [done|]. intros Hxa. apply Hne. by eapply addr_unique.
  - rewrite add_place_perm, elem_of_cons, list_elem_of_filter. tauto.
Qed.

Lemma batch_elem_of d0 q x :
  StronglySorted by_delay q → (∀ y, y ∈ q → (d0 ≤ Delay y)%Z) →
  x ∈ take (batch_end d0 q) q ↔ x ∈ q ∧ Delay x = d0.
Proof.
  induction 1 as [|y q Hs IH Hy]; intros Hlow; cbn [batch_end].
  - rewrite take_nil. split; [by intros ?%not_elem_of_nil|].
    by intros [?%not_elem_of_nil _].
  - assert (Hlow' : ∀ z, z ∈ q → (d0 ≤ Delay z)%Z).
    { intros z Hz. apply Hlow, elem_of_cons. by right. }
    rewrite Forall_forall in Hy. unfold by_delay in Hy.
    case_bool_decide as Hd.
    + cbn [take]. split; [by intros ?%not_elem_of_nil|].
      intros [[->|Hx]%elem_of_cons Hxd]; [done|].
      specialize (Hy x Hx). specialize (Hlow y). rewrite elem_of_cons in Hlow.
      assert (d0 ≤ Delay y)%Z by (apply Hlow; by left). lia.
    + cbn [take].
      rewrite !elem_of_cons, (IH Hlow'). intuition (subst; eauto).
Qed.

Lemma filter_none (P : AddrDelay → Prop) `{!∀ x, Decision (P x)} q :
  (∀ x, x ∈ q → ¬ P x) → filter P q = [].
Proof.
  induction q as [|x q IH]; [done|]. intros Hq.
  rewrite filter_cons_False by (apply Hq, elem_of_cons; by left).
  apply IH. intros y Hy. apply Hq, elem_of_cons. by right.
Qed.

Lemma filter_all (P : AddrDelay → Prop) `{!∀ x, Decision (P x)} q :
  (∀ x, x ∈ q → P x) → filter P q = q.
Proof.
  induction q as [|x q IH]; [done|]. intros Hq.
  rewrite filter_cons_True by (apply Hq, elem_of_cons; by left).
  f_equal. apply IH. intros y Hy. apply Hq, elem_of_cons. by right.
Qed.

Lemma add_place_split a q :
  StronglySorted by_delay q →
  add_place a q
  = filter (λ x, (Delay x ≤ Delay a)%Z) q
    ++ a :: filter (λ x, (Delay a < Delay x)%Z) q.
Proof.
  induction 1 as [|x q Hs IH Hx]; [done|]. cbn [add_place].
  rewrite Forall_forall in Hx. unfold by_delay in Hx.
  case_bool_decide as Hgt.
  - rewrite (filter_none _ (x :: q)).
    2:{ intros y [->|Hy]%elem_of_cons; [lia|]. specialize (Hx y Hy). lia. }
    rewrite (filter_all _ (x :: q)); [done|].
    intros y [->|Hy]%elem_of_cons; [lia|]. specialize (Hx y Hy). lia.
  - rewrite !filter_cons, decide_True, decide_False by lia.
    simpl. by rewrite IH.
Qed.

Lemma batch_end_run d0 q :
  (∀ x, x ∈ take (batch_end d0 q) q → Delay x = d0) ∧
  (∀ y, head (drop (batch_end d0 q) q) = Some y → Delay y ≠ d0).
Proof.
  induction q as [|x q [IHin IHout]]; cbn [batch_end].
  - split; [by intros x ?%not_elem_of_nil|done].
  - destruct (decide (Delay x = d0)) as [Hd|Hd].
    + rewrite bool_decide_eq_false_2 by tauto. cbn [take drop]. split; [|done].
      intros y [->|Hy]%elem_of_cons; [done|by apply IHin].
    + rewrite (bool_decide_eq_true_2 _ Hd). cbn [take drop]. split.
      * by intros y ?%not_elem_of_nil.
      * by intros y [= <-].
Qed.

Lemma filter_other_addr_length a q :
  NoDup (addrs_of q) →
  length (filter (λ x, Addr x ≠ Addr a) q)
  + (if bool_decide (Addr a ∈ addrs_of q) then 1 else 0)
  = length q.
Proof.
  unfold addrs_of. induction q as [|x q IH]; [done|].
  rewrite fmap_cons, filter_cons. intros [Hx Hnd]%NoDup_cons.
  specialize (IH Hnd). destruct (decide (Addr x ≠ Addr a)) as [Hne|Heq].
  - assert (bool_decide (Addr a ∈ Addr x :: (Addr <$> q))
            = bool_decide (Addr a ∈ Addr <$> q)) as ->.
    { apply bool_decide_ext. rewrite elem_of_cons.
      split; [intros [?|?]; [congruence|done]|by right]. }
    simpl. lia.
  - apply dec_stable in Heq. rewrite <- Heq in IH |- *.
    rewrite (bool_decide_eq_false_2 _ Hx) in IH.
    rewrite bool_decide_eq_true_2 by (apply elem_of_cons; by left).
    simpl. lia.
Qed.

Lemma filter_agree (P Q : AddrDelay → Prop)
    `{!∀ x, Decision (P x)} `{!∀ x, Decision (Q x)} q :
  (∀ x, x ∈ q → P x ↔ Q x) → filter P q = filter Q q.
Proof.
  induction q as [|x q IH]; [done|]. intros Hq.
  assert (P x ↔ Q x) as Hx by (apply Hq, elem_of_cons; by left).
  rewrite !filter_cons, IH.
  2:{ intros y Hy. apply Hq, elem_of_cons. by right. }
  destruct (decide (P x)), (decide (Q x)); tauto.
Qed.

(** On a queue that upholds the invariant, [Add] of an entry that is not
    there cuts out the entry of that address and places the new one behind
    the entries whose delay is not larger. *)
Lemma Add_new a q :
  dq_inv q → a ∉ q →
  Add a q
  = filter (λ x, (Delay x ≤ Delay a)%Z) (filter (λ x, Addr x ≠ Addr a) q)
    ++ a :: filter (λ x, (Delay a < Delay x)%Z)
              (filter (λ x, Addr x ≠ Addr a) q).
Proof.
  intros [Hnd Hs] Hnin. unfold Add. rewrite add_scan_nodup by done.
  rewrite bool_decide_eq_false_2 by done.
  apply add_place_split. eapply sublist_sorted; [|exact Hs].
  apply sublist_filter.
Qed.

(** The two parts of [NextBatch] on a queue that upholds the invariant: the
    batch holds the entries of least delay, the rest the others. *)
Lemma NextBatch_elem_of q x :
  dq_inv q →
  (x ∈ (NextBatch q).1 ↔ x ∈ q ∧ ∀ y, y ∈ q → (Delay x ≤ Delay y)%Z) ∧
  (x ∈ (NextBatch q).2 ↔ x ∈ q ∧ ∃ y, y ∈ q ∧ (Delay y < Delay x)%Z).
Proof.
  intros [Hnd Hs]. destruct q as [|x0 q0] eqn:Hq.
  { simpl. split; (split; [by intros ?%not_elem_of_nil|]).
    - by intros [?%not_elem_of_nil _].
    - by intros [?%not_elem_of_nil _]. }
  rewrite <- Hq in *. unfold NextBatch. rewrite Hq. cbn [fst snd].
  rewrite <- Hq.
  assert (Hx0 : x0 ∈ q) by (rewrite Hq; apply elem_of_cons; by left).
  assert (Hlow : ∀ y, y ∈ q → (Delay x0 ≤ Delay y)%Z).
  { intros y. rewrite Hq at 1. intros [->|Hy]%elem_of_cons; [lia|].
    rewrite Hq in Hs. apply StronglySorted_inv in Hs as [_ Hall].
    rewrite Forall_forall in Hall. by apply Hall. }
  pose proof (batch_elem_of (Delay x0) q x Hs Hlow) as Hbatch.
  assert (Hsplit : x ∈ q ↔ x ∈ take (batch_end (Delay x0) q) q
                           ∨ x ∈ drop (batch_end (Delay x0) q) q).
  { by rewrite <- elem_of_app, take_drop. }
  assert (Hdisj : x ∈ take (batch_end (Delay x0) q) q →
                  x ∈ drop (batch_end (Delay x0) q) q → False).
  { apply NoDup_fmap_1 in Hnd.
    rewrite <- (take_drop (batch_end (Delay x0) q) q) in Hnd.
    apply NoDup_app in Hnd as (_ & Hd & _). exact (Hd x). }
  split.
  - rewrite Hbatch. split.
    + intros [Hx Hd]. split; [done|]. intros y Hy. rewrite Hd. by apply Hlow.
    + intros [Hx Hmin]. split; [done|].
      specialize (Hmin x0 Hx0). specialize (Hlow x Hx). lia.
  - split.
    + intros Hx. assert (x ∈ q) as Hxq by tauto. split; [done|].
      exists x0. split; [done|].
      assert (Delay x ≠ Delay x0) by tauto.
      specialize (Hlow x Hxq). lia.
    + intros (Hx & y & Hy & Hlt). specialize (Hlow y Hy).
      assert (Delay x ≠ Delay x0) by lia. tauto.
Qed.

End dial_queue_facts.

(** C7. After any sequence of [Add] and [NextBatch] the queue holds at most
    one entry per address, in non-decreasing order of delay. On every queue
    of that kind: [Add] of an entry that is already there (same address,
    same delay) leaves the queue as it is; [Add] of any other entry yields
    the queue without the entry of that address, with the new entry placed
    behind the entries whose delay is not larger and in front of those whose
    delay is larger, the others keeping their order; when the address was
    queued under another delay, what is cut out is exactly that old entry
    and the length stays the same; and the result again has one entry per
    address in non-decreasing order of delay. *)
Theorem dial_queue_one_entry_per_address :
  (∀ ops : list op,
     NoDup (addrs_of (run ops)) ∧ StronglySorted by_delay (run ops)) ∧
  (∀ (q : dialQueue) (a : AddrDelay),
     dq_inv q →
     (a ∈ q → Add a q = q) ∧
     (a ∉ q →
      Add a q
      = filter (λ x, (Delay x ≤ Delay a)%Z)
          (filter (λ x, Addr x ≠ Addr a) q)
        ++ a :: filter (λ x, (Delay a < Delay x)%Z)
                  (filter (λ x, Addr x ≠ Addr a) q)) ∧
     (∀ old : AddrDelay,
        old ∈ q → Addr old = Addr a → Delay old ≠ Delay a →
        (a ∉ q) ∧
        filter (λ x, Addr x ≠ Addr a) q = filter (λ x, x ≠ old) q ∧
        (old ∉ Add a q) ∧
        length (Add a q) = length q) ∧
     (Addr a ∉ addrs_of q →
      filter (λ x, Addr x ≠ Addr a) q = q ∧
      length (Add a q) = S (length q)) ∧
     (∀ x, x ∈ Add a q ↔ x = a ∨ (x ∈ q ∧ Addr x ≠ Addr a)) ∧
     NoDup (addrs_of (Add a q)) ∧
     StronglySorted by_delay (Add a q)).
Proof.
  split; [apply run_inv|].
  intros q a Hq. pose proof Hq as [Hnd Hs].
  destruct (Add_inv a q Hq) as [Hnd' Hs'].
  assert (Hlen : a ∉ q →
                 length (Add a q)
                 = S (length (filter (λ x, Addr x ≠ Addr a) q))).
  { intros Hnin. unfold Add. rewrite add_scan_nodup by done.
    rewrite bool_decide_eq_false_2 by done. by rewrite add_place_perm. }
  split_and!; [| |intros old Hold Ha Hd| |intros x|done|done].
  - intros Hin. unfold Add. rewrite add_scan_nodup by done.
    by rewrite bool_decide_eq_true_2.
  - by apply Add_new.
  - assert (Hnin : a ∉ q).
    { intros Hin. apply Hd. f_equal. by apply (addr_unique q). }
    assert (Hcut : filter (λ x, Addr x ≠ Addr a) q
                   = filter (λ x, x ≠ old) q).
    { apply filter_agree. intros x Hx. split.
      - intros Hne ->. done.
      - intros Hne Hxa. apply Hne.
        apply (addr_unique q); [done|done|done|congruence]. }
    split_and!; [done|done| |].
    + rewrite Add_elem_of by done. intros [->|[_ Hne]]; [done|].
      by apply Hne.
    + rewrite Hlen by done.
      pose proof (filter_other_addr_length a q Hnd) as Hcount.
      rewrite bool_decide_eq_true_2 in Hcount.
      2:{ rewrite <- Ha. by apply list_elem_of_fmap_2. }
      lia.
  - intros Hfresh.
    assert (Hall : filter (λ x, Addr x ≠ Addr a) q = q).
    { apply filter_all. intros x Hx Hxa. apply Hfresh. rewrite <- Hxa.
      by apply list_elem_of_fmap_2. }
    split; [done|]. rewrite Hlen, Hall; [done|].
    intros Hin. apply Hfresh. by apply list_elem_of_fmap_2.
  - by apply Add_elem_of.
Qed.

Lemma dial_queue_one_entry_per_address_witness :
  Add (mkAddrDelay "X" 5) [mkAddrDelay "X" 5; mkAddrDelay "Y" 10]
  = [mkAddrDelay "X" 5; mkAddrDelay "Y" 10] ∧
  Add (mkAddrDelay "Y" 0) [mkAddrDelay "X" 5; mkAddrDelay "Y" 10]
  = [mkAddrDelay "Y" 0; mkAddrDelay "X" 5] ∧
  Add (mkAddrDelay "Y" 7) [mkAddrDelay "X" 5; mkAddrDelay "Y" 10]
  = [mkAddrDelay "X" 5; mkAddrDelay "Y" 7] ∧
  Add (mkAddrDelay "Z" 5) [mkAddrDelay "X" 5; mkAddrDelay "Y" 10]
  = [mkAddrDelay "X" 5; mkAddrDelay "Z" 5; mkAddrDelay "Y" 10] ∧
  mkAddrDelay "Y" 10 ∉
    Add (mkAddrDelay "Y" 0) [mkAddrDelay "X" 5; mkAddrDelay "Y" 10].
Proof.
  assert (dq_inv [mkAddrDelay "X" 5; mkAddrDelay "Y" 10]) as Hq.
  { split.
    - apply (NoDup_cons_2 _ _), (NoDup_cons_2 _ _), NoDup_nil_2.
      + intros [H|H]%elem_of_cons; [discriminate H|].
        by apply not_elem_of_nil in H.
      + apply not_elem_of_nil.
    - repeat constructor. unfold by_delay. simpl. lia. }
  assert (∀ a : AddrDelay,
            Addr a ≠ "X" ∨ Delay a ≠ 5%Z → Addr a ≠ "Y" ∨ Delay a ≠ 10%Z →
            a ∉ [mkAddrDelay "X" 5; mkAddrDelay "Y" 10]) as Hnew.
  { intros a HX HY [->|[->|H]%elem_of_cons]%elem_of_cons; simpl in *.
    - by destruct HX.
    - by destruct HY.
    - by apply not_elem_of_nil in H. }
  destruct dial_queue_one_entry_per_address as [_ Hadd].
  split_and!.
  - destruct (Hadd _ (mkAddrDelay "X" 5) Hq) as (Hsame & _).
    apply Hsame. apply elem_of_cons. by left.
  - destruct (Hadd _ (mkAddrDelay "Y" 0) Hq) as (_ & Hplace & _).
    refine (eq_trans (Hplace _) _); [|vm_compute; reflexivity].
    apply Hnew; simpl; [by left|right; lia].
  - destruct (Hadd _ (mkAddrDelay "Y" 7) Hq) as (_ & Hplace & _).
    refine (eq_trans (Hplace _) _); [|vm_compute; reflexivity].
    apply Hnew; simpl; [by left|right; lia].
  - destruct (Hadd _ (mkAddrDelay "Z" 5) Hq) as (_ & Hplace & _).
    refine (eq_trans (Hplace _) _); [|vm_compute; reflexivity].
    apply Hnew; simpl; by left.
  - destruct (Hadd _ (mkAddrDelay "Y" 0) Hq) as (_ & _ & Hold & _).
    destruct (Hold (mkAddrDelay "Y" 10)) as (_ & _ & Hgone & _).
    + apply elem_of_cons. right. apply elem_of_cons. by left.
    + reflexivity.
    + simpl. lia.
    + exact Hgone.
Defined.

(** C8. [NextBatch] pops the maximal front run of entries of equal delay,
    on any queue: the batch followed by the rest is the queue, every entry
    of the batch has the delay of the front entry, and the first entry
    left has another delay. On every queue with one entry per address in
    non-decreasing order of delay, and so on every queue reached by [Add]
    and [NextBatch]: after [Add(a, d)] the queue holds the new entry and the
    old entries of the other addresses; the batch one call of [NextBatch]
    returns holds exactly the entries whose delay is the least in that
    queue, and the rest it leaves exactly the entries with a larger delay;
    so the batch contains [a] exactly when [d] is the least delay in the
    queue, [a] is then no longer queued, and otherwise [a] stays queued. *)
Theorem next_batch_returns_added_iff_min :
  (∀ ops : list op, dq_inv (run ops)) ∧
  (∀ q : dialQueue,
     (NextBatch q).1 ++ (NextBatch q).2 = q ∧
     (∀ x, x ∈ (NextBatch q).1 → Some (Delay x) = Delay <$> head q) ∧
     (∀ y, head (NextBatch q).2 = Some y →
           Some (Delay y) ≠ Delay <$> head q)) ∧
  (∀ (q : dialQueue) (a : Multiaddr) (d : Z),
     dq_inv q →
     let q' := Add (mkAddrDelay a d) q in
     let batch := (NextBatch q').1 in
     let rest := (NextBatch q').2 in
     (a ∈ addrs_of batch ↔ (∀ x, x ∈ q' → (d ≤ Delay x)%Z)) ∧
     (a ∈ addrs_of batch ↔
      (∀ x, x ∈ q → Addr x ≠ a → (d ≤ Delay x)%Z)) ∧
     (∀ x, x ∈ q' ↔ x = mkAddrDelay a d ∨ (x ∈ q ∧ Addr x ≠ a)) ∧
     batch ++ rest = q' ∧
     (∀ x, x ∈ batch ↔ x ∈ q' ∧ ∀ y, y ∈ q' → (Delay x ≤ Delay y)%Z) ∧
     (∀ x, x ∈ rest ↔ x ∈ q' ∧ ∃ y, y ∈ q' ∧ (Delay y < Delay x)%Z) ∧
     (a ∈ addrs_of batch ↔ a ∉ addrs_of rest) ∧
     batch ≠ []).
Proof.
  split; [apply run_inv|]. split.
  { intros [|x0 q0].
    { simpl. split_and!; [done| |done]. by intros x ?%not_elem_of_nil. }
    unfold NextBatch. cbn [fst snd head fmap option_fmap option_map].
    destruct (batch_end_run (Delay x0) (x0 :: q0)) as [Hin Hout].
    split_and!.
    - apply take_drop.
    - intros x Hx. f_equal. by apply Hin.
    - intros y Hy [= Heq]. by apply (Hout y). }
  intros q a d Hq q' batch rest.
  assert (Hinv : dq_inv q') by by apply Add_inv.
  pose proof Hinv as [Hnd Hs].
  assert (Hmem : ∀ x, x ∈ q' ↔ x = mkAddrDelay a d ∨ (x ∈ q ∧ Addr x ≠ a)).
  { intros x. apply (Add_elem_of (mkAddrDelay a d)), Hq. }
  assert (Hin : mkAddrDelay a d ∈ q') by (apply Hmem; by left).
  assert (Hb : ∀ x, x ∈ batch ↔ x ∈ q' ∧ ∀ y, y ∈ q' → (Delay x ≤ Delay y)%Z).
  { intros x. by apply NextBatch_elem_of. }
  assert (Hr : ∀ x, x ∈ rest ↔ x ∈ q' ∧ ∃ y, y ∈ q' ∧ (Delay y < Delay x)%Z).
  { intros x. by apply NextBatch_elem_of. }
  assert (Hsplit : batch ++ rest = q').
  { unfold batch, rest, NextBatch. destruct q'; [done|]. apply take_drop. }
  assert (Hown : ∀ x, x ∈ q' → Addr x = a → x = mkAddrDelay a d).
  { intros x Hx Ha. by apply (addr_unique q'). }
  assert (Hmin : a ∈ addrs_of batch ↔ (∀ x, x ∈ q' → (d ≤ Delay x)%Z)).
  { unfold addrs_of. rewrite list_elem_of_fmap. split.
    - intros (x & Ha & [Hx Hlow]%Hb).
      rewrite (Hown x Hx (eq_sym Ha)) in Hlow. exact Hlow.
    - intros Hlow. exists (mkAddrDelay a d). split; [done|].
      apply Hb. split; [done|]. exact Hlow. }
  split_and!; [done| |done|done|done|done| |].
  - rewrite Hmin. split.
    + intros Hlow x Hx Hne. apply Hlow, Hmem. by right.
    + intros Hlow x [->|[Hx Hne]]%Hmem; [simpl; lia|by apply Hlow].
  - unfold addrs_of. rewrite !list_elem_of_fmap. split.
    + intros (x & Ha & [Hx Hlow]%Hb) (y & Ha' & (Hy & z & Hz & Hlt)%Hr).
      rewrite (Hown x Hx (eq_sym Ha)) in Hlow.
      rewrite (Hown y Hy (eq_sym Ha')) in Hlt.
      specialize (Hlow z Hz). simpl in *. lia.
    + intros Hnot. exists (mkAddrDelay a d). split; [done|].
      rewrite <- Hsplit in Hin. apply elem_of_app in Hin as [Hin|Hin]; [done|].
      exfalso. apply Hnot. by exists (mkAddrDelay a d).
  - intros Hnil. rewrite <- Hsplit in Hin, Hr.
    unfold batch in *. rewrite Hnil in *. simpl in *.
    apply Hr in Hin as (_ & y & Hy & Hlt).
    clear Hmin Hb Hsplit. revert y Hy Hlt.
    unfold rest in *. clear -Hnil Hs.
    destruct q' as [|x0 q0]; [by intros y ?%not_elem_of_nil|].
    unfold NextBatch in Hnil. cbn [fst batch_end] in Hnil.
    rewrite bool_decide_eq_false_2 in Hnil by tauto. done.
Qed.

Lemma next_batch_returns_added_iff_min_witness :
  "Y" ∈ addrs_of
    (NextBatch (Add (mkAddrDelay "Y" 0)
                  [mkAddrDelay "X" 5; mkAddrDelay "Y" 10])).1 ∧
  ("Y" ∉ addrs_of
     (NextBatch (Add (mkAddrDelay "Y" 7)
                   [mkAddrDelay "X" 5; mkAddrDelay "Y" 10])).1) ∧
  NextBatch (Add (mkAddrDelay "Y" 0) [mkAddrDelay "X" 5; mkAddrDelay "Y" 10])
  = ([mkAddrDelay "Y" 0], [mkAddrDelay "X" 5]) ∧
  NextBatch (Add (mkAddrDelay "Y" 7) [mkAddrDelay "X" 5; mkAddrDelay "Y" 10])
  = ([mkAddrDelay "X" 5], [mkAddrDelay "Y" 7]).
Proof.
  assert (dq_inv [mkAddrDelay "X" 5; mkAddrDelay "Y" 10]) as Hq.
  { split.
    - apply (NoDup_cons_2 _ _), (NoDup_cons_2 _ _), NoDup_nil_2.
      + intros [H|H]%elem_of_cons; [discriminate H|].
        by apply not_elem_of_nil in H.
      + apply not_elem_of_nil.
    - repeat constructor. unfold by_delay. simpl. lia. }
  destruct next_batch_returns_added_iff_min as (_ & _ & Hbatch).
  split_and!.
  - apply (proj1 (proj2 (Hbatch _ "Y" 0%Z Hq))).
    intros x [->|[->|H]%elem_of_cons]%elem_of_cons Hne; simpl in *.
    + lia.
    + done.
    + by apply not_elem_of_nil in H.
  - intros Hin.
    pose proof (proj1 (proj1 (proj2 (Hbatch _ "Y" 7%Z Hq))) Hin) as Hmin.
    specialize (Hmin (mkAddrDelay "X" 5)). simpl in Hmin.
    assert (7 ≤ 5)%Z; [|lia]. apply Hmin; [|discriminate].
    apply elem_of_cons. by left.
  - vm_compute. reflexivity.
  - vm_compute. reflexivity.
Defined.

(** ** The flow table *)

Import UDPMux.

Section flow_table_facts.

Implicit Types (s : udpMuxStorage) (c : muxedConnection).

Lemma remove_key_inv ufrag isIPv6 s :
  table_inv s → table_inv (state_of (Storage.remove_key ufrag isIPv6 s)).
Proof.
  intros Hinv. unfold Storage.remove_key.
  destruct (ufragMap s !! (ufrag, isIPv6)) as [conn|] eqn:Hkey; [|done].
  destruct (addr_String (conn_Address conn)) as [a0|] eqn:Ha0;
    intros a c; simpl; intros Hac.
  - apply lookup_delete_Some in Hac as [Hne Hac].
    destruct (Hinv a c Hac) as [Hstr [k Hk]]. split; [done|].
    exists k. rewrite lookup_delete_ne; [done|].
    intros <-. congruence.
  - destruct (Hinv a c Hac) as [Hstr [k Hk]]. split; [done|].
    exists k. rewrite lookup_delete_ne; [done|].
    intros <-. congruence.
Qed.

Lemma RemoveConnByUfrag_inv ufrag s :
  table_inv s → table_inv (state_of (Storage.RemoveConnByUfrag ufrag s)).
Proof.
  intros Hinv. unfold Storage.RemoveConnByUfrag.
  pose proof (remove_key_inv ufrag true s Hinv) as H1.
  destruct (Storage.remove_key ufrag true s) as [s1 []|s1]; [|done].
  by apply remove_key_inv.
Qed.

Lemma GetOrCreateConn_inv ufrag isIPv6 addr s :
  table_inv s →
  table_inv (state_of (Storage.GetOrCreateConn ufrag isIPv6 addr s)).
Proof.
  intros Hinv. unfold Storage.GetOrCreateConn.
  destruct (ufragMap s !! (ufrag, isIPv6)) as [conn|] eqn:Hkey; [done|].
  destruct (addr_String addr) as [a0|] eqn:Ha0; intros a c; simpl; intros Hac.
  - apply lookup_insert_Some in Hac as [[<- <-]|[Hne Hac]].
    + split; [done|]. exists (ufrag, isIPv6). by rewrite lookup_insert_eq.
    + destruct (Hinv a c Hac) as [Hstr [k Hk]]. split; [done|].
      exists k. rewrite lookup_insert_ne; [done|]. intros <-. congruence.
  - destruct (Hinv a c Hac) as [Hstr [k Hk]]. split; [done|].
    exists k. rewrite lookup_insert_ne; [done|]. intros <-. congruence.
Qed.

Lemma storage_run_snoc ops o :
  Storage.run (ops ++ [o]) = Storage.apply_op (Storage.run ops) o.
Proof. unfold Storage.run. by rewrite foldl_snoc. Qed.

Lemma storage_run_inv ops : table_inv (Storage.run ops).
Proof.
  induction ops as [|o ops IH] using rev_ind.
  - intros a c. unfold Storage.run. simpl. by rewrite lookup_empty.
  - rewrite storage_run_snoc. destruct o; simpl.
    + by apply GetOrCreateConn_inv.
    + done.
    + by apply RemoveConnByUfrag_inv.
Qed.

(** A flow that [GetOrCreateConn] has just constructed is found under its
    address. *)
Lemma GetOrCreateConn_created ufrag isIPv6 (a : UDPAddr) s s' c :
  Storage.GetOrCreateConn ufrag isIPv6 (AddrUDP a) s = Returned s' (true, c) →
  Storage.GetConnByAddr a s' = (Some c, true).
Proof.
  unfold Storage.GetOrCreateConn, Storage.GetConnByAddr.
  destruct (ufragMap s !! (ufrag, isIPv6)); [congruence|]. simpl.
  intros [= <- <-]. simpl. by rewrite lookup_insert_eq.
Qed.

(** On an open mux, [GetConn] with a UDP address returns a flow and no
    error. *)
Lemma GetConn_udp ufrag (a : UDPAddr) mux :
  ctx_done mux = false →
  ∃ mux' c, GetConn ufrag (AddrUDP a) mux = Returned mux' (Some c, None).
Proof.
  intros Hopen. unfold GetConn, getOrCreateConn, Storage.GetOrCreateConn.
  simpl. rewrite Hopen.
  destruct (ufragMap (storage mux) !! _); eauto.
Qed.

End flow_table_facts.

(** C6. In every table state reached by [GetOrCreateConn], [GetConnByAddr]
    and [RemoveConnByUfrag], a flow stored in the address map is also stored
    in the ufrag map under some key. *)
Theorem addr_entries_have_ufrag_entry (ops : list Storage.op)
    (a : string) (c : muxedConnection) :
  addrMap (Storage.run ops) !! a = Some c →
  ∃ k, ufragMap (Storage.run ops) !! k = Some c.
Proof. intros Hac. by destruct (storage_run_inv ops a c Hac). Qed.

Lemma addr_entries_have_ufrag_entry_witness :
  ∃ k, ufragMap (Storage.run
          [Storage.OpGetOrCreateConn "u" false (AddrUDP addr1)]) !! k
       = Some (mkConn 0 "u" (AddrUDP addr1)).
Proof.
  apply (addr_entries_have_ufrag_entry
           [Storage.OpGetOrCreateConn "u" false (AddrUDP addr1)]
           "192.0.2.1:4001").
  vm_compute. reflexivity.
Defined.

(** C2, evaluated on the code. A flow is created for ufrag ["u"] from
    [addr1]; [GetOrCreateConn] for the same ufrag and family from [addr2]
    then returns that flow without binding [addr2], and [GetConnByAddr addr2]
    finds nothing. *)
Theorem get_or_create_existing_ufrag_binds_no_address :
  ∃ s1 c,
    Storage.GetOrCreateConn "u" false (AddrUDP addr1) Storage.newUDPMuxStorage
      = Returned s1 (true, c) ∧
    Storage.GetOrCreateConn "u" false (AddrUDP addr2) s1
      = Returned s1 (false, c) ∧
    Storage.GetConnByAddr addr2 s1 = (None, false).
Proof. do 2 eexists. split_and!; vm_compute; reflexivity. Qed.

(** C3, evaluated on the code. On a freshly constructed, open mux,
    [GetConn] with the nil address does not return: the new flow is
    registered under its ufrag key and the call then panics on
    [addr.String()]. *)
Theorem GetConn_nil_addr_panics :
  GetConn "u" AddrNil NewUDPMux
  = Panicked {| storage :=
                  {| ufragMap := {[ ("u", false) := mkConn 0 "u" AddrNil ]};
                     addrMap := ∅;
                     allocated := 1 |};
                ctx_done := false |}.
Proof. vm_compute. reflexivity. Qed.

(** C10. [RemoveConnByUfrag] of the mux with the empty ufrag returns with
    the mux, and so both maps of the flow table, unchanged, whatever the
    table holds. The guard is in the mux method only: after [GetConn] has
    registered a flow under the empty ufrag, the mux method keeps it while
    the storage method removes it from both maps. *)
Theorem mux_remove_empty_ufrag_is_noop :
  (∀ mux : UDPMux, RemoveConnByUfrag "" mux = Returned mux tt) ∧
  (∃ mux c,
     GetConn "" (AddrUDP addr1) NewUDPMux = Returned mux (Some c, None) ∧
     ufragMap (storage mux) !! ("", false) = Some c ∧
     addrMap (storage mux) !! udp_string addr1 = Some c ∧
     state_of (RemoveConnByUfrag "" mux) = mux ∧
     ufragMap (state_of (Storage.RemoveConnByUfrag "" (storage mux)))
       !! ("", false) = None ∧
     addrMap (state_of (Storage.RemoveConnByUfrag "" (storage mux)))
       !! udp_string addr1 = None).
Proof.
  split; [done|].
  do 2 eexists. split_and!; vm_compute; reflexivity.
Qed.

(** ** The dial worker: one response per request *)

Import DialWorker.
Import DialWorkerSpec.

Section response_counting.

Implicit Types (w : dialWorker) (s : Swarm) (k : Multiaddr) (ch : nat).










Lemma scheduleNextDial_pending w :
  pendingRequests (scheduleNextDial w) = pendingRequests w.
Proof.
  unfold scheduleNextDial. destruct (top (dq w)); [|done].
  by destruct (bool_decide _ && _).
Qed.









End response_counting.


(** ** dispatchError and the pending requests *)

Section dispatch_facts.

Implicit Types (w : dialWorker) (s : Swarm) (k : Multiaddr).

Lemma addrs_size_zero (X : gset string) : size X = 0 ↔ X = ∅.
Proof. rewrite size_empty_iff. by unfold_leibniz. Qed.

Lemma dispatch_one_spec s k err pr :
  spec_dispatch s k err pr (dispatch_one s k err pr).1 (dispatch_one s k err pr).2.
Proof.
  unfold dispatch_one.
  destruct (decide (k ∈ pr_addrs pr)) as [Hin|Hin].
  2:{ rewrite (bool_decide_eq_false_2 _ Hin). by constructor. }
  rewrite (bool_decide_eq_true_2 _ Hin). cbn [pr_addrs pr_req pr_err].
  destruct (decide (pr_addrs pr ∖ {[k]} = ∅)) as [Hempty|Hleft].
  - rewrite bool_decide_eq_true_2 by by apply addrs_size_zero.
    destruct ((bestAcceptableConnToPeer s (req_ctx (pr_req pr))).1)
      as [c|] eqn:Hprobe; simpl.
    + by apply sd_connected.
    + by apply sd_failed.
  - rewrite bool_decide_eq_false_2 by by rewrite addrs_size_zero.
    simpl. by apply sd_narrowed.
Qed.

Lemma dispatch_pending_spec s k err prs :
  ∃ fates : list (option pendRequest * list output),
    Forall2 (λ pr f, spec_dispatch s k err pr f.1 f.2) prs fates ∧
    (dispatch_pending s k err prs).1 = omap fst fates ∧
    (dispatch_pending s k err prs).2 = concat (snd <$> fates).
Proof.
  induction prs as [|pr prs (fates & Hall & Hkept & Hsent)].
  - exists []. by split_and!; [constructor|..].
  - exists (dispatch_one s k err pr :: fates). cbn [dispatch_pending].
    pose proof (dispatch_one_spec s k err pr) as Hone.
    destruct (dispatch_one s k err pr) as [kept out].
    destruct (dispatch_pending s k err prs) as [rest' out'].
    simpl in *. subst rest' out'.
    split_and!; [by constructor| |done].
    by destruct kept.
Qed.

End dispatch_facts.

(** C4. When [dispatchError] runs for the dial tracked under [k], every
    pending request meets the fate the specification describes
    ([spec_dispatch]): one that waits on [k] has the error appended and [k]
    removed; it is completed and dropped from the pending set exactly when no
    address is left, with the connection of the last probe or else the
    accumulated error with cause all-dials-failed; one with addresses left is
    kept and sent nothing. The pending set afterwards holds exactly the
    requests kept, and exactly the responses of the completed ones are
    sent. *)
Theorem dispatchError_completes_exactly_the_exhausted
    (s : Swarm) (k : Multiaddr) (err : option error) (w : dialWorker) :
  ∃ fates : list (option pendRequest * list output),
    Forall2 (λ pr f, spec_dispatch s k err pr f.1 f.2) (pendingRequests w) fates ∧
    pendingRequests (dispatchError s k err w).1 = omap fst fates ∧
    (dispatchError s k err w).2 = concat (snd <$> fates).
Proof.
  destruct (dispatch_pending_spec s k err (pendingRequests w))
    as (fates & Hall & Hkept & Hsent).
  exists fates. unfold dispatchError.
  destruct (dispatch_pending s k err (pendingRequests w)) as [prs out].
  by split_and!.
Qed.

(** ** How a tracked dial changes *)

Section tracked_dial_facts.

Implicit Types (w : dialWorker) (s : Swarm) (k : Multiaddr) (ad : addrDial).

Lemma same_dial_refl ad : same_dial ad ad.
Proof. by split. Qed.

Lemma same_dial_trans ad1 ad2 ad3 :
  same_dial ad1 ad2 → same_dial ad2 ad3 → same_dial ad1 ad3.
Proof. unfold same_dial. intros [-> ->] [-> ->]. done. Qed.

Lemma dispatchError_tracked s k0 err w :
  trackedDials (dispatchError s k0 err w).1
  = if bool_decide (err = Some ErrDialBackoff)
    then delete k0 (alter (set_ad_err err) k0 (trackedDials w))
    else alter (set_ad_err err) k0 (trackedDials w).
Proof.
  unfold dispatchError.
  by destruct (dispatch_pending s k0 err (pendingRequests w)).
Qed.

Lemma dispatchError_peer s k0 err w : peer (dispatchError s k0 err w).1 = peer w.
Proof.
  unfold dispatchError.
  by destruct (dispatch_pending s k0 err (pendingRequests w)).
Qed.

Lemma dispatchError_entry s k0 err w k ad :
  trackedDials w !! k = Some ad →
  match trackedDials (dispatchError s k0 err w).1 !! k with
  | Some ad' => same_dial ad ad'
  | None => k = k0 ∧ err = Some ErrDialBackoff
  end.
Proof.
  intros Hk. rewrite dispatchError_tracked.
  destruct (decide (k = k0)) as [->|Hne].
  - case_bool_decide.
    + by rewrite lookup_delete_eq.
    + rewrite lookup_alter_eq, Hk. simpl. by split.
  - case_bool_decide.
    + rewrite lookup_delete_ne, lookup_alter_ne, Hk by done.
      apply same_dial_refl.
    + rewrite lookup_alter_ne, Hk by done. apply same_dial_refl.
Qed.

Lemma dispatchError_absent s k0 err w k :
  trackedDials w !! k = None →
  trackedDials (dispatchError s k0 err w).1 !! k = None.
Proof.
  intros Hk. rewrite dispatchError_tracked.
  assert (alter (set_ad_err err) k0 (trackedDials w) !! k = None) as Halt.
  { destruct (decide (k = k0)) as [->|Hne].
    - by rewrite lookup_alter_eq, Hk.
    - by rewrite lookup_alter_ne. }
  case_bool_decide; [|done].
  apply lookup_delete_None. by right.
Qed.

Lemma handleSuccess_entry s k0 rc w k ad :
  trackedDials w !! k = Some ad →
  match trackedDials (handleSuccess s k0 rc w).1 !! k with
  | Some ad' => same_dial ad ad'
  | None =>
      k = k0 ∧ rc_RemotePeer rc = peer w ∧
      (addConn s rc).2 = Some ErrDialBackoff
  end.
Proof.
  intros Hk. unfold handleSuccess.
  case_bool_decide as Hpeer.
  { pose proof (dispatchError_entry s k0 (Some ErrTransportBug) w k ad Hk) as H.
    destruct (trackedDials (dispatchError s k0 _ w).1 !! k); [done|].
    by destruct H. }
  destruct (addConn s rc) as [conn [e|]] eqn:Hadd.
  { pose proof (dispatchError_entry s k0 (Some e) w k ad Hk) as H.
    destruct (trackedDials (dispatchError s k0 _ w).1 !! k); [done|].
    destruct H as [-> [= ->]]. done. }
  destruct (deliver_conn k0 conn (pendingRequests w)) as [prs out]. simpl.
  destruct (decide (k = k0)) as [->|Hne].
  - rewrite lookup_alter_eq, Hk. simpl. by split.
  - rewrite lookup_alter_ne, Hk by done. apply same_dial_refl.
Qed.

Lemma scheduleNextDial_tracked w :
  trackedDials (scheduleNextDial w) = trackedDials w.
Proof.
  unfold scheduleNextDial. destruct (top (dq w)); [|done].
  by destruct (bool_decide _ && _).
Qed.

Lemma on_result_entry s now res w k ad :
  trackedDials w !! k = Some ad →
  match trackedDials (on_result s now res w).1 !! k with
  | Some ad' => same_dial ad ad'
  | None => backoff_dispatched k w (EvResult s now res)
  end.
Proof.
  intros Hk. unfold on_result.
  destruct (trackedDials w !! res_Addr res) as [ad0|] eqn:Hres.
  2:{ simpl. rewrite Hk. apply same_dial_refl. }
  destruct (res_Kind res) eqn:Hkind.
  { cbn [fst]. rewrite scheduleNextDial_tracked. simpl.
    destruct (decide (k = res_Addr res)) as [->|Hne].
    - rewrite lookup_insert_eq. rewrite Hk in Hres. by simplify_eq.
    - rewrite lookup_insert_ne, Hk by done. apply same_dial_refl. }
  set (w1 := set_inflight _ w).
  assert (Hk1 : trackedDials w1 !! k = Some ad) by done.
  destruct (res_Conn res) as [rc|] eqn:Hconn.
  - pose proof (handleSuccess_entry s (res_Addr res) rc w1 k ad Hk1) as H.
    destruct (handleSuccess s (res_Addr res) rc w1) as [w2 out].
    cbn [fst] in *. rewrite scheduleNextDial_tracked.
    destruct (trackedDials w2 !! k); [done|].
    destruct H as (-> & Hp & Ha). simpl. rewrite Hconn. done.
  - unfold handleError.
    pose proof (dispatchError_entry s (res_Addr res) (res_Err res) w1 k ad Hk1) as H.
    destruct (dispatchError s (res_Addr res) (res_Err res) w1) as [w2 out].
    cbn [fst] in *. rewrite scheduleNextDial_tracked.
    destruct (trackedDials w2 !! k); [done|].
    destruct H as (-> & He). simpl. rewrite Hconn. done.
Qed.

Lemma dial_one_entry s now (st : dialWorker * list output) adelay k ad :
  trackedDials st.1 !! k = Some ad →
  match trackedDials (dial_one s now st adelay).1 !! k with
  | Some ad' => same_dial ad ad'
  | None =>
      Addr adelay = k ∧
      dialNextAddr s (ad_ctx ad) (ad_addr ad) = Some ErrDialBackoff
  end.
Proof.
  destruct st as [w out]. simpl. intros Hk. unfold dial_one.
  destruct (trackedDials w !! Addr adelay) as [ad0|] eqn:H0.
  2:{ simpl. rewrite Hk. apply same_dial_refl. }
  set (w1 := set_tracked _ w).
  assert (∃ ad1, trackedDials w1 !! k = Some ad1 ∧ same_dial ad ad1 ∧
                 (k = Addr adelay → ad0 = ad)) as (ad1 & Hk1 & Hsame & Heq).
  { simpl. destruct (decide (k = Addr adelay)) as [->|Hne].
    - rewrite lookup_insert_eq. rewrite Hk in H0. simplify_eq.
      eexists. split; [done|]. by split.
    - rewrite lookup_insert_ne by done. exists ad. split; [done|].
      split; [apply same_dial_refl|done]. }
  simpl. destruct (dialNextAddr s (ad_ctx ad0) (ad_addr ad0)) as [e|] eqn:Hdial.
  - pose proof (dispatchError_entry s (Addr adelay) (Some e) w1 k ad1 Hk1) as H.
    destruct (dispatchError s (Addr adelay) (Some e) w1) as [w2 out'].
    cbn [fst] in *. destruct (trackedDials w2 !! k) as [ad2|].
    + by eapply same_dial_trans.
    + destruct H as [-> [= ->]]. split; [done|]. by rewrite <- (Heq eq_refl).
  - change (trackedDials (set_total (totalDials w + 1)
              (set_inflight (dialsInFlight w + 1) w1), out).1)
      with (trackedDials w1).
    by rewrite Hk1.
Qed.

Lemma dial_one_absent s now (st : dialWorker * list output) adelay k :
  trackedDials st.1 !! k = None →
  trackedDials (dial_one s now st adelay).1 !! k = None.
Proof.
  destruct st as [w out]. simpl. intros Hk. unfold dial_one.
  destruct (trackedDials w !! Addr adelay) as [ad0|] eqn:H0; [|done].
  set (w1 := set_tracked _ w).
  assert (trackedDials w1 !! k = None) as Hk1.
  { simpl. rewrite lookup_insert_ne; [done|].
    intros Heq. rewrite Heq in H0. congruence. }
  simpl. destruct (dialNextAddr s (ad_ctx ad0) (ad_addr ad0)) as [e|]; [|done].
  pose proof (dispatchError_absent s (Addr adelay) (Some e) w1 k Hk1) as H.
  by destruct (dispatchError s (Addr adelay) (Some e) w1).
Qed.

Lemma dial_batch_absent s now l (st : dialWorker * list output) k :
  trackedDials st.1 !! k = None →
  trackedDials (foldl (dial_one s now) st l).1 !! k = None.
Proof.
  revert st. induction l as [|x l IH]; intros st Hk; [done|].
  simpl. apply IH. by apply dial_one_absent.
Qed.

Lemma dial_batch_entry s now l (st : dialWorker * list output) k ad :
  trackedDials st.1 !! k = Some ad →
  match trackedDials (foldl (dial_one s now) st l).1 !! k with
  | Some ad' => same_dial ad ad'
  | None =>
      ∃ adelay, adelay ∈ l ∧ Addr adelay = k ∧
        dialNextAddr s (ad_ctx ad) (ad_addr ad) = Some ErrDialBackoff
  end.
Proof.
  revert st ad. induction l as [|x l IH]; intros st ad Hk.
  { simpl. rewrite Hk. apply same_dial_refl. }
  simpl. pose proof (dial_one_entry s now st x k ad Hk) as H1.
  destruct (trackedDials (dial_one s now st x).1 !! k) as [ad1|] eqn:Hk1.
  - specialize (IH _ _ Hk1).
    destruct (trackedDials (foldl _ _ l).1 !! k) as [ad2|].
    + by eapply same_dial_trans.
    + destruct IH as (adelay & Hin & Ha & Hd). exists adelay.
      split; [by apply elem_of_cons; right|]. split; [done|].
      destruct H1 as [<- <-]. done.
  - rewrite (dial_batch_absent s now l _ k Hk1).
    destruct H1 as [Ha Hd]. exists x.
    split; [by apply elem_of_cons; left|]. done.
Qed.

Lemma on_timer_entry s now w k ad :
  trackedDials w !! k = Some ad →
  match trackedDials (on_timer s now w).1 !! k with
  | Some ad' => same_dial ad ad'
  | None => backoff_dispatched k w (EvTimer s now)
  end.
Proof.
  intros Hk. unfold on_timer. simpl.
  destruct (NextBatch (dq w)) as [batch rest] eqn:Hbatch.
  pose proof (dial_batch_entry s now batch (set_dq rest w, []) k ad Hk) as H.
  destruct (foldl _ _ _) as [w1 out]. cbn [fst snd] in *.
  rewrite scheduleNextDial_tracked. simpl.
  destruct (trackedDials w1 !! k); [done|].
  destruct H as (adelay & Hin & Ha & Hd). by exists adelay, ad.
Qed.

End tracked_dial_facts.

Section request_facts.

Implicit Types (w : dialWorker) (s : Swarm) (k : Multiaddr) (ad : addrDial).

Lemma upgraded_then_fixed req ad ad1 ad2 :
  upgraded req ad ad1 → ad2 = ad1 ∨ upgraded req ad1 ad2 → upgraded req ad ad2.
Proof.
  intros Hup [->|Hup2]; [done|].
  destruct Hup as (_ & _ & _ & _ & Hsim & _).
  destruct Hup2 as (_ & Hnot & _). congruence.
Qed.

Lemma track_one_entry req now
    (st : gmap string addrDial * dialQueue * pendRequest) adelay k ad :
  st.1.1 !! k = Some ad →
  ∃ ad', (track_one req now st adelay).1.1 !! k = Some ad' ∧
         (ad' = ad ∨ upgraded req ad ad').
Proof.
  destruct st as [[t q] pr]. simpl. intros Hk. unfold track_one.
  destruct (t !! Addr adelay) as [ad0|] eqn:H0.
  2:{ simpl. rewrite lookup_insert_ne; [eauto|]. intros Heq.
      rewrite Heq in H0. congruence. }
  destruct (ad_err ad0) as [e|] eqn:Herr; [simpl; eauto|].
  destruct (ad_dialed ad0) eqn:Hdialed; [simpl; eauto|]. simpl.
  destruct (GetSimultaneousConnect (req_ctx req)) as [[isSim isClient] reason]
    eqn:Hreq.
  destruct isSim; [|simpl; eauto].
  destruct (GetSimultaneousConnect (ad_ctx ad0)) as [[wasSim c0] r0] eqn:Hwas.
  destruct wasSim; [simpl; eauto|]. simpl.
  destruct (decide (k = Addr adelay)) as [->|Hne].
  - rewrite lookup_insert_eq. rewrite Hk in H0. simplify_eq.
    eexists. split; [done|]. right. unfold upgraded, is_sim.
    rewrite Hreq, Hwas. split_and!; try done. by exists isClient, reason.
  - rewrite lookup_insert_ne by done. eauto.
Qed.

Lemma track_all_entry req now l
    (st : gmap string addrDial * dialQueue * pendRequest) k ad :
  st.1.1 !! k = Some ad →
  ∃ ad', (foldl (track_one req now) st l).1.1 !! k = Some ad' ∧
         (ad' = ad ∨ upgraded req ad ad').
Proof.
  revert st ad. induction l as [|x l IH]; intros st ad Hk; [eauto|].
  simpl. destruct (track_one_entry req now st x k ad Hk) as (ad1 & Hk1 & H1).
  destruct (IH _ _ Hk1) as (ad2 & Hk2 & H2). exists ad2. split; [done|].
  destruct H1 as [->|Hup]; [done|]. right. by eapply upgraded_then_fixed.
Qed.

Lemma addNewRequest_entry s now req addrs addrErrs w k ad :
  trackedDials w !! k = Some ad →
  ∃ ad', trackedDials (addNewRequest s now req addrs addrErrs w).1 !! k
           = Some ad' ∧
         (ad' = ad ∨ upgraded req ad ad').
Proof.
  intros Hk. unfold addNewRequest.
  set (pr0 := mkPend _ _ _).
  pose proof (track_all_entry req now
    (rankAddrs s addrs (GetSimultaneousConnect (req_ctx req)).1.1)
    (trackedDials w, dq w, pr0) k ad Hk) as H.
  destruct (foldl _ _ _) as [[tracked q] pr]. simpl in H.
  by case_bool_decide.
Qed.

Lemma on_request_entry s now req w k ad :
  trackedDials w !! k = Some ad →
  ∃ ad', trackedDials (on_request s now req w).1 !! k = Some ad' ∧
         (ad' = ad ∨ upgraded req ad ad').
Proof.
  intros Hk. unfold on_request.
  destruct (bestAcceptableConnToPeer s (req_ctx req)) as [c err].
  destruct (bool_decide (is_Some c) || bool_decide (is_Some err)); [eauto|].
  destruct (addrsForDial s (req_ctx req)) as [[addrs addrErrs] [e|]]; [eauto|].
  destruct (tracked_conn (trackedDials w) addrs); [eauto|].
  pose proof (addNewRequest_entry s now req addrs addrErrs w k ad Hk) as H.
  destruct (addNewRequest s now req addrs addrErrs w) as [w1 out].
  cbn [fst] in *. by rewrite scheduleNextDial_tracked.
Qed.

(** A tracked dial, over one round of the loop: it keeps its address and
    context, or it is upgraded by a request, or it is deleted by a
    dispatch of the backoff sentinel. *)
Lemma step_entry w ev k ad :
  trackedDials w !! k = Some ad →
  match trackedDials (step w ev).1 !! k with
  | Some ad' =>
      same_dial ad ad' ∨
      ∃ s now req, ev = EvRequest s now req ∧ upgraded req ad ad'
  | None => backoff_dispatched k w ev
  end.
Proof.
  intros Hk. destruct ev as [s now req|s now|s now res|]; simpl.
  - destruct (on_request_entry s now req w k ad Hk) as (ad' & -> & H).
    destruct H as [->|Hup]; [left; apply same_dial_refl|right; eauto].
  - pose proof (on_timer_entry s now w k ad Hk) as H.
    destruct (trackedDials (on_timer s now w).1 !! k); [by left|done].
  - pose proof (on_result_entry s now res w k ad Hk) as H.
    destruct (trackedDials (on_result s now res w).1 !! k); [by left|done].
  - rewrite Hk. left. apply same_dial_refl.
Qed.

Lemma cleanup_tracked w evs : trackedDials (cleanup w evs) = trackedDials w.
Proof.
  revert w. induction evs as [|ev evs IH]; intros w; simpl.
  - by case_bool_decide.
  - case_bool_decide; [|done]. destruct ev; rewrite IH; done.
Qed.

Lemma loop_tracked_step w ev evs :
  ev ≠ EvClose →
  trackedDials (loop w (ev :: evs)).1 = trackedDials (loop (step w ev).1 evs).1.
Proof.
  intros Hev. destruct ev; try done; simpl;
    match goal with |- context [loop ?w1.1 _] =>
      destruct w1 as [w1' o]; simpl; by destruct (loop w1' evs) end.
Qed.

Lemma tracked_until_backoff w evs k :
  is_Some (trackedDials w !! k) → never_backoff k w evs →
  is_Some (trackedDials (loop w evs).1 !! k).
Proof.
  revert w. induction evs as [|ev evs IH]; intros w Hk Hnever; [done|].
  destruct Hk as [ad Hk].
  destruct ev as [s now req|s now|s now res|];
    [| | |simpl; rewrite cleanup_tracked; eauto].
  all: rewrite loop_tracked_step by done.
  all: destruct Hnever as [Hno Hrest]; apply IH; [|done].
  all: match goal with |- context [step ?w0 ?ev] =>
         pose proof (step_entry w0 ev k ad Hk) as H;
         destruct (trackedDials (step w0 ev).1 !! k); [eauto|done] end.
Qed.

Lemma upgrades_of_sim w evs k ad :
  trackedDials w !! k = Some ad → is_sim (ad_ctx ad) = true →
  upgrades k w evs = 0.
Proof.
  revert w ad. induction evs as [|ev evs IH]; intros w ad Hk Hsim; [done|].
  cbn [upgrades]. rewrite Hk. pose proof (step_entry w ev k ad Hk) as H.
  destruct (trackedDials (step w ev).1 !! k) as [ad'|] eqn:Hk'; [|done].
  rewrite Hsim. simpl. eapply IH; [done|].
  destruct H as [[_ ->]|(s & now & req & _ & Hup)]; [done|].
  destruct Hup as (_ & Hnot & _). congruence.
Qed.

Lemma upgrades_at_most_once w evs k : upgrades k w evs ≤ 1.
Proof.
  revert w. induction evs as [|ev evs IH]; intros w; cbn [upgrades]; [lia|].
  destruct (trackedDials w !! k) as [ad|] eqn:Hk; [|apply IH].
  destruct (trackedDials (step w ev).1 !! k) as [ad'|] eqn:Hk'; [|lia].
  destruct (is_sim (ad_ctx ad')) eqn:Hsim'.
  - rewrite (upgrades_of_sim _ evs k ad' Hk' Hsim').
    destruct (negb _); simpl; lia.
  - rewrite andb_false_r. simpl. apply IH.
Qed.

End request_facts.

(** ** Tracked dials are filed under their own address

    This is what lets an [*addrDial] be named by its key: in every state the
    worker reaches, [ad.addr] of the entry under [k] is [k]. *)

Section filing_facts.

Implicit Types (w : dialWorker) (s : Swarm) (t : gmap string addrDial).

Lemma alter_filed (f : addrDial → addrDial) k0 t :
  (∀ ad, ad_addr (f ad) = ad_addr ad) →
  filed_under_addr t → filed_under_addr (alter f k0 t).
Proof.
  intros Hf Ht k ad [[-> (x & Hx & ->)]|[_ Hk]]%lookup_alter_Some.
  - rewrite Hf. by apply Ht.
  - by apply Ht.
Qed.

Lemma delete_filed k0 t : filed_under_addr t → filed_under_addr (delete k0 t).
Proof. intros Ht k ad [_ Hk]%lookup_delete_Some. by apply Ht. Qed.

Lemma insert_filed k0 ad0 t :
  ad_addr ad0 = k0 → filed_under_addr t → filed_under_addr (<[k0 := ad0]> t).
Proof.
  intros H0 Ht k ad [[<- <-]|[_ Hk]]%lookup_insert_Some; [done|by apply Ht].
Qed.

Lemma dispatchError_filed s k0 err w :
  filed_under_addr (trackedDials w) →
  filed_under_addr (trackedDials (dispatchError s k0 err w).1).
Proof.
  intros Hw. rewrite dispatchError_tracked.
  case_bool_decide; [apply delete_filed|]; by apply alter_filed.
Qed.

Lemma handleSuccess_filed s k0 rc w :
  filed_under_addr (trackedDials w) →
  filed_under_addr (trackedDials (handleSuccess s k0 rc w).1).
Proof.
  intros Hw. unfold handleSuccess.
  case_bool_decide; [by apply dispatchError_filed|].
  destruct (addConn s rc) as [conn [e|]]; [by apply dispatchError_filed|].
  destruct (deliver_conn k0 conn (pendingRequests w)). simpl.
  by apply alter_filed.
Qed.

Lemma on_result_filed s now res w :
  filed_under_addr (trackedDials w) →
  filed_under_addr (trackedDials (on_result s now res w).1).
Proof.
  intros Hw. unfold on_result.
  destruct (trackedDials w !! res_Addr res) as [ad0|] eqn:H0; [|done].
  destruct (res_Kind res).
  { cbn [fst]. rewrite scheduleNextDial_tracked. simpl.
    apply insert_filed; [|done]. simpl. by apply Hw. }
  set (w1 := set_inflight _ w).
  assert (filed_under_addr (trackedDials
    (match res_Conn res with
     | Some rc => handleSuccess s (res_Addr res) rc w1
     | None => handleError s (res_Addr res) res w1
     end).1)) as H.
  { destruct (res_Conn res); [by apply handleSuccess_filed|].
    by apply dispatchError_filed. }
  destruct (match res_Conn res with Some _ => _ | None => _ end) as [w2 out].
  cbn [fst] in *. by rewrite scheduleNextDial_tracked.
Qed.

Lemma dial_one_filed s now (st : dialWorker * list output) adelay :
  filed_under_addr (trackedDials st.1) →
  filed_under_addr (trackedDials (dial_one s now st adelay).1).
Proof.
  destruct st as [w out]. simpl. intros Hw. unfold dial_one.
  destruct (trackedDials w !! Addr adelay) as [ad0|] eqn:H0; [|done].
  set (w1 := set_tracked _ w).
  assert (filed_under_addr (trackedDials w1)) as Hw1.
  { simpl. apply insert_filed; [|done]. simpl. by apply Hw. }
  simpl. destruct (dialNextAddr s (ad_ctx ad0) (ad_addr ad0)) as [e|]; [|done].
  pose proof (dispatchError_filed s (Addr adelay) (Some e) w1 Hw1) as H.
  by destruct (dispatchError s (Addr adelay) (Some e) w1).
Qed.

Lemma on_timer_filed s now w :
  filed_under_addr (trackedDials w) →
  filed_under_addr (trackedDials (on_timer s now w).1).
Proof.
  intros Hw. unfold on_timer. destruct (NextBatch (dq w)) as [batch rest].
  assert (∀ l st, filed_under_addr (trackedDials st.1) →
    filed_under_addr (trackedDials (foldl (dial_one s now) st l).1)) as Hfold.
  { induction l as [|x l IH]; intros st Hst; [done|].
    simpl. by apply IH, dial_one_filed. }
  specialize (Hfold batch (set_dq rest w, []) Hw).
  destruct (foldl _ _ _) as [w1 out]. cbn [fst] in *.
  by rewrite scheduleNextDial_tracked.
Qed.

Lemma track_one_filed req now
    (st : gmap string addrDial * dialQueue * pendRequest) adelay :
  filed_under_addr st.1.1 →
  filed_under_addr (track_one req now st adelay).1.1.
Proof.
  destruct st as [[t q] pr]. simpl. intros Ht. unfold track_one.
  destruct (t !! Addr adelay) as [ad0|] eqn:H0.
  2:{ simpl. by apply insert_filed. }
  destruct (ad_err ad0); [done|].
  destruct (ad_dialed ad0); [done|]. simpl.
  destruct (GetSimultaneousConnect (req_ctx req)) as [[[] ?] ?]; [|done].
  destruct (GetSimultaneousConnect (ad_ctx ad0)) as [[[] ?] ?]; [done|]. simpl.
  apply insert_filed; [|done]. simpl. by apply Ht.
Qed.

Lemma on_request_filed s now req w :
  filed_under_addr (trackedDials w) →
  filed_under_addr (trackedDials (on_request s now req w).1).
Proof.
  intros Hw. unfold on_request.
  destruct (bestAcceptableConnToPeer s (req_ctx req)) as [c err].
  destruct (bool_decide (is_Some c) || bool_decide (is_Some err)); [done|].
  destruct (addrsForDial s (req_ctx req)) as [[addrs addrErrs] [e|]]; [done|].
  destruct (tracked_conn (trackedDials w) addrs); [done|].
  unfold addNewRequest. set (pr0 := mkPend _ _ _).
  assert (∀ l st, filed_under_addr st.1.1 →
    filed_under_addr (foldl (track_one req now) st l).1.1) as Hfold.
  { induction l as [|x l IH]; intros st Hst; [done|].
    simpl. by apply IH, track_one_filed. }
  specialize (Hfold (rankAddrs s addrs (GetSimultaneousConnect (req_ctx req)).1.1)
                (trackedDials w, dq w, pr0) Hw).
  destruct (foldl _ _ _) as [[tracked q] pr]. simpl in Hfold.
  case_bool_decide; cbn [fst]; by rewrite scheduleNextDial_tracked.
Qed.

Lemma step_filed w ev :
  filed_under_addr (trackedDials w) →
  filed_under_addr (trackedDials (step w ev).1).
Proof.
  destruct ev; simpl;
    auto using on_request_filed, on_timer_filed, on_result_filed.
Qed.

(** In every state the loop reaches, each tracked dial is filed under its
    own address. *)
Lemma loop_filed p evs :
  filed_under_addr (trackedDials (loop (newDialWorker p) evs).1).
Proof.
  assert (∀ w, filed_under_addr (trackedDials w) →
    filed_under_addr (trackedDials (loop w evs).1)) as H.
  { induction evs as [|ev evs IH]; intros w Hw; [done|].
    destruct ev as [s now req|s now|s now res|];
      [| | |simpl; by rewrite cleanup_tracked].
    all: rewrite loop_tracked_step by done; by apply IH, step_filed. }
  apply H. intros k ad. simpl. by rewrite lookup_empty.
Qed.

End filing_facts.

(** C5. [dispatchError] leaves the dial it is called on untracked exactly
    when the error is the backoff sentinel (or nothing was tracked), and
    touches no other key. Over one round of the loop a tracked dial
    disappears only if that round dispatches the backoff sentinel on it;
    so a dial stays tracked through any run in which that never happens,
    and a request that names a tracked address finds that dial again (as it
    was, or upgraded), never a fresh one. *)
Theorem tracked_dial_deleted_only_by_backoff :
  (∀ s k err w,
     trackedDials (dispatchError s k err w).1 !! k = None
     ↔ err = Some ErrDialBackoff ∨ trackedDials w !! k = None) ∧
  (∀ s k err w k', k' ≠ k →
     is_Some (trackedDials (dispatchError s k err w).1 !! k')
     ↔ is_Some (trackedDials w !! k')) ∧
  (∀ w ev k,
     is_Some (trackedDials w !! k) →
     trackedDials (step w ev).1 !! k = None → backoff_dispatched k w ev) ∧
  (∀ w evs k,
     is_Some (trackedDials w !! k) → never_backoff k w evs →
     is_Some (trackedDials (loop w evs).1 !! k)) ∧
  (∀ w s now req k ad,
     trackedDials w !! k = Some ad →
     ∃ ad', trackedDials (step w (EvRequest s now req)).1 !! k = Some ad' ∧
            (ad' = ad ∨ upgraded req ad ad')).
Proof.
  split_and!.
  - intros s k err w. rewrite dispatchError_tracked. case_bool_decide as Herr.
    + rewrite lookup_delete_eq. split; [by left|done].
    + rewrite lookup_alter_eq. destruct (trackedDials w !! k); simpl.
      * split; [done|]. by intros [?|?].
      * split; [by right|done].
  - intros s k err w k' Hne. rewrite dispatchError_tracked.
    case_bool_decide; by rewrite ?lookup_delete_ne, lookup_alter_ne.
  - intros w ev k [ad Hk] Hgone. pose proof (step_entry w ev k ad Hk) as H.
    by rewrite Hgone in H.
  - apply tracked_until_backoff.
  - intros w s now req k ad Hk. by apply on_request_entry.
Qed.

Lemma tracked_dial_deleted_only_by_backoff_witness :
  backoff_dispatched Scenario.addrA Scenario.tracking_addrA
    (EvTimer Scenario.backing_off 2).
Proof.
  destruct tracked_dial_deleted_only_by_backoff as (_ & _ & Hstep & _).
  apply Hstep.
  - exists Scenario.addrA_dial. vm_compute. reflexivity.
  - vm_compute. reflexivity.
Defined.

(** C9, as the code has it. While a dial stays tracked, over one round of
    the loop a simultaneous-connect context is kept, and the context changes
    only in an upgrade: by a simultaneous-connect request, on a dial neither
    dialed nor errored whose context was not simultaneous-connect, to one
    that is. Hence over any run, until the dial is deleted, its context is
    upgraded at most once. *)
Theorem simconnect_upgrade_once_while_tracked :
  (∀ w ev k ad ad',
     trackedDials w !! k = Some ad →
     trackedDials (step w ev).1 !! k = Some ad' →
     (is_sim (ad_ctx ad) = true → ad_ctx ad' = ad_ctx ad) ∧
     (ad_ctx ad' ≠ ad_ctx ad →
      ∃ s now req, ev = EvRequest s now req ∧ upgraded req ad ad')) ∧
  (∀ w evs k, upgrades k w evs ≤ 1).
Proof.
  split; [|apply upgrades_at_most_once].
  intros w ev k ad ad' Hk Hk'. pose proof (step_entry w ev k ad Hk) as H.
  rewrite Hk' in H. split.
  - intros Hsim. destruct H as [[_ ?]|(s & now & req & _ & Hup)]; [done|].
    destruct Hup as (_ & Hnot & _). congruence.
  - intros Hne. destruct H as [[_ ?]|?]; done.
Qed.

Lemma simconnect_upgrade_once_while_tracked_witness :
  ∃ s now req,
    EvRequest Scenario.dialing 1 (mkRequest Scenario.sim_ctx 2)
      = EvRequest s now req ∧
    upgraded req Scenario.addrA_dial
      (set_ad_ctx (WithSimultaneousConnect Scenario.plain_ctx true "holepunch")
         Scenario.addrA_dial).
Proof.
  destruct simconnect_upgrade_once_while_tracked as [Hstep _].
  destruct (Hstep Scenario.tracking_addrA
              (EvRequest Scenario.dialing 1 (mkRequest Scenario.sim_ctx 2))
              Scenario.addrA Scenario.addrA_dial
              (set_ad_ctx
                 (WithSimultaneousConnect Scenario.plain_ctx true "holepunch")
                 Scenario.addrA_dial)) as [_ Hchanged].
  - vm_compute. reflexivity.
  - vm_compute. reflexivity.
  - apply Hchanged. vm_compute. discriminate.
Defined.

(** C9 fails for an address over the worker's lifetime: [addrA] is tracked
    with a normal context and upgraded; the dial is refused with the backoff
    sentinel and deleted; the next normal request tracks [addrA] afresh with
    a normal context, and a further request upgrades it a second time. *)
Lemma address_downgraded_and_upgraded_twice :
  Scenario.sim_history Scenario.addrA Scenario.retracked_after_backoff
  = [None; Some false; Some true; None; Some false; Some true].
Proof. vm_compute. reflexivity. Qed.

(** ** Worked examples *)

(** The simultaneous-connect upgrade of the queue: an address queued at 10ms
    and added again at delay zero is left with the one, earlier entry. *)
Example add_replaces_the_entry :
  Add (mkAddrDelay "Y" 0) (run [OpAdd (mkAddrDelay "X" 5); OpAdd (mkAddrDelay "Y" 10)])
  = [mkAddrDelay "Y" 0; mkAddrDelay "X" 5].
Proof. reflexivity. Qed.

(** Entries tied for the lowest delay leave the queue together. *)
Example next_batch_takes_the_ties :
  NextBatch (run [OpAdd (mkAddrDelay "Z" 5); OpAdd (mkAddrDelay "X" 0);
                  OpAdd (mkAddrDelay "Y" 0)])
  = ([mkAddrDelay "X" 0; mkAddrDelay "Y" 0], [mkAddrDelay "Z" 5]).
Proof. reflexivity. Qed.

(** A refused dial of [addrA] completes the request that waited on [addrA]
    alone, with the accumulated error, and keeps the one that still waits on
    [addrB]; the dial stays tracked. *)
Example dispatch_error_on_two_waiting :
  let refused := Some (ErrOther "connection refused") in
  let r := dispatchError Scenario.dialing Scenario.addrA refused
             Scenario.two_waiting in
  pendingRequests r.1
  = [mkPend (mkRequest Scenario.plain_ctx 2)
       (mkDialError "peer" [mkTransportError Scenario.addrA refused] None)
       {[Scenario.addrB]}] ∧
  r.2 = [(1, mkResponse None
               (Some (DialFailure
                  (mkDialError "peer"
                     [mkTransportError Scenario.addrA refused]
                     (Some ErrAllDialsFailed)))))].
Proof. vm_compute. done. Qed.

(** The first request of the closed-while-pending run is tracked, queued and
    armed on the timer, and nothing is sent. *)
Example first_request_is_tracked :
  let r := step (newDialWorker "peer")
             (EvRequest Scenario.dialing 0 (mkRequest Scenario.plain_ctx 7)) in
  dq r.1 = [mkAddrDelay Scenario.addrA 10000000] ∧
  timer r.1 = Some 0%Z ∧
  is_Some (trackedDials r.1 !! Scenario.addrA) ∧
  r.2 = [].
Proof. vm_compute. split_and!; eauto. Qed.

(** ** More on the dial queue *)

Section dial_queue_more.

Implicit Types (q : dialQueue) (a x : AddrDelay).

Lemma add_place_length a q : length (add_place a q) = S (length q).
Proof. by rewrite add_place_perm. Qed.

End dial_queue_more.

(** X1. [NextBatch] splits any queue in two: the batch followed by what is
    left is the queue it was called on; the batch is empty only for the
    empty queue; every entry of the batch has the delay of the front entry,
    and the first entry left, if any, has another delay. *)
Theorem next_batch_splits_at_first_other_delay (q : dialQueue) :
  (NextBatch q).1 ++ (NextBatch q).2 = q ∧
  ((NextBatch q).1 = [] ↔ q = []) ∧
  (∀ x, x ∈ (NextBatch q).1 → Some (Delay x) = Delay <$> head q) ∧
  (∀ y, head (NextBatch q).2 = Some y → Some (Delay y) ≠ Delay <$> head q).
Proof.
  destruct q as [|x0 q0].
  { simpl. split_and!; [done|done| |done]. by intros x ?%not_elem_of_nil. }
  unfold NextBatch. cbn [fst snd head fmap option_fmap option_map].
  destruct (batch_end_run (Delay x0) (x0 :: q0)) as [Hin Hout].
  split_and!.
  - apply take_drop.
  - split; [|done]. cbn [batch_end].
    rewrite bool_decide_eq_false_2 by tauto. done.
  - intros x Hx. f_equal. by apply Hin.
  - intros y Hy [= Heq]. by apply (Hout y).
Qed.

(** X2. On a queue reached by [Add] and [NextBatch], every entry that
    [NextBatch] leaves has a strictly larger delay than every entry of the
    batch it returns: batches come out in strictly increasing order of
    delay. *)
Theorem next_batch_precedes_the_rest (ops : list op) (x y : AddrDelay) :
  x ∈ (NextBatch (run ops)).1 → y ∈ (NextBatch (run ops)).2 →
  (Delay x < Delay y)%Z.
Proof.
  destruct (run_inv ops) as [Hnd Hs].
  destruct (run ops) as [|x0 q0] eqn:Hq; [by intros ?%not_elem_of_nil|].
  assert (Hsplit : (NextBatch (x0 :: q0)).1 ++ (NextBatch (x0 :: q0)).2
                   = x0 :: q0) by apply take_drop.
  intros Hx Hy.
  assert (Hxd : Delay x = Delay x0).
  { by apply (proj1 (batch_end_run (Delay x0) (x0 :: q0))). }
  assert (Hyq : y ∈ x0 :: q0).
  { rewrite <- Hsplit. apply elem_of_app. by right. }
  assert (Hlow : ∀ z, z ∈ x0 :: q0 → (Delay x0 ≤ Delay z)%Z).
  { intros z [->|Hz]%elem_of_cons; [lia|].
    apply StronglySorted_inv in Hs as [_ Hall].
    rewrite Forall_forall in Hall. by apply Hall. }
  destruct (decide (Delay y = Delay x0)) as [Heq|Hne].
  2:{ specialize (Hlow y Hyq). lia. }
  exfalso.
  assert (Hyb : y ∈ (NextBatch (x0 :: q0)).1).
  { unfold NextBatch. cbn [fst]. by apply batch_elem_of. }
  unfold addrs_of in Hnd. rewrite <- Hsplit, fmap_app in Hnd.
  apply NoDup_app in Hnd as (_ & Hdisj & _).
  apply (Hdisj (Addr y)); by apply list_elem_of_fmap_2.
Qed.

Lemma next_batch_precedes_the_rest_witness :
  (Delay (mkAddrDelay "X" 0) < Delay (mkAddrDelay "Z" 5))%Z.
Proof.
  apply (next_batch_precedes_the_rest
           [OpAdd (mkAddrDelay "Z" 5); OpAdd (mkAddrDelay "X" 0)]).
  - vm_compute. apply list_elem_of_In. left. reflexivity.
  - vm_compute. apply list_elem_of_In. left. reflexivity.
Defined.

(** X3. On a queue reached by [Add] and [NextBatch], [top] is an entry of
    least delay, and it is part of the next batch. *)
Theorem top_is_least_and_in_next_batch (ops : list op) (t : AddrDelay) :
  top (run ops) = Some t →
  (∀ x, x ∈ run ops → (Delay t ≤ Delay x)%Z) ∧ t ∈ (NextBatch (run ops)).1.
Proof.
  destruct (run_inv ops) as [_ Hs].
  destruct (run ops) as [|x0 q0]; [done|]. intros [= ->].
  assert (Hlow : ∀ z, z ∈ t :: q0 → (Delay t ≤ Delay z)%Z).
  { intros z [->|Hz]%elem_of_cons; [lia|].
    apply StronglySorted_inv in Hs as [_ Hall].
    rewrite Forall_forall in Hall. by apply Hall. }
  split; [done|]. unfold NextBatch. cbn [fst].
  apply batch_elem_of; [done|done|]. split; [|done].
  apply elem_of_cons. by left.
Qed.

Lemma top_is_least_and_in_next_batch_witness :
  (∀ x, x ∈ run [OpAdd (mkAddrDelay "Z" 5); OpAdd (mkAddrDelay "X" 0)] →
        (Delay (mkAddrDelay "X" 0) ≤ Delay x)%Z) ∧
  mkAddrDelay "X" 0
    ∈ (NextBatch (run [OpAdd (mkAddrDelay "Z" 5); OpAdd (mkAddrDelay "X" 0)])).1.
Proof.
  apply (top_is_least_and_in_next_batch
           [OpAdd (mkAddrDelay "Z" 5); OpAdd (mkAddrDelay "X" 0)]).
  reflexivity.
Defined.

(** X4. On a queue reached by [Add] and [NextBatch], [Add] lengthens the
    queue by one when the address is new to it and leaves its length as it
    is when the address is already queued, whatever the delays. *)
Theorem add_grows_only_for_new_address (ops : list op) (a : AddrDelay) :
  length (Add a (run ops))
  = if bool_decide (Addr a ∈ addrs_of (run ops))
    then length (run ops) else S (length (run ops)).
Proof.
  destruct (run_inv ops) as [Hnd Hs].
  pose proof (filter_other_addr_length a (run ops) Hnd) as Hlen.
  unfold Add. rewrite add_scan_nodup by done.
  destruct (decide (a ∈ run ops)) as [Hin|Hin].
  - rewrite (bool_decide_eq_true_2 _ Hin), bool_decide_eq_true_2; [done|].
    apply list_elem_of_fmap. by exists a.
  - rewrite (bool_decide_eq_false_2 _ Hin), add_place_length.
    destruct (bool_decide (Addr a ∈ addrs_of (run ops))); lia.
Qed.

(** X5. On a queue reached by [Add] and [NextBatch], an entry that is not
    yet queued as such is placed behind every entry (of another address)
    whose delay is not larger and in front of every entry whose delay is
    larger: among equal delays, the entry added last is dialed last. *)
Theorem add_places_after_ties (ops : list op) (a : AddrDelay) :
  a ∉ run ops →
  Add a (run ops)
  = filter (λ x, (Delay x ≤ Delay a)%Z)
      (filter (λ x, Addr x ≠ Addr a) (run ops))
    ++ a :: filter (λ x, (Delay a < Delay x)%Z)
              (filter (λ x, Addr x ≠ Addr a) (run ops)).
Proof.
  intros Hnin. destruct (run_inv ops) as [Hnd Hs].
  unfold Add. rewrite add_scan_nodup by done.
  rewrite (bool_decide_eq_false_2 _ Hnin).
  apply add_place_split. eapply sublist_sorted; [|exact Hs].
  apply sublist_filter.
Qed.

Lemma add_places_after_ties_witness :
  Add (mkAddrDelay "Y" 5)
    (run [OpAdd (mkAddrDelay "X" 5); OpAdd (mkAddrDelay "Z" 7)])
  = [mkAddrDelay "X" 5; mkAddrDelay "Y" 5; mkAddrDelay "Z" 7].
Proof.
  rewrite (add_places_after_ties
             [OpAdd (mkAddrDelay "X" 5); OpAdd (mkAddrDelay "Z" 7)]
             (mkAddrDelay "Y" 5)).
  - reflexivity.
  - vm_compute. intros H%list_elem_of_In. simpl in H.
    destruct H as [H|[H|[]]]; discriminate.
Defined.

(** ** More on the UDP mux *)

Import MuxLoop.

Section mux_more.

Implicit Types (s : udpMuxStorage) (c : muxedConnection) (mux : UDPMux).

Lemma remove_key_returned ufrag isIPv6 s s' :
  Storage.remove_key ufrag isIPv6 s = Returned s' tt →
  ufragMap s' = delete (ufrag, isIPv6) (ufragMap s) ∧
  allocated s' = allocated s ∧
  match ufragMap s !! (ufrag, isIPv6) with
  | Some conn =>
      ∃ a, addr_String (conn_Address conn) = Some a ∧
           addrMap s' = delete a (addrMap s)
  | None => addrMap s' = addrMap s
  end.
Proof.
  unfold Storage.remove_key.
  destruct (ufragMap s !! (ufrag, isIPv6)) as [conn|] eqn:Hkey.
  - destruct (addr_String (conn_Address conn)) as [a|]; [|done].
    intros [= <-]. simpl. split_and!; [done|done|]. by exists a.
  - intros [= <-]. split_and!; [|done|done].
    symmetry. by apply delete_id.
Qed.

Lemma RemoveConnByUfrag_returned ufrag s s' :
  Storage.RemoveConnByUfrag ufrag s = Returned s' tt →
  ∃ s1, Storage.remove_key ufrag true s = Returned s1 tt ∧
        Storage.remove_key ufrag false s1 = Returned s' tt.
Proof.
  unfold Storage.RemoveConnByUfrag.
  destruct (Storage.remove_key ufrag true s) as [s1 []|s1]; [|done]. eauto.
Qed.

Lemma remove_key_addr_shrinks ufrag isIPv6 s s' a c :
  Storage.remove_key ufrag isIPv6 s = Returned s' tt →
  addrMap s' !! a = Some c → addrMap s !! a = Some c.
Proof.
  intros (_ & _ & Haddr)%remove_key_returned.
  destruct (ufragMap s !! (ufrag, isIPv6)) as [conn|].
  - destruct Haddr as (a0 & _ & ->). by intros [_ ?]%lookup_delete_Some.
  - by rewrite Haddr.
Qed.

Lemma first_colon_index (remote rest : list byte) :
  colon ∉ remote →
  index_colon (remote ++ colon :: rest) = Z.of_nat (length remote).
Proof.
  induction remote as [|b remote IH]; intros Hno; [done|].
  apply not_elem_of_cons in Hno as [Hb Hno].
  cbn [app index_colon]. rewrite IH by done.
  destruct (Byte.eqb b colon) eqn:Heq.
  { apply Byte.byte_dec_bl in Heq. congruence. }
  rewrite bool_decide_eq_false_2 by lia. simpl length. lia.
Qed.

Lemma index_colon_cases (attr : list byte) :
  (index_colon attr = (-1)%Z ∧ colon ∉ attr) ∨
  (∃ remote rest, attr = remote ++ colon :: rest ∧ colon ∉ remote).
Proof.
  induction attr as [|b attr IH].
  - left. split; [done|apply not_elem_of_nil].
  - cbn [index_colon]. destruct (Byte.eqb b colon) eqn:Heq.
    + apply Byte.byte_dec_bl in Heq as ->. right.
      exists [], attr. split; [done|apply not_elem_of_nil].
    + apply Byte.eqb_false in Heq.
      destruct IH as [[Hidx Hno]|(remote & rest & -> & Hno)].
      * left. rewrite Hidx. split; [done|].
        apply not_elem_of_cons. split; [congruence|done].
      * right. exists (b :: remote), rest. split; [done|].
        apply not_elem_of_cons. split; [congruence|done].
Qed.

Lemma ufrag_of_username b (remote rest : list byte) :
  colon ∉ remote →
  ufragFromSTUNMessage (mkStun b (Some (remote ++ colon :: rest)))
  = inl (String.string_of_list_byte rest).
Proof.
  intros Hno. unfold ufragFromSTUNMessage. simpl.
  rewrite first_colon_index by done.
  rewrite bool_decide_eq_false_2 by lia.
  replace (Z.to_nat (Z.of_nat (length remote) + 1)) with (length remote + 1) by lia.
  rewrite <- drop_drop, drop_app_length. done.
Qed.

Lemma processPacket_inv e buf addr s :
  table_inv s → table_inv (state_of (processPacket e buf addr s)).
Proof.
  intros Hinv. unfold processPacket.
  destruct addr as [|a| |]; [done| |done|done]. cbn [as_UDPAddr].
  unfold Storage.GetConnByAddr.
  destruct (addrMap s !! udp_string a) as [conn|]; [done|].
  destruct (dg_is_stun buf); [|done]. simpl.
  destruct (dg_decoded buf) as [msg|]; [|done].
  destruct (msg_is_binding_request msg); [|done]. simpl.
  destruct (ufragFromSTUNMessage msg) as [ufrag|]; [|done].
  pose proof (GetOrCreateConn_inv ufrag (negb (udp_is_v4 a)) (AddrUDP a) s Hinv)
    as H1.
  destruct (Storage.GetOrCreateConn ufrag (negb (udp_is_v4 a)) (AddrUDP a) s)
    as [s1 [created conn']|s1]; [|done].
  destruct (created && negb (unknownUfragCallback e ufrag a)); [|done].
  pose proof (RemoveConnByUfrag_inv (conn_hook_ufrag conn') s1 H1) as H2.
  unfold conn_Close.
  by destruct (Storage.RemoveConnByUfrag (conn_hook_ufrag conn') s1)
    as [s2 []|s2].
Qed.

Lemma GetConn_inv ufrag addr mux :
  table_inv (storage mux) →
  table_inv (storage (state_of (GetConn ufrag addr mux))).
Proof.
  intros Hinv.
  assert (∀ f, table_inv
                 (storage (state_of (getOrCreateConn ufrag f addr mux)))) as Hg.
  { intros f. unfold getOrCreateConn. destruct (ctx_done mux); [done|].
    pose proof (GetOrCreateConn_inv ufrag f addr (storage mux) Hinv) as H1.
    by destruct (Storage.GetOrCreateConn ufrag f addr (storage mux))
      as [s1 [created conn]|s1]. }
  unfold GetConn. destruct addr; simpl; try done; apply Hg.
Qed.

Lemma mux_RemoveConnByUfrag_inv ufrag mux :
  table_inv (storage mux) →
  table_inv (storage (state_of (RemoveConnByUfrag ufrag mux))).
Proof.
  intros Hinv. unfold RemoveConnByUfrag. case_bool_decide; [|done].
  pose proof (RemoveConnByUfrag_inv ufrag (storage mux) Hinv) as H1.
  by destruct (Storage.RemoveConnByUfrag ufrag (storage mux)) as [s1 []|s1].
Qed.

Lemma run_mux_inv ops : table_inv (storage (run_mux ops)).
Proof.
  induction ops as [|o ops IH] using rev_ind.
  - intros a c. unfold run_mux. simpl. by rewrite lookup_empty.
  - unfold run_mux in *. rewrite foldl_snoc. destruct o; simpl.
    + by apply GetConn_inv.
    + by apply mux_RemoveConnByUfrag_inv.
    + unfold Close. by destruct (ctx_done _).
    + by apply processPacket_inv.
Qed.

Lemma GetOrCreateConn_registers ufrag f addr s s1 b c :
  Storage.GetOrCreateConn ufrag f addr s = Returned s1 (b, c) →
  ufragMap s1 !! (ufrag, f) = Some c.
Proof.
  unfold Storage.GetOrCreateConn.
  destruct (ufragMap s !! (ufrag, f)) as [c0|] eqn:Hk.
  - by intros [= <- _ <-].
  - destruct (addr_String addr); [|done].
    intros [= <- _ <-]. simpl. by rewrite lookup_insert_eq.
Qed.

Lemma GetOrCreateConn_found ufrag f addr s c :
  ufragMap s !! (ufrag, f) = Some c →
  Storage.GetOrCreateConn ufrag f addr s = Returned s (false, c).
Proof. intros Hk. unfold Storage.GetOrCreateConn. by rewrite Hk. Qed.

Lemma GetConn_returned ufrag addr mux mux' c :
  GetConn ufrag addr mux = Returned mux' (Some c, None) →
  ∃ f, family_of addr = Some f ∧ ctx_done mux' = false ∧
       ufragMap (storage mux') !! (ufrag, f) = Some c.
Proof.
  unfold GetConn, getOrCreateConn.
  destruct addr as [|a|o|]; simpl; [| |done|done].
  - destruct (ctx_done mux) eqn:Hopen; [done|].
    destruct (Storage.GetOrCreateConn ufrag false AddrNil (storage mux))
      as [s1 [b c1]|s1] eqn:Hget; [|done].
    intros [= <- <-]. exists false. split_and!; [done|done|].
    simpl. by eapply GetOrCreateConn_registers.
  - destruct (ctx_done mux) eqn:Hopen; [done|].
    destruct (Storage.GetOrCreateConn ufrag (negb (udp_is_v4 a)) (AddrUDP a)
                (storage mux)) as [s1 [b c1]|s1] eqn:Hget; [|done].
    intros [= <- <-]. exists (negb (udp_is_v4 a)). split_and!; [done|done|].
    simpl. by eapply GetOrCreateConn_registers.
Qed.

Lemma GetConn_found ufrag addr mux f c :
  family_of addr = Some f → ctx_done mux = false →
  ufragMap (storage mux) !! (ufrag, f) = Some c →
  GetConn ufrag addr mux = Returned mux (Some c, None).
Proof.
  intros Hfam Hopen Hk. unfold GetConn, getOrCreateConn.
  destruct addr as [|a|o|]; simpl in *; [| |done|done].
  all: injection Hfam as <-; rewrite Hopen.
  all: rewrite (GetOrCreateConn_found _ _ _ _ _ Hk).
  all: destruct mux; simpl in *; by subst.
Qed.

End mux_more.

(** X6. When [GetConn] has returned a flow for a ufrag, a further [GetConn]
    for that ufrag with any address of the same family (the nil address
    counting as IPv4) returns that same flow and changes nothing: there is
    one flow per ufrag and family, and the address of a later call is not
    looked at. *)
Theorem get_conn_again_returns_the_same_flow
    (ufrag : string) (addr addr' : NetAddr) (mux mux' : UDPMux)
    (c : muxedConnection) :
  GetConn ufrag addr mux = Returned mux' (Some c, None) →
  family_of addr' = family_of addr →
  GetConn ufrag addr' mux' = Returned mux' (Some c, None).
Proof.
  intros (f & Hfam & Hopen & Hk)%GetConn_returned Hfam'.
  apply (GetConn_found _ _ _ f); [congruence|done|done].
Qed.

Lemma get_conn_again_returns_the_same_flow_witness :
  GetConn "u" AddrNil
    {| storage := {| ufragMap := {[ ("u", false) := mkConn 0 "u" (AddrUDP addr1) ]};
                     addrMap := {[ "192.0.2.1:4001" := mkConn 0 "u" (AddrUDP addr1) ]};
                     allocated := 1 |};
       ctx_done := false |}
  = Returned
      {| storage := {| ufragMap := {[ ("u", false) := mkConn 0 "u" (AddrUDP addr1) ]};
                       addrMap := {[ "192.0.2.1:4001" := mkConn 0 "u" (AddrUDP addr1) ]};
                       allocated := 1 |};
         ctx_done := false |}
      (Some (mkConn 0 "u" (AddrUDP addr1)), None).
Proof.
  apply (get_conn_again_returns_the_same_flow "u" (AddrUDP addr1) AddrNil NewUDPMux).
  - vm_compute. reflexivity.
  - reflexivity.
Defined.

(** X7. When [RemoveConnByUfrag] of the storage returns, neither family has
    a flow under that ufrag, the flows of every other ufrag are registered
    as before, no address binding is added, and (in a table that files each
    bound flow under its own address, as every reached table does) no
    address is bound to a flow that was removed. *)
Theorem remove_clears_both_families_and_their_addresses
    (ufrag : string) (s s' : udpMuxStorage) :
  table_inv s →
  Storage.RemoveConnByUfrag ufrag s = Returned s' tt →
  ufragMap s' !! (ufrag, true) = None ∧
  ufragMap s' !! (ufrag, false) = None ∧
  (∀ u f, u ≠ ufrag → ufragMap s' !! (u, f) = ufragMap s !! (u, f)) ∧
  (∀ a c, addrMap s' !! a = Some c → addrMap s !! a = Some c) ∧
  (∀ f c a, ufragMap s !! (ufrag, f) = Some c → addrMap s' !! a ≠ Some c).
Proof.
  intros Hinv (s1 & H1 & H2)%RemoveConnByUfrag_returned.
  pose proof (remove_key_returned _ _ _ _ H1) as (Hu1 & _ & Ha1).
  pose proof (remove_key_returned _ _ _ _ H2) as (Hu2 & _ & Ha2).
  assert (Hshrink : ∀ a c, addrMap s' !! a = Some c → addrMap s !! a = Some c).
  { intros a c Hac. eapply remove_key_addr_shrinks; [exact H1|].
    by eapply remove_key_addr_shrinks. }
  split_and!.
  - rewrite Hu2, Hu1, lookup_delete_ne, lookup_delete_eq; done.
  - by rewrite Hu2, lookup_delete_eq.
  - intros u f Hne. rewrite Hu2, Hu1, !lookup_delete_ne; [done|..];
      intros [= ?]; done.
  - done.
  - intros f c a Hc Hac.
    destruct (Hinv a c (Hshrink a c Hac)) as [Hstr _].
    destruct f.
    + rewrite Hc in Ha1. destruct Ha1 as (a0 & Ha0 & Hdel).
      assert (a0 = a) as -> by congruence.
      eapply remove_key_addr_shrinks in Hac; [|exact H2].
      rewrite Hdel, lookup_delete_eq in Hac. done.
    + assert (ufragMap s1 !! (ufrag, false) = Some c) as Hc1.
      { rewrite Hu1, lookup_delete_ne; done. }
      rewrite Hc1 in Ha2. destruct Ha2 as (a0 & Ha0 & Hdel).
      assert (a0 = a) as -> by congruence.
      rewrite Hdel, lookup_delete_eq in Hac. done.
Qed.

Lemma remove_clears_both_families_and_their_addresses_witness :
  ufragMap (Storage.run [Storage.OpGetOrCreateConn "u" false (AddrUDP addr1);
                         Storage.OpRemoveConnByUfrag "u"]) !! ("u", false)
  = None.
Proof.
  destruct (remove_clears_both_families_and_their_addresses "u"
              (Storage.run [Storage.OpGetOrCreateConn "u" false (AddrUDP addr1)])
              (Storage.run [Storage.OpGetOrCreateConn "u" false (AddrUDP addr1);
                            Storage.OpRemoveConnByUfrag "u"]))
    as (_ & H & _).
  - apply storage_run_inv.
  - vm_compute. reflexivity.
  - exact H.
Defined.

(** X8. Creating a flow and removing its ufrag is a round trip for the
    address: when [GetOrCreateConn] has created a flow from a UDP address
    and [RemoveConnByUfrag] for that ufrag then returns, [GetConnByAddr]
    finds nothing under the address, in any table. *)
Theorem created_flow_is_unbound_by_remove
    (ufrag : string) (isIPv6 : bool) (a : UDPAddr)
    (s s1 s2 : udpMuxStorage) (c : muxedConnection) :
  Storage.GetOrCreateConn ufrag isIPv6 (AddrUDP a) s = Returned s1 (true, c) →
  Storage.RemoveConnByUfrag ufrag s1 = Returned s2 tt →
  Storage.GetConnByAddr a s2 = (None, false) ∧
  ufragMap s2 !! (ufrag, isIPv6) = None.
Proof.
  intros Hcreate (s' & H1 & H2)%RemoveConnByUfrag_returned.
  pose proof (GetOrCreateConn_registers _ _ _ _ _ _ _ Hcreate) as Hk.
  assert (conn_Address c = AddrUDP a) as Haddr.
  { revert Hcreate. unfold Storage.GetOrCreateConn.
    destruct (ufragMap s !! (ufrag, isIPv6)); [done|]. simpl.
    by intros [= _ <-]. }
  pose proof (remove_key_returned _ _ _ _ H1) as (Hu1 & _ & Ha1).
  pose proof (remove_key_returned _ _ _ _ H2) as (Hu2 & _ & Ha2).
  assert (addrMap s2 !! udp_string a = None) as Hgone.
  { destruct (addrMap s2 !! udp_string a) as [c'|] eqn:Hac; [|done]. exfalso.
    destruct isIPv6.
    - rewrite Hk in Ha1. destruct Ha1 as (a0 & Ha0 & Hdel).
      rewrite Haddr in Ha0. injection Ha0 as <-.
      eapply remove_key_addr_shrinks in Hac; [|exact H2].
      by rewrite Hdel, lookup_delete_eq in Hac.
    - assert (ufragMap s' !! (ufrag, false) = Some c) as Hk1.
      { rewrite Hu1, lookup_delete_ne; done. }
      rewrite Hk1 in Ha2. destruct Ha2 as (a0 & Ha0 & Hdel).
      rewrite Haddr in Ha0. injection Ha0 as <-.
      by rewrite Hdel, lookup_delete_eq in Hac. }
  split.
  - unfold Storage.GetConnByAddr. by rewrite Hgone.
  - rewrite Hu2, Hu1. destruct isIPv6.
    + rewrite lookup_delete_ne, lookup_delete_eq; done.
    + by rewrite lookup_delete_eq.
Qed.

Lemma created_flow_is_unbound_by_remove_witness :
  Storage.GetConnByAddr addr1
    (Storage.run [Storage.OpGetOrCreateConn "u" false (AddrUDP addr1);
                  Storage.OpRemoveConnByUfrag "u"]) = (None, false) ∧
  ufragMap (Storage.run [Storage.OpGetOrCreateConn "u" false (AddrUDP addr1);
                         Storage.OpRemoveConnByUfrag "u"]) !! ("u", false)
  = None.
Proof.
  apply (created_flow_is_unbound_by_remove "u" false addr1
           Storage.newUDPMuxStorage
           (Storage.run [Storage.OpGetOrCreateConn "u" false (AddrUDP addr1)])
           _ (mkConn 0 "u" (AddrUDP addr1))).
  - vm_compute. reflexivity.
  - vm_compute. reflexivity.
Defined.

(** X9. [Close] is idempotent, and after it [GetConn] creates nothing and
    leaves the mux as it is: for a non-nil UDP address and for the nil
    interface it returns the closed-pipe error (without the panic the nil
    interface can cause on an open mux), for an address of another type the
    unexpected-type error; for a nil UDP address pointer held in the
    interface it panics, closed or not, since the address is inspected
    before the closed check. *)
Theorem get_conn_after_close_fails_without_effect
    (ufrag : string) (addr : NetAddr) (mux : UDPMux) :
  Close (Close mux) = Close mux ∧
  storage (Close mux) = storage mux ∧
  GetConn ufrag addr (Close mux)
  = match addr with
    | AddrNil | AddrUDP _ =>
        Returned (Close mux) (None, Some ErrClosedPipe)
    | AddrOther _ =>
        Returned (Close mux) (None, Some ErrUnexpectedAddressType)
    | AddrUDPNil => Panicked (Close mux)
    end.
Proof.
  assert (ctx_done (Close mux) = true) as Hdone.
  { unfold Close. by destruct (ctx_done mux) eqn:H. }
  split_and!.
  - unfold Close at 1. by rewrite Hdone.
  - unfold Close. by destruct (ctx_done mux).
  - unfold GetConn, getOrCreateConn. rewrite Hdone. by destruct addr.
Qed.

(** X10. [ufragFromSTUNMessage] returns a ufrag exactly when the USERNAME
    attribute is present and holds a colon, and the ufrag is then what
    follows the first colon; it reports an invalid username exactly when the
    attribute is present without a colon. In particular the username
    [remote:local], with no colon in [remote], yields [local]. *)
Theorem ufrag_is_what_follows_the_first_colon (msg : stunMessage) :
  (∀ u, ufragFromSTUNMessage msg = inl u ↔
        ∃ remote rest,
          msg_username msg = Some (remote ++ colon :: rest) ∧
          (colon ∉ remote) ∧ u = String.string_of_list_byte rest) ∧
  (ufragFromSTUNMessage msg = inr ErrInvalidUsername ↔
   ∃ attr, msg_username msg = Some attr ∧ colon ∉ attr) ∧
  (∀ remote local,
     colon ∉ String.list_byte_of_string remote →
     msg_username msg
     = Some (String.list_byte_of_string remote
               ++ colon :: String.list_byte_of_string local) →
     ufragFromSTUNMessage msg = inl local).
Proof.
  destruct msg as [b [attr|]].
  2:{ split_and!.
      - intros u. split; [done|]. by intros (? & ? & ? & _).
      - split; [done|]. by intros (? & ? & _).
      - done. }
  split_and!.
  - intros u. split.
    + destruct (index_colon_cases attr) as [[Hidx Hno]|(remote & rest & -> & Hno)].
      * unfold ufragFromSTUNMessage. simpl. rewrite Hidx. done.
      * rewrite ufrag_of_username by done. intros [= <-]. eauto.
    + intros (remote & rest & [= ->] & Hno & ->). by apply ufrag_of_username.
  - split.
    + destruct (index_colon_cases attr) as [[Hidx Hno]|(remote & rest & -> & Hno)].
      * eauto.
      * by rewrite ufrag_of_username.
    + intros (attr' & [= <-] & Hno).
      destruct (index_colon_cases attr) as [[Hidx _]|(remote & rest & -> & _)].
      * unfold ufragFromSTUNMessage. simpl. by rewrite Hidx.
      * exfalso. apply Hno, elem_of_app. right. apply elem_of_cons. by left.
  - intros remote local Hno [= ->]. rewrite ufrag_of_username by done.
    by rewrite String.string_of_list_byte_of_string.
Qed.

(** X11. [processPacket] changes the flow table only on a binding request
    for a new flow: if the table is not left as it was, the packet came from
    a UDP address bound to no flow, was a STUN message that decoded to a
    binding request, and carried a username with a colon whose ufrag had no
    flow in the family of the source. The table it leaves is then this one:
    a flow for that ufrag, family and source is registered in both maps;
    when the unknown-ufrag callback accepts it, nothing else happens; when
    the callback rejects it, the new flow is closed, which runs
    [RemoveConnByUfrag] for the ufrag on the table with the new flow, and so
    removes, beside the new flow, the flow the ufrag had in the other family
    and the address binding of that flow. Anything else is pushed to a known
    flow or dropped. *)
Theorem only_new_binding_requests_change_the_table
    (e : collaborators) (buf : datagram) (addr : NetAddr) (s : udpMuxStorage) :
  state_of (processPacket e buf addr s) ≠ s →
  ∃ a msg ufrag,
    addr = AddrUDP a ∧
    Storage.GetConnByAddr a s = (None, false) ∧
    dg_is_stun buf = true ∧
    dg_decoded buf = Some msg ∧
    msg_is_binding_request msg = true ∧
    ufragFromSTUNMessage msg = inl ufrag ∧
    ufragMap s !! (ufrag, negb (udp_is_v4 a)) = None ∧
    state_of (processPacket e buf addr s)
    = (let c := mkConn (allocated s) ufrag (AddrUDP a) in
       let s1 :=
         {| ufragMap := <[(ufrag, negb (udp_is_v4 a)) := c]> (ufragMap s);
            addrMap := <[udp_string a := c]> (addrMap s);
            allocated := S (allocated s) |} in
       if unknownUfragCallback e ufrag a then s1
       else state_of (Storage.RemoveConnByUfrag ufrag s1)).
Proof.
  unfold processPacket. destruct addr as [|a| |]; [done| |done|done]. cbn [as_UDPAddr].
  unfold Storage.GetConnByAddr.
  destruct (addrMap s !! udp_string a) as [conn|] eqn:Hbound; [done|].
  destruct (dg_is_stun buf) eqn:Hstun; [|done]. simpl.
  destruct (dg_decoded buf) as [msg|] eqn:Hdec; [|done].
  destruct (msg_is_binding_request msg) eqn:Hreq; [|done]. simpl.
  destruct (ufragFromSTUNMessage msg) as [ufrag|] eqn:Hufrag; [|done].
  destruct (ufragMap s !! (ufrag, negb (udp_is_v4 a))) as [c0|] eqn:Hkey.
  { rewrite (GetOrCreateConn_found _ _ _ _ _ Hkey). done. }
  intros _. exists a, msg, ufrag. split_and!; try done.
  { by rewrite Hbound. }
  unfold Storage.GetOrCreateConn. rewrite Hkey. simpl.
  destruct (unknownUfragCallback e ufrag a); simpl; [done|].
  unfold conn_Close. simpl.
  by destruct (Storage.RemoveConnByUfrag ufrag _) as [s2 []|s2].
Qed.

Lemma only_new_binding_requests_change_the_table_witness :
  ∃ a msg ufrag,
    AddrUDP addr1 = AddrUDP a ∧
    Storage.GetConnByAddr a table_with_ipv6_flow = (None, false) ∧
    dg_is_stun (binding_request "Bfrag" "Afrag") = true ∧
    dg_decoded (binding_request "Bfrag" "Afrag") = Some msg ∧
    msg_is_binding_request msg = true ∧
    ufragFromSTUNMessage msg = inl ufrag ∧
    ufragMap table_with_ipv6_flow !! (ufrag, negb (udp_is_v4 a)) = None ∧
    state_of (processPacket rejecting (binding_request "Bfrag" "Afrag")
                (AddrUDP addr1) table_with_ipv6_flow)
    = (let c := mkConn (allocated table_with_ipv6_flow) ufrag (AddrUDP a) in
       let s1 :=
         {| ufragMap :=
              <[(ufrag, negb (udp_is_v4 a)) := c]>
                (ufragMap table_with_ipv6_flow);
            addrMap := <[udp_string a := c]> (addrMap table_with_ipv6_flow);
            allocated := S (allocated table_with_ipv6_flow) |} in
       if unknownUfragCallback rejecting ufrag a then s1
       else state_of (Storage.RemoveConnByUfrag ufrag s1)).
Proof.
  apply (only_new_binding_requests_change_the_table rejecting).
  vm_compute. discriminate.
Defined.

(** The rejected binding request of the witness above, run: the table held
    the IPv6 flow of [Afrag] and its address binding, and holds nothing
    afterwards. *)
Example rejected_binding_request_removes_the_other_family :
  ufragMap table_with_ipv6_flow !! ("Afrag", true)
  = Some (mkConn 0 "Afrag" (AddrUDP addr6)) ∧
  addrMap table_with_ipv6_flow !! udp_string addr6
  = Some (mkConn 0 "Afrag" (AddrUDP addr6)) ∧
  processPacket rejecting (binding_request "Bfrag" "Afrag") (AddrUDP addr1)
    table_with_ipv6_flow
  = Returned {| ufragMap := ∅; addrMap := ∅; allocated := 2 |} (false, None).
Proof. split_and!; vm_compute; reflexivity. Qed.

(** X12. A binding request with username [remote:local] from a UDP address
    bound to no flow, for a ufrag with no flow in that family, which the
    unknown-ufrag callback accepts, creates a flow, registers it and pushes
    the packet to it; from then on every packet from that address, whatever
    it holds, is pushed to that flow and leaves the table as it is. *)
Theorem accepted_binding_request_routes_its_source
    (e : collaborators) (remote local : string) (a : UDPAddr)
    (s : udpMuxStorage) :
  colon ∉ String.list_byte_of_string remote →
  addrMap s !! udp_string a = None →
  ufragMap s !! (local, negb (udp_is_v4 a)) = None →
  unknownUfragCallback e local a = true →
  ∃ s1 c,
    processPacket e (binding_request remote local) (AddrUDP a) s
      = Returned s1 (Push e c, Some c) ∧
    ufragMap s1 !! (local, negb (udp_is_v4 a)) = Some c ∧
    conn_Address c = AddrUDP a ∧
    ∀ e' buf',
      processPacket e' buf' (AddrUDP a) s1 = Returned s1 (Push e' c, Some c).
Proof.
  intros Hno Hbound Hkey Hcb.
  pose proof (ufrag_of_username true _ (String.list_byte_of_string local) Hno)
    as Hufrag.
  rewrite String.string_of_list_byte_of_string in Hufrag.
  unfold processPacket, binding_request, Storage.GetConnByAddr.
  cbn [as_UDPAddr]. rewrite Hbound. cbn [dg_is_stun dg_decoded msg_is_binding_request negb].
  rewrite Hufrag. unfold Storage.GetOrCreateConn. rewrite Hkey.
  cbn [addr_String]. rewrite Hcb. cbn [negb andb].
  do 2 eexists. split_and!; [done| | |].
  - cbn [ufragMap]. by rewrite lookup_insert_eq.
  - done.
  - intros e' buf'. cbn [addrMap]. by rewrite lookup_insert_eq.
Qed.

Lemma accepted_binding_request_routes_its_source_witness :
  ∃ s1 c,
    processPacket accepting (binding_request "Bfrag" "Afrag") (AddrUDP addr1)
      Storage.newUDPMuxStorage
      = Returned s1 (Push accepting c, Some c) ∧
    ufragMap s1 !! ("Afrag", negb (udp_is_v4 addr1)) = Some c ∧
    conn_Address c = AddrUDP addr1 ∧
    ∀ e' buf',
      processPacket e' buf' (AddrUDP addr1) s1 = Returned s1 (Push e' c, Some c).
Proof.
  apply (accepted_binding_request_routes_its_source accepting "Bfrag" "Afrag"
           addr1 Storage.newUDPMuxStorage).
  - vm_compute. intros H%list_elem_of_In. simpl in H.
    repeat (destruct H as [H|H]; [discriminate|]). exact H.
  - reflexivity.
  - reflexivity.
  - reflexivity.
Defined.

(** X13. In every state the mux reaches through [GetConn],
    [RemoveConnByUfrag], [Close] and the packets its read loop processes
    (also across a panic, and when the callback rejects a new flow), a flow
    bound to an address is registered under some ufrag key and is bound
    under its own remote address. *)
Theorem mux_address_bindings_are_registered (ops : list mux_op)
    (a : string) (c : muxedConnection) :
  addrMap (storage (run_mux ops)) !! a = Some c →
  addr_String (conn_Address c) = Some a ∧
  ∃ k, ufragMap (storage (run_mux ops)) !! k = Some c.
Proof. apply run_mux_inv. Qed.

Lemma mux_address_bindings_are_registered_witness :
  addr_String (conn_Address (mkConn 0 "Afrag" (AddrUDP addr1)))
    = Some "192.0.2.1:4001" ∧
  ∃ k, ufragMap (storage (run_mux
         [OpPacket accepting (binding_request "Bfrag" "Afrag") (AddrUDP addr1)]))
       !! k = Some (mkConn 0 "Afrag" (AddrUDP addr1)).
Proof.
  apply (mux_address_bindings_are_registered
           [OpPacket accepting (binding_request "Bfrag" "Afrag") (AddrUDP addr1)]).
  vm_compute. reflexivity.
Defined.

(** ** More on the dial worker *)

Import WorkerInvariants.

Section worker_flags.

Implicit Types (w : dialWorker) (s : Swarm) (k : Multiaddr).

Lemma dispatchError_frame s k err w :
  connected (dispatchError s k err w).1 = connected w ∧
  dq (dispatchError s k err w).1 = dq w ∧
  timer (dispatchError s k err w).1 = timer w ∧
  dialsInFlight (dispatchError s k err w).1 = dialsInFlight w.
Proof.
  unfold dispatchError.
  by destruct (dispatch_pending s k err (pendingRequests w)).
Qed.

Lemma handleSuccess_frame s k rc w :
  (connected w = true → connected (handleSuccess s k rc w).1 = true) ∧
  dq (handleSuccess s k rc w).1 = dq w ∧
  timer (handleSuccess s k rc w).1 = timer w.
Proof.
  unfold handleSuccess.
  case_bool_decide as Hpeer.
  { destruct (dispatchError_frame s k (Some ErrTransportBug) w) as (-> & -> & -> & _).
    done. }
  destruct (addConn s rc) as [conn [e|]].
  { destruct (dispatchError_frame s k (Some e) w) as (-> & -> & -> & _). done. }
  by destruct (deliver_conn k conn (pendingRequests w)).
Qed.

Lemma scheduleNextDial_frame w :
  connected (scheduleNextDial w) = connected w ∧
  dq (scheduleNextDial w) = dq w.
Proof.
  unfold scheduleNextDial. destruct (top (dq w)); [|done].
  by destruct (bool_decide _ && _).
Qed.

Lemma scheduleNextDial_armed w :
  dq (scheduleNextDial w) ≠ [] → is_Some (timer (scheduleNextDial w)).
Proof.
  unfold scheduleNextDial. destruct (dq w) as [|t q] eqn:Hq; simpl.
  - by rewrite Hq.
  - destruct (bool_decide _ && _); simpl; eauto.
Qed.

Lemma addNewRequest_connected s now req addrs addrErrs w :
  connected (addNewRequest s now req addrs addrErrs w).1 = connected w.
Proof.
  unfold addNewRequest. destruct (foldl _ _ _) as [[tracked q] pr].
  by case_bool_decide.
Qed.

Lemma dial_one_connected s now (st : dialWorker * list output) adelay :
  connected (dial_one s now st adelay).1 = connected st.1.
Proof.
  destruct st as [w out]. unfold dial_one.
  destruct (trackedDials w !! Addr adelay) as [ad|]; [|done].
  destruct (dialNextAddr s _ _) as [e|]; [|done].
  set (w1 := set_tracked _ w).
  destruct (dispatchError_frame s (Addr adelay) (Some e) w1) as (H & _).
  by destruct (dispatchError s (Addr adelay) (Some e) w1).
Qed.

Lemma step_connected w ev :
  connected w = true → connected (step w ev).1 = true.
Proof.
  intros Hc. destruct ev as [s now req|s now|s now res|]; simpl; [| | |done].
  - unfold on_request.
    destruct (bestAcceptableConnToPeer s (req_ctx req)) as [c err].
    destruct (bool_decide (is_Some c) || bool_decide (is_Some err)); [done|].
    destruct (addrsForDial s (req_ctx req)) as [[addrs addrErrs] [e|]]; [done|].
    destruct (tracked_conn (trackedDials w) addrs); [done|].
    pose proof (addNewRequest_connected s now req addrs addrErrs w) as H.
    destruct (addNewRequest s now req addrs addrErrs w) as [w1 out].
    cbn [fst] in *. destruct (scheduleNextDial_frame w1) as [-> _]. congruence.
  - unfold on_timer. destruct (NextBatch (dq w)) as [batch rest].
    assert (∀ l st, connected (foldl (dial_one s now) st l).1 = connected st.1)
      as Hfold.
    { induction l as [|x l IH]; intros st; [done|].
      simpl. by rewrite IH, dial_one_connected. }
    specialize (Hfold batch (set_dq rest w, [])).
    destruct (foldl _ _ _) as [w1 out]. cbn [fst] in *.
    destruct (scheduleNextDial_frame (set_timer None w1)) as [-> _].
    simpl in *. congruence.
  - unfold on_result. destruct (trackedDials w !! res_Addr res) as [ad|]; [|done].
    destruct (res_Kind res).
    { cbn [fst]. by destruct (scheduleNextDial_frame
        (set_tracked (<[res_Addr res:=set_ad_startTime now ad]> (trackedDials w)) w))
        as [-> _]. }
    set (w1 := set_inflight _ w).
    assert (connected
      (match res_Conn res with
       | Some rc => handleSuccess s (res_Addr res) rc w1
       | None => handleError s (res_Addr res) res w1
       end).1 = true) as H.
    { destruct (res_Conn res) as [rc|].
      - by apply handleSuccess_frame.
      - unfold handleError.
        by destruct (dispatchError_frame s (res_Addr res) (res_Err res) w1)
          as [-> _]. }
    destruct (match res_Conn res with Some _ => _ | None => _ end) as [w2 out].
    cbn [fst] in *. by destruct (scheduleNextDial_frame w2) as [-> _].
Qed.

Lemma cleanup_connected w evs : connected (cleanup w evs) = connected w.
Proof.
  revert w. induction evs as [|ev evs IH]; intros w; simpl.
  - by case_bool_decide.
  - case_bool_decide; [|done]. destruct ev; rewrite IH; done.
Qed.

Lemma loop_connected_step w ev evs :
  ev ≠ EvClose →
  connected (loop w (ev :: evs)).1 = connected (loop (step w ev).1 evs).1.
Proof.
  intros Hev. destruct ev; try done; simpl;
    match goal with |- context [loop ?w1.1 _] =>
      destruct w1 as [w1' o]; simpl; by destruct (loop w1' evs) end.
Qed.

(** After a round of the loop either [scheduleNextDial] ran last, or the
    queue and the timer are as they were. *)
Lemma step_schedules_or_keeps w ev :
  (∃ w', (step w ev).1 = scheduleNextDial w') ∨
  (dq (step w ev).1 = dq w ∧ timer (step w ev).1 = timer w).
Proof.
  destruct ev as [s now req|s now|s now res|]; simpl; [| | |by right].
  - unfold on_request.
    destruct (bestAcceptableConnToPeer s (req_ctx req)) as [c err].
    destruct (bool_decide (is_Some c) || bool_decide (is_Some err)); [by right|].
    destruct (addrsForDial s (req_ctx req)) as [[addrs addrErrs] [e|]];
      [by right|].
    destruct (tracked_conn (trackedDials w) addrs); [by right|].
    destruct (addNewRequest s now req addrs addrErrs w) as [w1 out].
    left. by exists w1.
  - unfold on_timer. destruct (NextBatch (dq w)) as [batch rest].
    destruct (foldl _ _ _) as [w1 out]. left. by eexists.
  - unfold on_result. destruct (trackedDials w !! res_Addr res) as [ad|];
      [|by right].
    destruct (res_Kind res); [left; by eexists|].
    destruct (match res_Conn res with Some _ => _ | None => _ end) as [w2 out].
    left. by exists w2.
Qed.

Lemma states_reached (P : dialWorker → Prop) w0 evs w :
  (∀ w ev, P w → P (step w ev).1) → P w0 → w ∈ states w0 evs → P w.
Proof.
  intros Hstep. revert w0. induction evs as [|ev evs IH]; intros w0 H0; simpl.
  - by intros ->%list_elem_of_singleton.
  - intros [->|Hin]%elem_of_cons; [done|]. eapply IH; [|exact Hin]. by apply Hstep.
Qed.

End worker_flags.

(** X14. [connected] is a latch: once a connection has been established it
    stays set through every further round of the loop and through
    [cleanup]. *)
Theorem connected_is_never_reset (w : dialWorker) (evs : list event) :
  connected w = true → connected (loop w evs).1 = true.
Proof.
  revert w. induction evs as [|ev evs IH]; intros w Hc; [done|].
  destruct ev as [s now req|s now|s now res|];
    [| | |simpl; by rewrite cleanup_connected].
  all: rewrite loop_connected_step by done; by apply IH, step_connected.
Qed.

Lemma connected_is_never_reset_witness :
  connected (loop (set_connected true Scenario.tracking_addrA)
               [EvTimer Scenario.backing_off 2; EvClose]).1 = true.
Proof. apply connected_is_never_reset. reflexivity. Defined.

(** X15. In every state the loop reaches, a non-empty dial queue has the
    dial timer running: queued addresses are never left without a timer to
    dial them. *)
Theorem queued_dials_have_a_running_timer
    (p : PeerID) (evs : list event) (w : dialWorker) :
  w ∈ states (newDialWorker p) evs → dq w ≠ [] → is_Some (timer w).
Proof.
  apply (states_reached (λ w, dq w ≠ [] → is_Some (timer w))); [|done].
  intros w0 ev H0.
  destruct (step_schedules_or_keeps w0 ev) as [[w' ->]|[-> ->]]; [|done].
  apply scheduleNextDial_armed.
Qed.

Lemma queued_dials_have_a_running_timer_witness :
  is_Some (timer Scenario.tracking_addrA).
Proof.
  apply (queued_dials_have_a_running_timer "peer"
           [EvRequest Scenario.dialing 0 (mkRequest Scenario.plain_ctx 1)]).
  - vm_compute. apply list_elem_of_In. right. left. reflexivity.
  - vm_compute. discriminate.
Defined.

(** X16. [cleanup] reads dial results while dials are in flight: started
    with [n > 0] dials in flight it leaves [n] minus the number of results
    it is given, but not less than zero; started with none (or a negative
    count) it reads nothing. It touches nothing else of the worker. *)
Theorem cleanup_drains_the_dials_in_flight (w : dialWorker) (evs : list event) :
  dialsInFlight (cleanup w evs)
  = (if bool_decide (dialsInFlight w ≤ 0)%Z then dialsInFlight w
     else Z.max 0 (dialsInFlight w - count_results evs)) ∧
  cleanup w evs = set_inflight (dialsInFlight (cleanup w evs)) w.
Proof.
  revert w. induction evs as [|ev evs IH]; intros w; cbn [cleanup count_results].
  - case_bool_decide as Hpos.
    + rewrite bool_decide_eq_false_2 by lia. split; [lia|by destruct w].
    + rewrite bool_decide_eq_true_2 by lia. split; [done|by destruct w].
  - case_bool_decide as Hpos.
    2:{ rewrite bool_decide_eq_true_2 by lia. split; [done|by destruct w]. }
    rewrite bool_decide_eq_false_2 by lia.
    destruct ev as [s now req|s now|s now res|].
    1,2,4: destruct (IH w) as [H1 H2]; split; [|done];
           rewrite H1, bool_decide_eq_false_2 by lia; done.
    destruct (IH (set_inflight (dialsInFlight w - 1) w)) as [H1 H2].
    split.
    + assert (0 ≤ count_results evs)%Z as Hn.
      { clear. induction evs as [|[] evs IH]; simpl; lia. }
      rewrite H1. simpl.
      destruct (decide (dialsInFlight w - 1 ≤ 0)%Z) as [Hle|Hgt].
      * rewrite (bool_decide_eq_true_2 _ Hle). lia.
      * rewrite (bool_decide_eq_false_2 _ Hgt). lia.
    + rewrite H2 at 1. by destruct w.
Qed.

Section worker_requests.

Implicit Types (w : dialWorker) (s : Swarm) (k : Multiaddr) (ad : addrDial).

Lemma deliver_conn_filter k conn prs :
  deliver_conn k conn prs
  = (filter (λ pr, k ∉ pr_addrs pr) prs,
     (λ pr, (resch (pr_req pr), mkResponse conn None))
       <$> filter (λ pr, k ∈ pr_addrs pr) prs).
Proof.
  induction prs as [|pr prs IH]; [done|]. cbn [deliver_conn]. rewrite IH.
  rewrite !filter_cons. destruct (decide (k ∈ pr_addrs pr)) as [Hin|Hin].
  - rewrite (bool_decide_eq_true_2 _ Hin), decide_False by tauto. done.
  - rewrite (bool_decide_eq_false_2 _ Hin), decide_True by done. done.
Qed.

(** The second loop of [addNewRequest] over addresses whose dials have all
    failed already: nothing is tracked or queued, each recorded error is
    appended and each address is taken out of the request's set. *)
Lemma track_all_failed req now l t q pr :
  filed_under_addr t →
  (∀ x, x ∈ l → ∃ ad e, t !! Addr x = Some ad ∧ ad_err ad = Some e) →
  foldl (track_one req now) (t, q, pr) l
  = (t, q,
     mkPend (pr_req pr)
       (mkDialError (de_Peer (pr_err pr))
          (DialErrors (pr_err pr) ++ omap (recorded_failure t) l)
          (Cause (pr_err pr)))
       (pr_addrs pr ∖ list_to_set (Addr <$> l))).
Proof.
  intros Hfiled. revert pr. induction l as [|x l IH]; intros pr Hall.
  - simpl. rewrite app_nil_r. destruct pr as [r [? ? ?] a]. simpl.
    do 2 f_equal. set_solver.
  - destruct (Hall x) as (ad & e & Hx & He); [apply elem_of_cons; by left|].
    cbn [foldl]. unfold track_one at 2. rewrite Hx, He.
    rewrite IH by (intros y Hy; apply Hall, elem_of_cons; by right).
    cbn [pr_req pr_err pr_addrs recordErr de_Peer DialErrors Cause].
    rewrite (Hfiled _ _ Hx). f_equal. f_equal.
    + f_equal. rewrite <- app_assoc. f_equal. cbn [omap list_omap].
      unfold recorded_failure at 2. rewrite Hx. simpl.
      by rewrite (Hfiled _ _ Hx), He.
    + rewrite fmap_cons, list_to_set_cons. set_solver.
Qed.

End worker_requests.

(** X17. When a dial ends with a connection to the expected peer that
    [addConn] accepts, [handleSuccess] records the connection on the tracked
    dial, sets [connected], sends that connection to every pending request
    that waits on the address, in turn, and keeps exactly the pending
    requests that do not wait on it. *)
Theorem handleSuccess_answers_every_waiter
    (s : Swarm) (k : Multiaddr) (rc : RawConn) (w : dialWorker)
    (conn : option Conn) :
  rc_RemotePeer rc = peer w → addConn s rc = (conn, None) →
  pendingRequests (handleSuccess s k rc w).1
    = filter (λ pr, k ∉ pr_addrs pr) (pendingRequests w) ∧
  (handleSuccess s k rc w).2
    = (λ pr, (resch (pr_req pr), mkResponse conn None))
        <$> filter (λ pr, k ∈ pr_addrs pr) (pendingRequests w) ∧
  connected (handleSuccess s k rc w).1 = true ∧
  trackedDials (handleSuccess s k rc w).1
    = alter (set_ad_conn conn) k (trackedDials w).
Proof.
  intros Hpeer Hadd. unfold handleSuccess.
  rewrite bool_decide_eq_false_2 by (intros Hne; by apply Hne).
  rewrite Hadd, deliver_conn_filter. done.
Qed.

Lemma handleSuccess_answers_every_waiter_witness :
  pendingRequests
    (handleSuccess Scenario.dialing Scenario.addrB (mkRawConn 9 "peer")
       Scenario.two_waiting).1
  = filter (λ pr, Scenario.addrB ∉ pr_addrs pr)
      (pendingRequests Scenario.two_waiting) ∧
  (handleSuccess Scenario.dialing Scenario.addrB (mkRawConn 9 "peer")
     Scenario.two_waiting).2
  = (λ pr, (resch (pr_req pr), mkResponse (Some 9) None))
      <$> filter (λ pr, Scenario.addrB ∈ pr_addrs pr)
            (pendingRequests Scenario.two_waiting) ∧
  connected
    (handleSuccess Scenario.dialing Scenario.addrB (mkRawConn 9 "peer")
       Scenario.two_waiting).1 = true ∧
  trackedDials
    (handleSuccess Scenario.dialing Scenario.addrB (mkRawConn 9 "peer")
       Scenario.two_waiting).1
  = alter (set_ad_conn (Some 9)) Scenario.addrB
      (trackedDials Scenario.two_waiting).
Proof.
  apply handleSuccess_answers_every_waiter; reflexivity.
Defined.

(** X18. A request all of whose ranked addresses are tracked with a
    recorded error (in particular a request with no address at all) is not
    made pending and starts no dial: [addNewRequest] leaves the worker as it
    is and answers at once with a dial error whose cause is all-dials-failed
    and whose list is the pre-flight errors followed by the recorded error
    of each address. *)
Theorem request_for_failed_addresses_is_answered_at_once
    (s : Swarm) (now : Z) (req : dialRequest) (addrs : list Multiaddr)
    (addrErrs : list TransportError) (w : dialWorker) :
  filed_under_addr (trackedDials w) →
  (∀ x, x ∈ rankAddrs s addrs (is_sim (req_ctx req)) →
        ∃ ad e, trackedDials w !! Addr x = Some ad ∧ ad_err ad = Some e) →
  addNewRequest s now req addrs addrErrs w
  = (w,
     [(resch req,
       mkResponse None
         (Some (DialFailure
            (mkDialError (peer w)
               (addrErrs
                ++ omap (recorded_failure (trackedDials w))
                     (rankAddrs s addrs (is_sim (req_ctx req))))
               (Some ErrAllDialsFailed)))))]).
Proof.
  intros Hfiled Hall. unfold addNewRequest. fold (is_sim (req_ctx req)).
  rewrite track_all_failed by done.
  cbn [pr_req pr_err pr_addrs de_Peer DialErrors Cause].
  rewrite bool_decide_eq_true_2.
  2:{ apply addrs_size_zero. set_solver. }
  unfold with_Cause. simpl. by destruct w.
Qed.

Lemma request_for_failed_addresses_is_answered_at_once_witness :
  addNewRequest Scenario.dialing 3 (mkRequest Scenario.plain_ctx 5)
    [Scenario.addrA] [] Scenario.after_refused_dial
  = (Scenario.after_refused_dial,
     [(5, mkResponse None
            (Some (DialFailure
               (mkDialError "peer"
                  [mkTransportError Scenario.addrA
                     (Some (ErrOther "refused"))]
                  (Some ErrAllDialsFailed)))))]).
Proof.
  assert (trackedDials Scenario.after_refused_dial
          = {[ Scenario.addrA :=
                 {| ad_addr := Scenario.addrA; ad_ctx := Scenario.plain_ctx;
                    ad_conn := None; ad_err := Some (ErrOther "refused");
                    ad_dialed := true; ad_createdAt := 0;
                    ad_dialRankingDelay := 1; ad_startTime := 0 |} ]})
    as Htracked.
  { vm_compute. reflexivity. }
  refine (eq_trans
            (request_for_failed_addresses_is_answered_at_once
               Scenario.dialing 3 (mkRequest Scenario.plain_ctx 5)
               [Scenario.addrA] [] Scenario.after_refused_dial _ _) _).
  - rewrite Htracked. intros k ad [<- <-]%lookup_singleton_Some. reflexivity.
  - rewrite Htracked. intros x Hx.
    assert (x = mkAddrDelay Scenario.addrA 10000000) as ->.
    { apply list_elem_of_In in Hx. simpl in Hx. by destruct Hx as [<-|[]]. }
    eexists _, _. split; [apply lookup_singleton_eq|reflexivity].
  - vm_compute. reflexivity.
Defined.

(** ** Pending requests wait on live dials *)

Section pending_facts.

Implicit Types (w : dialWorker) (s : Swarm) (k : Multiaddr) (ad : addrDial)
  (t : gmap string addrDial).

Lemma live_insert t k0 ad0 ad1 k :
  t !! k0 = Some ad0 → ad_err ad1 = ad_err ad0 →
  live t k → live (<[k0 := ad1]> t) k.
Proof.
  intros H0 Herr (ad & Hk & He). destruct (decide (k = k0)) as [->|Hne].
  - exists ad1. rewrite lookup_insert_eq. split; [done|]. congruence.
  - exists ad. by rewrite lookup_insert_ne.
Qed.

Lemma live_alter (f : addrDial → addrDial) t k0 k :
  (∀ ad, ad_err (f ad) = ad_err ad) → live t k → live (alter f k0 t) k.
Proof.
  intros Hf (ad & Hk & He). destruct (decide (k = k0)) as [->|Hne].
  - exists (f ad). rewrite lookup_alter_eq, Hk. split; [done|]. by rewrite Hf.
  - exists ad. by rewrite lookup_alter_ne.
Qed.

Lemma dispatch_pending_elem s k err prs pr' :
  pr' ∈ (dispatch_pending s k err prs).1 →
  ∃ pr, pr ∈ prs ∧
    ((pr' = pr ∧ k ∉ pr_addrs pr) ∨
     (pr_addrs pr' = pr_addrs pr ∖ {[k]} ∧ pr_addrs pr' ≠ ∅)).
Proof.
  intros Hin. induction prs as [|pr prs IH]; [by apply not_elem_of_nil in Hin|].
  cbn [dispatch_pending] in Hin.
  assert (Hrest : pr' ∈ (dispatch_pending s k err prs).1 →
          ∃ pr0, pr0 ∈ pr :: prs ∧
            ((pr' = pr0 ∧ k ∉ pr_addrs pr0) ∨
             (pr_addrs pr' = pr_addrs pr0 ∖ {[k]} ∧ pr_addrs pr' ≠ ∅))).
  { intros H. destruct (IH H) as (pr0 & Hpr0 & Hcase). exists pr0.
    split; [apply elem_of_cons; by right|done]. }
  unfold dispatch_one in Hin.
  destruct (dispatch_pending s k err prs) as [rest' out']. simpl in Hrest.
  destruct (decide (k ∈ pr_addrs pr)) as [Hk|Hk].
  - rewrite (bool_decide_eq_true_2 _ Hk) in Hin. cbn [pr_addrs] in Hin.
    destruct (decide (size (pr_addrs pr ∖ {[k]}) = 0)) as [Hz|Hnz].
    + rewrite (bool_decide_eq_true_2 _ Hz) in Hin.
      destruct ((bestAcceptableConnToPeer s _).1); simpl in Hin; by apply Hrest.
    + rewrite (bool_decide_eq_false_2 _ Hnz) in Hin. simpl in Hin.
      apply elem_of_cons in Hin as [->|Hin]; [|by apply Hrest].
      exists pr. split; [apply elem_of_cons; by left|]. right. simpl.
      split; [done|]. by rewrite <- addrs_size_zero.
  - rewrite (bool_decide_eq_false_2 _ Hk) in Hin. simpl in Hin.
    apply elem_of_cons in Hin as [->|Hin]; [|by apply Hrest].
    exists pr. split; [apply elem_of_cons; by left|]. by left.
Qed.

Lemma dispatchError_pending s k err w :
  pendingRequests (dispatchError s k err w).1
  = (dispatch_pending s k err (pendingRequests w)).1.
Proof.
  unfold dispatchError.
  by destruct (dispatch_pending s k err (pendingRequests w)).
Qed.

Lemma dispatchError_other_key s k err w k' :
  k' ≠ k →
  trackedDials (dispatchError s k err w).1 !! k' = trackedDials w !! k'.
Proof.
  intros Hne. rewrite dispatchError_tracked.
  case_bool_decide; by rewrite ?lookup_delete_ne, lookup_alter_ne.
Qed.

Lemma dispatchError_live s k err w :
  pending_live w → pending_live (dispatchError s k err w).1.
Proof.
  intros Hw pr' Hin. rewrite dispatchError_pending in Hin.
  apply dispatch_pending_elem in Hin as (pr & Hpr & Hcase).
  destruct (Hw pr Hpr) as [Hne Hlive].
  assert (pr_addrs pr' ≠ ∅ ∧ ∀ k', k' ∈ pr_addrs pr' → k' ≠ k ∧ k' ∈ pr_addrs pr)
    as [Hne' Hsub].
  { destruct Hcase as [[-> Hk]|[Haddrs Hnempty]]; (split; [done|]).
    - intros k' Hk'. split; [|done]. intros ->. done.
    - intros k'. rewrite Haddrs. set_solver. }
  split; [done|]. intros k' Hk'. destruct (Hsub k' Hk') as [Hkk Hin'].
  destruct (Hlive k' Hin') as (ad & Hlk & He).
  exists ad. by rewrite dispatchError_other_key.
Qed.

Lemma pending_live_alter (f : addrDial → addrDial) k0 w :
  (∀ ad, ad_err (f ad) = ad_err ad) →
  pending_live w → pending_live (set_tracked (alter f k0 (trackedDials w)) w).
Proof.
  intros Hf Hw pr Hin. destruct (Hw pr Hin) as [Hne Hlive].
  split; [done|]. intros k Hk. simpl. by apply live_alter, Hlive.
Qed.

Lemma pending_live_insert k0 ad0 ad1 w :
  trackedDials w !! k0 = Some ad0 → ad_err ad1 = ad_err ad0 →
  pending_live w → pending_live (set_tracked (<[k0 := ad1]> (trackedDials w)) w).
Proof.
  intros H0 Herr Hw pr Hin. destruct (Hw pr Hin) as [Hne Hlive].
  split; [done|]. intros k Hk. simpl. by eapply live_insert, Hlive.
Qed.

Lemma handleSuccess_live s k rc w :
  pending_live w → pending_live (handleSuccess s k rc w).1.
Proof.
  intros Hw. unfold handleSuccess.
  case_bool_decide as Hpeer; [by apply dispatchError_live|].
  destruct (addConn s rc) as [conn [e|]]; [by apply dispatchError_live|].
  rewrite deliver_conn_filter. intros pr Hin. simpl in Hin.
  apply list_elem_of_filter in Hin as [_ Hin].
  destruct (Hw pr Hin) as [Hne Hlive]. split; [done|].
  intros k' Hk'. simpl. by apply live_alter, Hlive.
Qed.

Lemma track_one_live req now
    (st : gmap string addrDial * dialQueue * pendRequest) x :
  filed_under_addr st.1.1 →
  (∀ k, live st.1.1 k → live (track_one req now st x).1.1 k) ∧
  pr_addrs (track_one req now st x).2 ⊆ pr_addrs st.2 ∧
  (Addr x ∈ pr_addrs (track_one req now st x).2 →
   live (track_one req now st x).1.1 (Addr x)).
Proof.
  destruct st as [[t q] pr]. simpl. intros Hfiled. unfold track_one.
  destruct (t !! Addr x) as [ad|] eqn:Hx.
  2:{ simpl. split_and!; [|done|].
      - intros k (ad & Hk & He). exists ad. rewrite lookup_insert_ne; [done|].
        intros Heq. rewrite Heq in Hx. congruence.
      - intros _. eexists. rewrite lookup_insert_eq. done. }
  destruct (ad_err ad) as [e|] eqn:Herr.
  { simpl. rewrite (Hfiled _ _ Hx). split_and!; [done|set_solver|set_solver]. }
  assert (live t (Addr x)) as Hlx by by exists ad.
  destruct (ad_dialed ad); [simpl; by split_and!|]. simpl.
  destruct (GetSimultaneousConnect (req_ctx req)) as [[[] ?] ?];
    [|simpl; by split_and!].
  destruct (GetSimultaneousConnect (ad_ctx ad)) as [[[] ?] ?];
    [simpl; by split_and!|]. simpl.
  split_and!; [|done|].
  - intros k Hk. by eapply live_insert.
  - intros _. by eapply live_insert.
Qed.

Lemma track_all_live req now l
    (st : gmap string addrDial * dialQueue * pendRequest) :
  filed_under_addr st.1.1 →
  (∀ k, live st.1.1 k → live (foldl (track_one req now) st l).1.1 k) ∧
  pr_addrs (foldl (track_one req now) st l).2 ⊆ pr_addrs st.2 ∧
  (∀ k, k ∈ pr_addrs (foldl (track_one req now) st l).2 →
        k ∈ Addr <$> l → live (foldl (track_one req now) st l).1.1 k).
Proof.
  revert st. induction l as [|x l IH]; intros st Hfiled.
  { simpl. split_and!; [done|done|]. by intros k _ ?%not_elem_of_nil. }
  cbn [foldl]. destruct (track_one_live req now st x Hfiled) as (Hm1 & Hs1 & Hx1).
  destruct (IH _ (track_one_filed req now st x Hfiled)) as (Hm & Hs & Hl).
  split_and!.
  - intros k Hk. by apply Hm, Hm1.
  - set_solver.
  - intros k Hk. rewrite fmap_cons. intros [->|Hin]%elem_of_cons; [|by apply Hl].
    apply Hm, Hx1. set_solver.
Qed.

Lemma addNewRequest_live s now req addrs addrErrs w :
  filed_under_addr (trackedDials w) → pending_live w →
  pending_live (addNewRequest s now req addrs addrErrs w).1.
Proof.
  intros Hfiled Hw. unfold addNewRequest. set (pr0 := mkPend _ _ _).
  destruct (track_all_live req now
    (rankAddrs s addrs (GetSimultaneousConnect (req_ctx req)).1.1)
    (trackedDials w, dq w, pr0) Hfiled) as (Hm & Hs & Hl).
  destruct (foldl _ _ _) as [[tracked q] pr]. simpl in *.
  assert (Hold : ∀ pr1, pr1 ∈ pendingRequests w →
            pr_addrs pr1 ≠ ∅ ∧ ∀ k, k ∈ pr_addrs pr1 → live tracked k).
  { intros pr1 Hin. destruct (Hw pr1 Hin) as [Hne Hlive]. split; [done|].
    intros k Hk. by apply Hm, Hlive. }
  destruct (decide (size (pr_addrs pr) = 0)) as [Hz|Hnz].
  - rewrite (bool_decide_eq_true_2 _ Hz). exact Hold.
  - rewrite (bool_decide_eq_false_2 _ Hnz). intros pr1. simpl.
    intros [Hin|Hin%list_elem_of_singleton]%elem_of_app; [by apply Hold|].
    subst pr1.
    split; [by rewrite <- addrs_size_zero|].
    intros k Hk. apply Hl; [done|]. apply Hs in Hk.
    unfold pr0 in Hk. simpl in Hk. by apply elem_of_list_to_set in Hk.
Qed.

Lemma pending_live_frame w w' :
  pendingRequests w' = pendingRequests w → trackedDials w' = trackedDials w →
  pending_live w → pending_live w'.
Proof. unfold pending_live. by intros -> ->. Qed.

Lemma dial_one_live s now (st : dialWorker * list output) adelay :
  pending_live st.1 → pending_live (dial_one s now st adelay).1.
Proof.
  destruct st as [w out]. simpl. intros Hw. unfold dial_one.
  destruct (trackedDials w !! Addr adelay) as [ad0|] eqn:H0; [|done].
  pose proof (pending_live_insert (Addr adelay) ad0 (mark_dialed now ad0) w
                H0 eq_refl Hw) as Hw1.
  set (w1 := set_tracked _ w) in *. simpl.
  destruct (dialNextAddr s (ad_ctx ad0) (ad_addr ad0)) as [e|]; [|done].
  pose proof (dispatchError_live s (Addr adelay) (Some e) w1 Hw1) as H.
  by destruct (dispatchError s (Addr adelay) (Some e) w1).
Qed.

Lemma step_live w ev :
  filed_under_addr (trackedDials w) → pending_live w →
  pending_live (step w ev).1.
Proof.
  intros Hfiled Hw. destruct ev as [s now req|s now|s now res|]; simpl; [| | |done].
  - unfold on_request.
    destruct (bestAcceptableConnToPeer s (req_ctx req)) as [c err].
    destruct (bool_decide (is_Some c) || bool_decide (is_Some err)); [done|].
    destruct (addrsForDial s (req_ctx req)) as [[addrs addrErrs] [e|]]; [done|].
    destruct (tracked_conn (trackedDials w) addrs); [done|].
    pose proof (addNewRequest_live s now req addrs addrErrs w Hfiled Hw) as H.
    destruct (addNewRequest s now req addrs addrErrs w) as [w1 out].
    cbn [fst] in *. eapply pending_live_frame; [| |exact H].
    + apply scheduleNextDial_pending.
    + apply scheduleNextDial_tracked.
  - unfold on_timer. destruct (NextBatch (dq w)) as [batch rest].
    assert (∀ l st, pending_live st.1 →
      pending_live (foldl (dial_one s now) st l).1) as Hfold.
    { induction l as [|x l IH]; intros st Hst; [done|].
      simpl. by apply IH, dial_one_live. }
    specialize (Hfold batch (set_dq rest w, []) Hw).
    destruct (foldl _ _ _) as [w1 out]. cbn [fst] in *.
    eapply pending_live_frame; [| |exact Hfold].
    + by rewrite scheduleNextDial_pending.
    + by rewrite scheduleNextDial_tracked.
  - unfold on_result.
    destruct (trackedDials w !! res_Addr res) as [ad0|] eqn:H0; [|done].
    destruct (res_Kind res).
    { cbn [fst]. eapply pending_live_frame;
        [apply scheduleNextDial_pending|apply scheduleNextDial_tracked|].
      by apply (pending_live_insert _ ad0). }
    set (w1 := set_inflight _ w).
    assert (pending_live
      (match res_Conn res with
       | Some rc => handleSuccess s (res_Addr res) rc w1
       | None => handleError s (res_Addr res) res w1
       end).1) as H.
    { destruct (res_Conn res); [by apply handleSuccess_live|].
      by apply dispatchError_live. }
    destruct (match res_Conn res with Some _ => _ | None => _ end) as [w2 out].
    cbn [fst] in *. eapply pending_live_frame; [| |exact H].
    + apply scheduleNextDial_pending.
    + apply scheduleNextDial_tracked.
Qed.

End pending_facts.

(** X19. In every state the loop reaches, each pending request waits on at
    least one address, and every address it waits on has a tracked dial
    that has recorded no error: a request is never left waiting on a dial
    that already failed or was deleted. *)
Theorem pending_requests_wait_on_live_dials
    (p : PeerID) (evs : list event) (w : dialWorker) (pr : pendRequest) :
  w ∈ states (newDialWorker p) evs → pr ∈ pendingRequests w →
  pr_addrs pr ≠ ∅ ∧
  ∀ k, k ∈ pr_addrs pr → ∃ ad, trackedDials w !! k = Some ad ∧ ad_err ad = None.
Proof.
  intros Hw. revert pr.
  assert (filed_under_addr (trackedDials w) ∧ pending_live w) as [_ H];
    [|exact H].
  revert Hw.
  apply (states_reached
           (λ w, filed_under_addr (trackedDials w) ∧ pending_live w)).
  - intros w0 ev [Hf Hl]. split; [by apply step_filed|by apply step_live].
  - split.
    + intros k ad. simpl. by rewrite lookup_empty.
    + by intros pr0 ?%not_elem_of_nil.
Qed.

Lemma pending_requests_wait_on_live_dials_witness :
  pr_addrs (mkPend (mkRequest Scenario.plain_ctx 1)
              (mkDialError "peer" [] None) {[Scenario.addrA]}) ≠ ∅ ∧
  ∀ k, k ∈ pr_addrs (mkPend (mkRequest Scenario.plain_ctx 1)
                       (mkDialError "peer" [] None) {[Scenario.addrA]}) →
    ∃ ad, trackedDials Scenario.tracking_addrA !! k = Some ad ∧ ad_err ad = None.
Proof.
  apply (pending_requests_wait_on_live_dials "peer"
           [EvRequest Scenario.dialing 0 (mkRequest Scenario.plain_ctx 1)]
           Scenario.tracking_addrA
           (mkPend (mkRequest Scenario.plain_ctx 1)
              (mkDialError "peer" [] None) {[Scenario.addrA]})).
  - vm_compute. apply list_elem_of_In. right. left. reflexivity.
  - vm_compute. apply list_elem_of_In. left. reflexivity.
Defined.

(** ** Queued addresses have not been dialed *)

Section queue_in_worker.

Implicit Types (w : dialWorker) (s : Swarm) (k : Multiaddr) (ad : addrDial)
  (t : gmap string addrDial) (q : dialQueue).

Lemma keeps_dialed_refl t : keeps_dialed t t.
Proof. intros k ad H. eauto. Qed.

Lemma keeps_dialed_trans t1 t2 t3 :
  keeps_dialed t1 t2 → keeps_dialed t2 t3 → keeps_dialed t1 t3.
Proof.
  intros H12 H23 k ad3 H3. destruct (H23 k ad3 H3) as (ad2 & H2 & E2).
  destruct (H12 k ad2 H2) as (ad1 & H1 & E1). exists ad1. split; [done|congruence].
Qed.

Lemma keeps_dialed_alter (f : addrDial → addrDial) k0 t :
  (∀ ad, ad_dialed (f ad) = ad_dialed ad) → keeps_dialed t (alter f k0 t).
Proof.
  intros Hf k ad' [[-> (x & Hx & ->)]|[_ Hk]]%lookup_alter_Some; eauto.
Qed.

Lemma keeps_dialed_delete k0 t : keeps_dialed t (delete k0 t).
Proof. intros k ad' [_ Hk]%lookup_delete_Some. eauto. Qed.

Lemma keeps_dialed_insert k0 ad0 ad1 t :
  t !! k0 = Some ad0 → ad_dialed ad1 = ad_dialed ad0 →
  keeps_dialed t (<[k0 := ad1]> t).
Proof.
  intros H0 Hd k ad' [[<- <-]|[_ Hk]]%lookup_insert_Some; eauto.
Qed.

Lemma queued_keeps t t' q :
  queued_undialed t q → keeps_dialed t t' → queued_undialed t' q.
Proof.
  intros Hq Hk x ad' Hx Hl. destruct (Hk _ _ Hl) as (ad & Hl0 & ->).
  by eapply Hq.
Qed.

Lemma dispatchError_keeps s k err w :
  keeps_dialed (trackedDials w) (trackedDials (dispatchError s k err w).1).
Proof.
  rewrite dispatchError_tracked. case_bool_decide.
  - eapply keeps_dialed_trans; [|apply keeps_dialed_delete].
    by apply keeps_dialed_alter.
  - by apply keeps_dialed_alter.
Qed.

Lemma handleSuccess_keeps s k rc w :
  keeps_dialed (trackedDials w) (trackedDials (handleSuccess s k rc w).1).
Proof.
  unfold handleSuccess.
  case_bool_decide; [apply dispatchError_keeps|].
  destruct (addConn s rc) as [conn [e|]]; [apply dispatchError_keeps|].
  destruct (deliver_conn k conn (pendingRequests w)). simpl.
  by apply keeps_dialed_alter.
Qed.

Lemma track_one_queue req now
    (st : gmap string addrDial * dialQueue * pendRequest) x :
  filed_under_addr st.1.1 → dq_inv st.1.2 → queued_undialed st.1.1 st.1.2 →
  dq_inv (track_one req now st x).1.2 ∧
  queued_undialed (track_one req now st x).1.1 (track_one req now st x).1.2.
Proof.
  destruct st as [[t q] pr]. simpl. intros Hfiled Hinv Hq. unfold track_one.
  assert (Hadd : ∀ ad1 d,
    ad_dialed ad1 = false →
    (∀ ad, t !! Addr x = Some ad → True) →
    dq_inv (Add (mkAddrDelay (Addr x) d) q) ∧
    queued_undialed (<[Addr x := ad1]> t) (Add (mkAddrDelay (Addr x) d) q)).
  { intros ad1 d Hd _. split; [by apply Add_inv|].
    intros y ad' Hy Hl. apply Add_elem_of in Hy; [|apply Hinv].
    destruct (decide (Addr y = Addr x)) as [Heq|Hne].
    - rewrite Heq, lookup_insert_eq in Hl. congruence.
    - rewrite lookup_insert_ne in Hl by done.
      destruct Hy as [->|[Hy _]]; [done|]. by eapply Hq. }
  destruct (t !! Addr x) as [ad|] eqn:Hx.
  { destruct (ad_err ad); [done|].
    destruct (ad_dialed ad) eqn:Hd; [done|]. simpl.
    destruct (GetSimultaneousConnect (req_ctx req)) as [[[] ?] ?]; [|done].
    destruct (GetSimultaneousConnect (ad_ctx ad)) as [[[] ?] ?]; [done|]. simpl.
    rewrite (Hfiled _ _ Hx). by apply Hadd. }
  simpl. by apply Hadd.
Qed.

Lemma addNewRequest_queue s now req addrs addrErrs w :
  filed_under_addr (trackedDials w) → dq_inv (dq w) →
  queued_undialed (trackedDials w) (dq w) →
  dq_inv (dq (addNewRequest s now req addrs addrErrs w).1) ∧
  queued_undialed (trackedDials (addNewRequest s now req addrs addrErrs w).1)
    (dq (addNewRequest s now req addrs addrErrs w).1).
Proof.
  intros Hfiled Hinv Hq. unfold addNewRequest. set (pr0 := mkPend _ _ _).
  assert (∀ l st,
    filed_under_addr st.1.1 → dq_inv st.1.2 → queued_undialed st.1.1 st.1.2 →
    dq_inv (foldl (track_one req now) st l).1.2 ∧
    queued_undialed (foldl (track_one req now) st l).1.1
      (foldl (track_one req now) st l).1.2) as Hfold.
  { induction l as [|x l IH]; intros st Hf Hi Hu; [done|]. simpl.
    destruct (track_one_queue req now st x Hf Hi Hu) as [Hi1 Hu1].
    apply IH; [by apply track_one_filed|done|done]. }
  specialize (Hfold (rankAddrs s addrs (GetSimultaneousConnect (req_ctx req)).1.1)
                (trackedDials w, dq w, pr0) Hfiled Hinv Hq).
  destruct (foldl _ _ _) as [[tracked q] pr]. simpl in Hfold.
  by case_bool_decide.
Qed.

Lemma dial_one_other_keys s now (st : dialWorker * list output) adelay :
  dq (dial_one s now st adelay).1 = dq st.1 ∧
  ∀ k, k ≠ Addr adelay →
    trackedDials (dial_one s now st adelay).1 !! k = trackedDials st.1 !! k.
Proof.
  destruct st as [w out]. simpl. unfold dial_one.
  destruct (trackedDials w !! Addr adelay) as [ad0|] eqn:H0; [|done].
  set (w1 := set_tracked _ w). simpl.
  destruct (dialNextAddr s (ad_ctx ad0) (ad_addr ad0)) as [e|].
  - destruct (dispatchError_frame s (Addr adelay) (Some e) w1) as (_ & Hdq & _).
    pose proof (dispatchError_other_key s (Addr adelay) (Some e) w1) as Hk.
    destruct (dispatchError s (Addr adelay) (Some e) w1) as [w2 out'].
    cbn [fst] in *. split; [done|]. intros k Hne. rewrite Hk by done.
    simpl. by rewrite lookup_insert_ne.
  - split; [done|]. intros k Hne. simpl. by rewrite lookup_insert_ne.
Qed.

Lemma dial_batch_other_keys s now l (st : dialWorker * list output) :
  dq (foldl (dial_one s now) st l).1 = dq st.1 ∧
  ∀ k, k ∉ Addr <$> l →
    trackedDials (foldl (dial_one s now) st l).1 !! k = trackedDials st.1 !! k.
Proof.
  revert st. induction l as [|x l IH]; intros st; [done|]. cbn [foldl].
  destruct (IH (dial_one s now st x)) as [Hdq Hk].
  destruct (dial_one_other_keys s now st x) as [Hdq1 Hk1].
  split; [congruence|]. intros k Hnin. rewrite fmap_cons in Hnin.
  apply not_elem_of_cons in Hnin as [Hne Hnin].
  rewrite Hk by done. by apply Hk1.
Qed.

Lemma on_timer_queue s now w :
  dq_inv (dq w) → queued_undialed (trackedDials w) (dq w) →
  dq_inv (dq (on_timer s now w).1) ∧
  queued_undialed (trackedDials (on_timer s now w).1) (dq (on_timer s now w).1).
Proof.
  intros Hinv Hq. unfold on_timer.
  assert ((NextBatch (dq w)).1 ++ (NextBatch (dq w)).2 = dq w) as Hsplit.
  { destruct (dq w); [done|]. apply take_drop. }
  destruct (NextBatch (dq w)) as [batch rest]. simpl in Hsplit.
  destruct (dial_batch_other_keys s now batch (set_dq rest w, [])) as [Hdq Hk].
  destruct (foldl _ _ _) as [w1 out]. cbn [fst] in *.
  destruct (scheduleNextDial_frame (set_timer None w1)) as [_ ->].
  rewrite scheduleNextDial_tracked. simpl in *. rewrite Hdq.
  split.
  - eapply dq_inv_sublist; [|exact Hinv]. rewrite <- Hsplit.
    by apply sublist_inserts_l.
  - intros y ad' Hy Hl. rewrite Hk in Hl.
    + eapply Hq; [|exact Hl]. rewrite <- Hsplit. apply elem_of_app. by right.
    + destruct Hinv as [Hnd _]. unfold addrs_of in Hnd.
      rewrite <- Hsplit, fmap_app in Hnd.
      apply NoDup_app in Hnd as (_ & Hdisj & _).
      intros Hin. apply (Hdisj _ Hin). by apply list_elem_of_fmap_2.
Qed.

Lemma on_result_queue s now res w :
  dq (on_result s now res w).1 = dq w ∧
  keeps_dialed (trackedDials w) (trackedDials (on_result s now res w).1).
Proof.
  unfold on_result.
  destruct (trackedDials w !! res_Addr res) as [ad0|] eqn:H0.
  2:{ split; [done|apply keeps_dialed_refl]. }
  destruct (res_Kind res).
  { cbn [fst]. rewrite scheduleNextDial_tracked.
    destruct (scheduleNextDial_frame
      (set_tracked (<[res_Addr res:=set_ad_startTime now ad0]> (trackedDials w)) w))
      as [_ ->].
    split; [done|]. simpl. by eapply keeps_dialed_insert. }
  set (w1 := set_inflight _ w).
  assert (dq
      (match res_Conn res with
       | Some rc => handleSuccess s (res_Addr res) rc w1
       | None => handleError s (res_Addr res) res w1
       end).1 = dq w ∧
    keeps_dialed (trackedDials w) (trackedDials
      (match res_Conn res with
       | Some rc => handleSuccess s (res_Addr res) rc w1
       | None => handleError s (res_Addr res) res w1
       end).1)) as [Hdq Hkeeps].
  { destruct (res_Conn res) as [rc|].
    - split; [by destruct (handleSuccess_frame s (res_Addr res) rc w1) as (_ & -> & _)|].
      apply (handleSuccess_keeps s (res_Addr res) rc w1).
    - unfold handleError.
      split; [by destruct (dispatchError_frame s (res_Addr res) (res_Err res) w1)
                as (_ & -> & _)|].
      apply (dispatchError_keeps s (res_Addr res) (res_Err res) w1). }
  destruct (match res_Conn res with Some _ => _ | None => _ end) as [w2 out].
  cbn [fst] in *. rewrite scheduleNextDial_tracked.
  by destruct (scheduleNextDial_frame w2) as [_ ->].
Qed.

Lemma step_queue w ev :
  filed_under_addr (trackedDials w) → dq_inv (dq w) →
  queued_undialed (trackedDials w) (dq w) →
  dq_inv (dq (step w ev).1) ∧
  queued_undialed (trackedDials (step w ev).1) (dq (step w ev).1).
Proof.
  intros Hfiled Hinv Hq.
  destruct ev as [s now req|s now|s now res|]; simpl; [| | |done].
  - unfold on_request.
    destruct (bestAcceptableConnToPeer s (req_ctx req)) as [c err].
    destruct (bool_decide (is_Some c) || bool_decide (is_Some err)); [done|].
    destruct (addrsForDial s (req_ctx req)) as [[addrs addrErrs] [e|]]; [done|].
    destruct (tracked_conn (trackedDials w) addrs); [done|].
    pose proof (addNewRequest_queue s now req addrs addrErrs w Hfiled Hinv Hq) as H.
    destruct (addNewRequest s now req addrs addrErrs w) as [w1 out].
    cbn [fst] in *. rewrite scheduleNextDial_tracked.
    by destruct (scheduleNextDial_frame w1) as [_ ->].
  - by apply on_timer_queue.
  - destruct (on_result_queue s now res w) as [-> Hkeeps].
    split; [done|]. by eapply queued_keeps.
Qed.

End queue_in_worker.

(** X20. In every state the loop reaches, the worker's dial queue holds each
    address at most once, in non-decreasing order of delay, and no queued
    address has a tracked dial that was already triggered: the timer arm
    calls [dialNextAddr] only for dials it has not started before. *)
Theorem queued_addresses_are_not_yet_dialed
    (p : PeerID) (evs : list event) (w : dialWorker) :
  w ∈ states (newDialWorker p) evs →
  NoDup (addrs_of (dq w)) ∧ StronglySorted by_delay (dq w) ∧
  ∀ x ad, x ∈ dq w → trackedDials w !! Addr x = Some ad → ad_dialed ad = false.
Proof.
  intros Hw.
  assert (filed_under_addr (trackedDials w) ∧ dq_inv (dq w) ∧
          queued_undialed (trackedDials w) (dq w)) as (_ & [? ?] & ?);
    [|done].
  revert Hw.
  apply (states_reached
           (λ w, filed_under_addr (trackedDials w) ∧ dq_inv (dq w) ∧
                 queued_undialed (trackedDials w) (dq w))).
  - intros w0 ev (Hf & Hi & Hu). split; [by apply step_filed|].
    by apply step_queue.
  - split_and!.
    + intros k ad. simpl. by rewrite lookup_empty.
    + split; constructor.
    + by intros x ad ?%not_elem_of_nil.
Qed.

Lemma queued_addresses_are_not_yet_dialed_witness :
  NoDup (addrs_of (dq Scenario.tracking_addrA)) ∧
  StronglySorted by_delay (dq Scenario.tracking_addrA) ∧
  ∀ x ad, x ∈ dq Scenario.tracking_addrA →
    trackedDials Scenario.tracking_addrA !! Addr x = Some ad →
    ad_dialed ad = false.
Proof.
  apply (queued_addresses_are_not_yet_dialed "peer"
           [EvRequest Scenario.dialing 0 (mkRequest Scenario.plain_ctx 1)]).
  vm_compute. apply list_elem_of_In. right. left. reflexivity.
Defined.

(** ** A request enters the addresses that are not tracked *)

Section entering.

Implicit Types (w : dialWorker) (s : Swarm) (k : Multiaddr) (ad : addrDial)
  (st : gmap string addrDial * dialQueue * pendRequest).

Lemma track_one_req req now st x :
  pr_req (track_one req now st x).2 = pr_req st.2.
Proof.
  destruct st as [[t q] pr]. unfold track_one. repeat case_match; done.
Qed.

Lemma track_one_dq_inv req now st x :
  dq_inv st.1.2 → dq_inv (track_one req now st x).1.2.
Proof.
  destruct st as [[t q] pr]. simpl. intros Hinv. unfold track_one.
  repeat case_match; simpl; try done; by apply Add_inv.
Qed.

Lemma queued_after_Add k d (a : AddrDelay) (q : dialQueue) :
  dq_inv q → mkAddrDelay k d ∈ q → ∃ d', mkAddrDelay k d' ∈ Add a q.
Proof.
  intros [Hnd _] Hin. destruct (decide (Addr a = k)) as [<-|Hne].
  - exists (Delay a). apply Add_elem_of; [done|]. left. by destruct a.
  - exists d. apply Add_elem_of; [done|]. right. split; [done|]. simpl. congruence.
Qed.

Lemma track_one_entered req now k st x :
  filed_under_addr st.1.1 → dq_inv st.1.2 →
  entered req now k st → entered req now k (track_one req now st x).
Proof.
  destruct st as [[t q] pr]. unfold entered. simpl.
  intros Hfiled Hinv (Hk & [d Hq] & Hpr). unfold track_one.
  destruct (t !! Addr x) as [ad|] eqn:Hx.
  2:{ simpl. split_and!; [|by eapply queued_after_Add|done].
      rewrite lookup_insert_ne; [done|]. intros Heq. rewrite Heq in Hx. congruence. }
  destruct (ad_err ad) as [e|] eqn:Herr.
  { simpl. split_and!; [done|eauto|]. rewrite (Hfiled _ _ Hx).
    apply elem_of_difference. split; [done|]. intros ->%elem_of_singleton.
    rewrite Hx in Hk. injection Hk as ->. done. }
  destruct (ad_dialed ad); [simpl; eauto|]. simpl.
  destruct (GetSimultaneousConnect (req_ctx req)) as [[[] c] r] eqn:Hreq;
    [|simpl; eauto].
  destruct (GetSimultaneousConnect (ad_ctx ad)) as [[[] c0] r0] eqn:Hwas;
    [simpl; eauto|]. simpl.
  assert (Addr x ≠ k) as Hne.
  { intros Heq. rewrite Heq, Hk in Hx. injection Hx as <-.
    simpl in Hwas. congruence. }
  split_and!; [by rewrite lookup_insert_ne|by eapply queued_after_Add|done].
Qed.

Lemma track_one_enters req now k st x :
  filed_under_addr st.1.1 → dq_inv st.1.2 →
  st.1.1 !! k = None → k ∈ pr_addrs st.2 →
  (Addr x = k → entered req now k (track_one req now st x)) ∧
  (Addr x ≠ k → (track_one req now st x).1.1 !! k = None ∧
                k ∈ pr_addrs (track_one req now st x).2).
Proof.
  destruct st as [[t q] pr]. unfold entered. simpl.
  intros Hfiled [Hnd _] Hk Hpr. unfold track_one. split.
  - intros ->. rewrite Hk. simpl. split_and!; [by rewrite lookup_insert_eq| |done].
    exists (Delay x). apply Add_elem_of; [done|]. by left.
  - intros Hne. destruct (t !! Addr x) as [ad|] eqn:Hx.
    2:{ simpl. by rewrite lookup_insert_ne. }
    destruct (ad_err ad) as [e|].
    { simpl. split; [done|]. rewrite (Hfiled _ _ Hx). set_solver. }
    destruct (ad_dialed ad); [done|]. simpl.
    destruct (GetSimultaneousConnect (req_ctx req)) as [[[] c] r]; [|done].
    destruct (GetSimultaneousConnect (ad_ctx ad)) as [[[] c0] r0]; [done|].
    simpl. by rewrite lookup_insert_ne.
Qed.

Lemma track_all_entered req now k l st :
  filed_under_addr st.1.1 → dq_inv st.1.2 →
  entered req now k st → entered req now k (foldl (track_one req now) st l).
Proof.
  revert st. induction l as [|x l IH]; intros st Hf Hi He; [done|].
  simpl. apply IH; [by apply track_one_filed|by apply track_one_dq_inv|].
  by apply track_one_entered.
Qed.

Lemma track_all_enters req now k l st :
  filed_under_addr st.1.1 → dq_inv st.1.2 →
  st.1.1 !! k = None → k ∈ pr_addrs st.2 → k ∈ Addr <$> l →
  entered req now k (foldl (track_one req now) st l).
Proof.
  revert st. induction l as [|x l IH]; intros st Hf Hi Hk Hpr Hin.
  { by apply not_elem_of_nil in Hin. }
  simpl. destruct (track_one_enters req now k st x Hf Hi Hk Hpr) as [Heq Hne].
  pose proof (track_one_filed req now st x Hf) as Hf1.
  pose proof (track_one_dq_inv req now st x Hi) as Hi1.
  destruct (decide (Addr x = k)) as [Hxk|Hxk].
  - apply track_all_entered; [done|done|by apply Heq].
  - destruct (Hne Hxk) as [Hk1 Hpr1]. apply IH; [done..|].
    rewrite fmap_cons in Hin. apply elem_of_cons in Hin as [?|?]; [congruence|done].
Qed.

Lemma track_all_req req now l st :
  pr_req (foldl (track_one req now) st l).2 = pr_req st.2.
Proof.
  revert st. induction l as [|x l IH]; intros st; [done|].
  simpl. by rewrite IH, track_one_req.
Qed.

End entering.

(** X21. A request that names an address the worker does not track enters
    it: after [addNewRequest] the address is tracked by a fresh dial that
    carries the request's context and is neither dialed nor errored, it is in
    the dial queue, nothing is sent, and the request is added to the pending
    requests, waiting on that address. This is also how an address re-enters
    after a backoff error has deleted its dial. *)
Theorem request_enters_untracked_address
    (s : Swarm) (now : Z) (req : dialRequest) (addrs : list Multiaddr)
    (addrErrs : list TransportError) (w : dialWorker) (k : Multiaddr) :
  filed_under_addr (trackedDials w) → dq_inv (dq w) →
  trackedDials w !! k = None →
  k ∈ Addr <$> rankAddrs s addrs (is_sim (req_ctx req)) →
  trackedDials (addNewRequest s now req addrs addrErrs w).1 !! k
    = Some (fresh_dial req now k) ∧
  (∃ d, mkAddrDelay k d ∈ dq (addNewRequest s now req addrs addrErrs w).1) ∧
  (addNewRequest s now req addrs addrErrs w).2 = [] ∧
  ∃ pr, pendingRequests (addNewRequest s now req addrs addrErrs w).1
          = pendingRequests w ++ [pr] ∧
        pr_req pr = req ∧ k ∈ pr_addrs pr.
Proof.
  intros Hfiled Hinv Hk Hin. unfold addNewRequest.
  fold (is_sim (req_ctx req)). set (pr0 := mkPend _ _ _).
  assert (k ∈ pr_addrs pr0) as Hpr0 by by apply elem_of_list_to_set.
  pose proof (track_all_enters req now k _ (trackedDials w, dq w, pr0)
                Hfiled Hinv Hk Hpr0 Hin) as (Ht & Hq & Hpr).
  pose proof (track_all_req req now (rankAddrs s addrs (is_sim (req_ctx req)))
                (trackedDials w, dq w, pr0)) as Hreq.
  destruct (foldl _ _ _) as [[tracked q] pr]. simpl in *.
  rewrite bool_decide_eq_false_2.
  2:{ rewrite addrs_size_zero. set_solver. }
  simpl. split_and!; [done|done|done|]. by exists pr.
Qed.

Lemma request_enters_untracked_address_witness :
  trackedDials
    (addNewRequest Scenario.dialing 7 (mkRequest Scenario.plain_ctx 3)
       [Scenario.addrA] [] (newDialWorker "peer")).1 !! Scenario.addrA
    = Some (fresh_dial (mkRequest Scenario.plain_ctx 3) 7 Scenario.addrA) ∧
  (∃ d, mkAddrDelay Scenario.addrA d
        ∈ dq (addNewRequest Scenario.dialing 7 (mkRequest Scenario.plain_ctx 3)
                [Scenario.addrA] [] (newDialWorker "peer")).1) ∧
  (addNewRequest Scenario.dialing 7 (mkRequest Scenario.plain_ctx 3)
     [Scenario.addrA] [] (newDialWorker "peer")).2 = [] ∧
  ∃ pr, pendingRequests
          (addNewRequest Scenario.dialing 7 (mkRequest Scenario.plain_ctx 3)
             [Scenario.addrA] [] (newDialWorker "peer")).1
          = pendingRequests (newDialWorker "peer") ++ [pr] ∧
        pr_req pr = mkRequest Scenario.plain_ctx 3 ∧
        Scenario.addrA ∈ pr_addrs pr.
Proof.
  apply request_enters_untracked_address.
  - intros k ad. simpl. by rewrite lookup_empty.
  - split; constructor.
  - reflexivity.
  - vm_compute. apply list_elem_of_In. left. reflexivity.
Defined.

(** ** Every request is answered once *)

Section answering.

Implicit Types (w : dialWorker) (s : Swarm) (k : Multiaddr) (ad : addrDial)
  (prs : list pendRequest).
















Lemma received_on_app ch pre post :
  existsb is_close pre = false →
  received_on ch (pre ++ post) = received_on ch pre + received_on ch post.
Proof.
  induction pre as [|ev pre IH]; intros Hnc; [done|].
  simpl in Hnc. apply orb_false_iff in Hnc as [Hev Hnc].
  destruct ev; try done; simpl; rewrite IH by done; lia.
Qed.



(** *** Awaited dials are on their way *)









End answering.



(** The run of the witness above: the request read on channel 1 waits on
    the dial of one address; when that dial has been refused it is answered
    with the dial error, once. *)
Example request_answered_when_its_dial_is_refused :
  (loop (newDialWorker "peer") Scenario.request_read).2 = [] ∧
  (loop (newDialWorker "peer")
     (Scenario.request_read ++ Scenario.dial_refused)).2
  = [(1, mkResponse None
           (Some (DialFailure
              (mkDialError "peer"
                 [mkTransportError Scenario.addrA (Some (ErrOther "refused"))]
                 (Some ErrAllDialsFailed)))))].
Proof. split; vm_compute; reflexivity. Qed.

